(** * CPU scheduling simulator: main.go

    A shallow embedding of [FCFSSchedule], [SJFSchedule],
    [SJFPrioritySchedule] and [RRSchedule] and the proofs of their
    report-row, aggregate and frame properties; then of the functions
    around them, [loadProcesses], [outputTitle], [outputGantt],
    [outputSchedule] and [main], and of what they do together.

    Conventions of the embedding.
    - Go's [int] and [int64] are both 64-bit two's complement integers
      (the 64-bit targets); a value is a [Z] and every addition and
      subtraction wraps, see [Int64].  The conversions [int(x)] and
      [int64(x)] are the identity on such values.
    - [float64] is the binary64 type of the kernel ([PrimFloat]), and
      [float64(n)] rounds to nearest even, see [float64].
    - A report row is written by the source as seven strings, each the
      [fmt.Sprint] of an integer; a [Row] holds the seven integers.
    - A run of a scheduler either returns, or panics on an index out of
      range; see [run].  The outer loop of [RRSchedule] is modelled with
      a bound on its passes that no run reaches ([RRSchedule_total]).
    - The order in which a range over a map yields its entries, and the
      order in which [sort.Slice] leaves elements that compare equal, are
      fixed by neither the language nor the library.  The schedulers
      that depend on them take them as arguments ([range_map],
      [sort_Slice]), and the theorems hold for every choice that meets
      [range_ok] and [sort_ok].
    - What the program prints is a function of the title, the timeline,
      the row buffer and the three aggregates handed to the output
      helpers; a scheduler is modelled up to that hand-over, together
      with the content of the caller's slice when it returns.  The
      helpers, the loader and [main] are modelled on top of that, in
      the part on loading and printing.
    - A string is a sequence of bytes, and the standard output is the
      text written on it so far.  What lies outside the repository and
      outside the language - the files, the csv reader, the layout of
      the table, the format of a float - is a [World] that [main] is
      given. *)

From Stdlib Require Import ZArith Lia.
From Stdlib Require Import Floats.PrimFloat Floats.FloatOps Floats.SpecFloat.
From Stdlib Require Import Ascii.
From stdpp Require Import gmap list sorting strings pretty.

#[local] Open Scope Z_scope.

(** ** 64-bit integers *)

Module Int64.

Definition wrap (z : Z) : Z := (z + 2 ^ 63) mod 2 ^ 64 - 2 ^ 63.

Definition add (a b : Z) : Z := wrap (a + b).
Definition sub (a b : Z) : Z := wrap (a - b).

Definition in_range (z : Z) : Prop := - 2 ^ 63 <= z < 2 ^ 63.

End Int64.

(** [float64(n)] for an integer [n]: the nearest binary64 value, ties to
    even. *)
Definition float64 (n : Z) : float :=
  SF2Prim (binary_normalize prec emax n 0 false).

(** ** Data *)

Record Process := {
  ProcessID : Z;
  ArrivalTime : Z;
  BurstDuration : Z;
  Priority : Z
}.

Record TimeSlice := {
  PID : Z;
  Start : Z;
  Stop : Z
}.

(** The columns of the schedule table, in the order of its header:
    ID, Priority, Burst, Arrival, Wait, Turnaround, Exit. *)
Record Row := {
  rowID : Z;
  rowPriority : Z;
  rowBurst : Z;
  rowArrival : Z;
  rowWait : Z;
  rowTurnaround : Z;
  rowExit : Z
}.

#[global] Instance Process_eq_dec : EqDecision Process.
Proof. solve_decision. Defined.
#[global] Instance TimeSlice_eq_dec : EqDecision TimeSlice.
Proof. solve_decision. Defined.
#[global] Instance Row_eq_dec : EqDecision Row.
Proof. solve_decision. Defined.

(** The zero value of [Process], which a map lookup of a missing key
    yields. *)
Definition zeroProcess : Process :=
  {| ProcessID := 0; ArrivalTime := 0; BurstDuration := 0; Priority := 0 |}.

#[global] Instance Process_inhabited : Inhabited Process := populate zeroProcess.

(** [p.BurstDuration = b] on a local copy of [p]. *)
Definition with_burst (p : Process) (b : Z) : Process :=
  {| ProcessID := ProcessID p; ArrivalTime := ArrivalTime p;
     BurstDuration := b; Priority := Priority p |}.

(** ** Runs *)

(** The outcome of a call: it returns [a], or it panics (the one panic of
    these functions is an index out of range), or the bound on the steps
    of the model is reached. *)
Inductive run (A : Type) : Type :=
| Done (a : A)
| Panic
| OutOfFuel.
Arguments Done {A} a.
Arguments Panic {A}.
Arguments OutOfFuel {A}.

#[global] Instance run_ret : MRet run := @Done.
#[global] Instance run_bind : MBind run := λ A B f m,
  match m with
  | Done a => f a
  | Panic => Panic
  | OutOfFuel => OutOfFuel
  end.

(** [for i, x := range l { body }], from index [i]. *)
Fixpoint for_range {A St : Type} (body : nat → A → St → run St)
    (i : nat) (l : list A) (s : St) : run St :=
  match l with
  | [] => Done s
  | x :: l' => s' ← body i x s; for_range body (S i) l' s'
  end.

(** [l[i]] as an expression: a panic when [i] is out of range. *)
Definition index {A : Type} (l : list A) (i : Z) : run A :=
  if decide (0 <= i) then
    match l !! Z.to_nat i with
    | Some x => Done x
    | None => Panic
    end
  else Panic.

(** [schedule[i] = row]: the row buffer is a slice of rows, [None] where
    nothing has been stored yet. *)
Definition store (schedule : list (option Row)) (i : nat) (row : Row)
    : run (list (option Row)) :=
  if decide (i < length schedule)%nat then Done (<[i := Some row]> schedule)
  else Panic.

(** The rows that were stored, in buffer order. *)
Definition stored (schedule : list (option Row)) : list Row :=
  omap id schedule.

(** What a scheduler hands to [outputGantt] and [outputSchedule]. *)
Record Report := {
  out_gantt : list TimeSlice;
  out_rows : list (option Row);
  aveWait : float;
  aveTurnaround : float;
  aveThroughput : float
}.

(** A returned call: the caller's slice as the call leaves it, and the
    report. *)
Record Returned := {
  processes_after : list Process;
  report : Report
}.

(** ** First-come, first-serve *)

Module FCFS.

Record State := {
  serviceTime : Z;
  totalWait : float;
  totalTurnaround : float;
  lastCompletion : float;
  waitingTime : Z;
  schedule : list (option Row);
  gantt : list TimeSlice
}.

Definition init (n : nat) : State :=
  {| serviceTime := 0; totalWait := float64 0; totalTurnaround := float64 0;
     lastCompletion := float64 0; waitingTime := 0;
     schedule := replicate n None; gantt := [] |}.

(** The body of the loop over [processes], at index [i] where
    [processes[i] = p]. *)
Definition body (i : nat) (p : Process) (st : State) : run State :=
  let waitingTime' :=
    if decide (ArrivalTime p > 0)
    then Int64.sub (serviceTime st) (ArrivalTime p)
    else waitingTime st in
  let start := Int64.add waitingTime' (ArrivalTime p) in
  let turnaround := Int64.add (BurstDuration p) waitingTime' in
  let completion :=
    Int64.add (Int64.add (BurstDuration p) (ArrivalTime p)) waitingTime' in
  schedule' ← store (schedule st) i
    {| rowID := ProcessID p; rowPriority := Priority p;
       rowBurst := BurstDuration p; rowArrival := ArrivalTime p;
       rowWait := waitingTime'; rowTurnaround := turnaround;
       rowExit := completion |};
  let serviceTime' := Int64.add (serviceTime st) (BurstDuration p) in
  Done {| serviceTime := serviceTime';
          totalWait := PrimFloat.add (totalWait st) (float64 waitingTime');
          totalTurnaround :=
            PrimFloat.add (totalTurnaround st) (float64 turnaround);
          lastCompletion := float64 completion;
          waitingTime := waitingTime';
          schedule := schedule';
          gantt := gantt st ++
            [{| PID := ProcessID p; Start := start; Stop := serviceTime' |}] |}.

Definition loop (processes : list Process) : run State :=
  for_range body 0 processes (init (length processes)).

Definition finish (processes : list Process) (st : State) : Returned :=
  let count := float64 (Z.of_nat (length processes)) in
  {| processes_after := processes;
     report :=
       {| out_gantt := gantt st;
          out_rows := schedule st;
          aveWait := PrimFloat.div (totalWait st) count;
          aveTurnaround := PrimFloat.div (totalTurnaround st) count;
          aveThroughput := PrimFloat.div count (lastCompletion st) |} |}.

Definition FCFSSchedule (processes : list Process) : run Returned :=
  st ← loop processes; Done (finish processes st).

End FCFS.

(** ** The three schedulers with a fixed row buffer *)

(** [sort.Ints]: the ascending rearrangement of a slice of integers. *)
Definition sort_Ints (l : list Z) : list Z := merge_sort Z.le l.

(** The locals that [SJFSchedule], [SJFPrioritySchedule] and [RRSchedule]
    declare alike; [schedule] is [make([][]string, 100)]. *)
Record Vars := {
  serviceTime : Z;
  totalWait : float;
  totalTurnaround : float;
  lastCompletion : float;
  waitingTime : Z;
  schedule : list (option Row);
  gantt : list TimeSlice;
  ct : nat
}.

Definition vars0 : Vars :=
  {| serviceTime := 0; totalWait := float64 0; totalTurnaround := float64 0;
     lastCompletion := float64 0; waitingTime := 0;
     schedule := replicate 100 None; gantt := []; ct := 0 |}.

Definition set_serviceTime (s : Z) (v : Vars) : Vars :=
  {| serviceTime := s; totalWait := totalWait v;
     totalTurnaround := totalTurnaround v; lastCompletion := lastCompletion v;
     waitingTime := waitingTime v; schedule := schedule v; gantt := gantt v;
     ct := ct v |}.

(** The statements common to every block of these schedulers that reports
    a span, for the row [row] the block builds, the start of the span and
    the value [service] the block leaves in [serviceTime]:
<<
      waitingTime = (the row's Wait column)
      totalWait += float64(waitingTime)
      lastCompletion = float64(completion)
      totalTurnaround += float64(turnaround)
      schedule[ct] = row
      gantt = append(gantt, TimeSlice{PID: pid, Start: start, Stop: serviceTime})
      ct += 1
>>
    In each block [Stop] is read after the block's update of
    [serviceTime]. *)
Definition emit (row : Row) (start service : Z) (v : Vars) : run Vars :=
  schedule' ← store (schedule v) (ct v) row;
  Done {| serviceTime := service;
          totalWait := PrimFloat.add (totalWait v) (float64 (rowWait row));
          totalTurnaround :=
            PrimFloat.add (totalTurnaround v) (float64 (rowTurnaround row));
          lastCompletion := float64 (rowExit row);
          waitingTime := rowWait row;
          schedule := schedule';
          gantt := gantt v ++
            [{| PID := rowID row; Start := start; Stop := service |}];
          ct := S (ct v) |}.

(** The aggregates and the hand-over at the end of the three functions. *)
Definition finish (processes : list Process) (v : Vars) : Returned :=
  let count := float64 (Z.of_nat (ct v)) in
  {| processes_after := processes;
     report :=
       {| out_gantt := gantt v;
          out_rows := schedule v;
          aveWait := PrimFloat.div (totalWait v) count;
          aveTurnaround := PrimFloat.div (totalTurnaround v) count;
          aveThroughput := PrimFloat.div count (lastCompletion v) |} |}.

(** *** What SJFSchedule and SJFPrioritySchedule have in common *)

(** The first loop of both functions fills three containers. *)
Definition aTimesMap_of (processes : list Process) : gmap Z Process :=
  foldl (λ m p, <[ArrivalTime p := p]> m) ∅ processes.

Definition processesLeft_of (processes : list Process) : gmap Z Process :=
  foldl (λ m p, <[ProcessID p := p]> m) ∅ processes.

Definition aTimeNums_of (processes : list Process) : list Z :=
  sort_Ints (ArrivalTime <$> processes).

Record PState := {
  vars : Vars;
  processesLeft : gmap Z Process;
  currProcess : Process;
  start : Z
}.

(** [if i != 0 { serviceTime += int64(aTimeNums[i] - aTimeNums[i-1]) }],
    where [a] is [aTimeNums[i]]. *)
Definition advance (aTimeNums : list Z) (i : nat) (a : Z) (st : PState)
    : run PState :=
  if decide (i ≠ 0%nat) then
    prev ← index aTimeNums (Z.of_nat i - 1);
    Done {| vars := set_serviceTime
                      (Int64.add (serviceTime (vars st)) (Int64.sub a prev))
                      (vars st);
            processesLeft := processesLeft st;
            currProcess := currProcess st;
            start := start st |}
  else Done st.

(** The block that reports the running process as preempted at [a]. *)
Definition preempt (aTimesMap : gmap Z Process) (a : Z) (st : PState)
    : run PState :=
  let curr := currProcess st in
  let completion := a in
  let turnaround := Int64.sub completion (ArrivalTime curr) in
  v ← emit {| rowID := ProcessID curr; rowPriority := Priority curr;
              rowBurst := Int64.sub completion (start st);
              rowArrival := ArrivalTime curr; rowWait := start st;
              rowTurnaround := turnaround; rowExit := completion |}
           (start st) (serviceTime (vars st)) (vars st);
  let curr' := with_burst curr (Int64.sub (BurstDuration curr) a) in
  Done {| vars := v;
          processesLeft := <[ProcessID curr' := curr']> (processesLeft st);
          currProcess := aTimesMap !!! a;
          start := a |}.

(** The block that reports the running process as completed. *)
Definition complete (aTimesMap : gmap Z Process) (a : Z) (st : PState)
    : run PState :=
  let curr := currProcess st in
  let completion := Int64.add (start st) (BurstDuration curr) in
  let turnaround := Int64.sub completion (ArrivalTime curr) in
  v ← emit {| rowID := ProcessID curr; rowPriority := Priority curr;
              rowBurst := Int64.sub completion (start st);
              rowArrival := ArrivalTime curr; rowWait := start st;
              rowTurnaround := turnaround; rowExit := completion |}
           (start st) completion (vars st);
  Done {| vars := v;
          processesLeft := delete (ProcessID curr) (processesLeft st);
          currProcess := aTimesMap !!! a;
          start := a |}.

(** [i == len(aTimeNums)-1] *)
Definition is_last (aTimeNums : list Z) (i : nat) : Prop :=
  Z.of_nat i = Z.of_nat (length aTimeNums) - 1.

#[global] Instance is_last_dec l i : Decision (is_last l i).
Proof. unfold is_last. apply _. Defined.

(** The second loop: the processes left over, keyed by [key]
    ([BurstDuration] or [Priority]), in the order [entries] in which the
    range over [processesLeft] yields them. *)
Definition group (key : Process → Z) (entries : list (Z * Process))
    : gmap Z (list Process) :=
  foldl (λ m kv,
           let v := kv.2 in
           match m !! key v with
           | Some val => <[key v := val ++ [v]]> m
           | None => <[key v := [v]]> m
           end) ∅ entries.

(** The block for a group of one process. *)
Definition drain_one (process : Process) (v : Vars) : run Vars :=
  let waitingTime' := serviceTime v in
  let start := waitingTime' in
  let completion := Int64.add (BurstDuration process) waitingTime' in
  let turnaround := Int64.sub completion (ArrivalTime process) in
  emit {| rowID := ProcessID process; rowPriority := Priority process;
          rowBurst := BurstDuration process;
          rowArrival := ArrivalTime process; rowWait := waitingTime';
          rowTurnaround := turnaround; rowExit := completion |}
       start (Int64.add (serviceTime v) (BurstDuration process)) v.

(** The block for one process of a larger group. *)
Definition drain_tied (process : Process) (v : Vars) : run Vars :=
  let waitingTime' :=
    if decide (ArrivalTime process > 0) then serviceTime v
    else waitingTime v in
  let start := waitingTime' in
  let completion := Int64.add (BurstDuration process) waitingTime' in
  let turnaround := Int64.sub completion (ArrivalTime process) in
  emit {| rowID := ProcessID process; rowPriority := Priority process;
          rowBurst := BurstDuration process;
          rowArrival := ArrivalTime process; rowWait := waitingTime';
          rowTurnaround := turnaround; rowExit := completion |}
       start (Int64.add (serviceTime v) (BurstDuration process)) v.

(** The body of the loop over the sorted keys, for the group [procs]. *)
Definition drain_group (procs : list Process) (v : Vars) : run Vars :=
  if decide (length procs = 1%nat) then
    process ← index procs 0;
    drain_one process v
  else
    let aTimesMap := aTimesMap_of procs in
    let aTimeNums := aTimeNums_of procs in
    for_range (λ _ a, drain_tied (aTimesMap !!! a)) 0 aTimeNums v.

Section Drain.

(** The order in which a range over a map yields its entries is not
    fixed by the language; the model takes it as [range_map]. *)
Variable range_map : ∀ V : Type, gmap Z V → list (Z * V).

Definition drain (key : Process → Z) (st : PState) : run Vars :=
  let groups := group key (range_map _ (processesLeft st)) in
  let keys := sort_Ints ((range_map _ groups).*1) in
  for_range (λ _ k, drain_group (groups !!! k)) 0 keys (vars st).

End Drain.

(** *** Shortest-job-first *)

Module SJF.

Definition body (aTimesMap : gmap Z Process) (aTimeNums : list Z)
    (i : nat) (a : Z) (st0 : PState) : run PState :=
  st ← advance aTimeNums i a st0;
  if decide (i = 0%nat) then Done st
  else if decide (Int64.sub (BurstDuration (currProcess st)) a
                  > BurstDuration (aTimesMap !!! a))
  then preempt aTimesMap a st
  else if decide (Int64.sub (BurstDuration (currProcess st)) a <= 0
                  ∨ is_last aTimeNums i)
  then complete aTimesMap a st
  else Done st.

Definition loop (processes : list Process) : run PState :=
  let aTimesMap := aTimesMap_of processes in
  let aTimeNums := aTimeNums_of processes in
  a0 ← index aTimeNums 0;
  for_range (body aTimesMap aTimeNums) 0 aTimeNums
    {| vars := vars0;
       processesLeft := processesLeft_of processes;
       currProcess := aTimesMap !!! a0;
       start := 0 |}.

Definition SJFSchedule (range_map : ∀ V : Type, gmap Z V → list (Z * V))
    (processes : list Process) : run Returned :=
  st ← loop processes;
  v ← drain range_map BurstDuration st;
  Done (finish processes v).

End SJF.

(** *** Priority *)

Module Prio.

Definition body (aTimesMap : gmap Z Process) (aTimeNums : list Z)
    (i : nat) (a : Z) (st0 : PState) : run PState :=
  st ← advance aTimeNums i a st0;
  if decide (i = 0%nat) then Done st
  else
    st' ← (if decide (Priority (aTimesMap !!! a) < Priority (currProcess st))
           then preempt aTimesMap a st
           else Done st);
    if decide (Int64.add (ArrivalTime (currProcess st'))
                         (BurstDuration (currProcess st')) <= a
               ∨ is_last aTimeNums i)
    then complete aTimesMap a st'
    else Done st'.

Definition loop (processes : list Process) : run PState :=
  let aTimesMap := aTimesMap_of processes in
  let aTimeNums := aTimeNums_of processes in
  a0 ← index aTimeNums 0;
  for_range (body aTimesMap aTimeNums) 0 aTimeNums
    {| vars := vars0;
       processesLeft := processesLeft_of processes;
       currProcess := aTimesMap !!! a0;
       start := 0 |}.

Definition SJFPrioritySchedule
    (range_map : ∀ V : Type, gmap Z V → list (Z * V))
    (processes : list Process) : run Returned :=
  st ← loop processes;
  v ← drain range_map Priority st;
  Done (finish processes v).

End Prio.

(** *** Round-robin *)

Module RR.

Record State := {
  rvars : Vars;
  remProcesses : gmap Z Process
}.

Definition timeQ : Z := 3.

(** The body of the inner loop, for the element [p] of [processes]. *)
Definition visit (p : Process) (st : State) : run State :=
  match remProcesses st !! ProcessID p with
  | None => Done st
  | Some process =>
      let waitingTime' := serviceTime (rvars st) in
      let start := waitingTime' in
      if decide (BurstDuration process < timeQ) then
        let completion := Int64.add waitingTime' (BurstDuration process) in
        let turnaround := Int64.sub completion (ArrivalTime process) in
        v ← emit {| rowID := ProcessID process;
                    rowPriority := Priority process;
                    rowBurst := BurstDuration process;
                    rowArrival := ArrivalTime process;
                    rowWait := waitingTime';
                    rowTurnaround := turnaround; rowExit := completion |}
                 start
                 (Int64.add (serviceTime (rvars st)) (BurstDuration process))
                 (rvars st);
        Done {| rvars := v;
                remProcesses :=
                  delete (ProcessID process) (remProcesses st) |}
      else
        let burst := timeQ in
        let completion := Int64.add waitingTime' burst in
        let turnaround := Int64.sub completion (ArrivalTime process) in
        v ← emit {| rowID := ProcessID process;
                    rowPriority := Priority process;
                    rowBurst := burst;
                    rowArrival := ArrivalTime process;
                    rowWait := waitingTime';
                    rowTurnaround := turnaround; rowExit := completion |}
                 start
                 (Int64.add (serviceTime (rvars st)) burst)
                 (rvars st);
        let process' :=
          with_burst process (Int64.sub (BurstDuration process) burst) in
        if decide (BurstDuration process' = 0) then
          Done {| rvars := v;
                  remProcesses :=
                    delete (ProcessID process') (remProcesses st) |}
        else
          Done {| rvars := v;
                  remProcesses :=
                    <[ProcessID process' := process']> (remProcesses st) |}
  end.

(** One pass of the inner loop. *)
Definition pass (processes : list Process) (st : State) : run State :=
  for_range (λ _ p, visit p) 0 processes st.

(** [for len(remProcesses) > 0 { pass }], at most [fuel] passes. *)
Fixpoint loop (fuel : nat) (processes : list Process) (st : State)
    : run State :=
  if decide (0 < size (remProcesses st))%nat then
    match fuel with
    | O => OutOfFuel
    | S fuel' => st' ← pass processes st; loop fuel' processes st'
    end
  else Done st.

(** The row buffer takes 100 rows and a pass that finds a process left
    stores at least one, so 101 passes are never exceeded
    (see [loop_fuel] and [RRSchedule_total] below). *)
Definition passes : nat := 101.

(** [sort_Slice] is [sort.Slice(processes, less)] with the [less] of the
    source, [processes[i].ArrivalTime < processes[j].ArrivalTime]; it
    rearranges the caller's slice. *)
Definition RRSchedule (sort_Slice : list Process → list Process)
    (processes : list Process) : run Returned :=
  let remProcesses0 := foldl (λ m p, <[ProcessID p := p]> m) ∅ processes in
  let processes' := sort_Slice processes in
  st ← loop passes processes' {| rvars := vars0; remProcesses := remProcesses0 |};
  Done (finish processes' (rvars st)).

End RR.

(** ** The library's part *)

(** What the language promises of a range over a map: every entry once. *)
Definition range_ok (range_map : ∀ V : Type, gmap Z V → list (Z * V)) : Prop :=
  ∀ V (m : gmap Z V), range_map V m ≡ₚ map_to_list m.

(** What [sort.Slice] promises for the [less] of [RRSchedule]: a
    rearrangement in which no element is less than an earlier one. *)
Definition by_arrival (p q : Process) : Prop := ArrivalTime p <= ArrivalTime q.

Definition sort_ok (sort_Slice : list Process → list Process) : Prop :=
  ∀ l, sort_Slice l ≡ₚ l ∧ StronglySorted by_arrival (sort_Slice l).

(** One iteration order and one sort, to run the model on inputs.  The
    inputs on which they are used below leave them no choice: no two of
    the processes left share a burst or a priority, and no two processes
    given to round-robin arrive together. *)
Definition range_fixed (V : Type) (m : gmap Z V) : list (Z * V) :=
  map_to_list m.

#[global] Instance by_arrival_dec p q : Decision (by_arrival p q).
Proof. unfold by_arrival. apply _. Defined.

Definition sort_stable (l : list Process) : list Process :=
  merge_sort by_arrival l.

(** ** Around the schedulers: loading and printing *)

(** The outcome of a call of the functions around the schedulers: it
    returns, it panics, it ends the program with [os.Exit(status)], or
    the bound on the steps of the model is reached. *)
Inductive result (A : Type) : Type :=
| Ok (a : A)
| Panicked
| Exited (status : Z)
| Unfinished.
Arguments Ok {A} a.
Arguments Panicked {A}.
Arguments Exited {A} status.
Arguments Unfinished {A}.

#[global] Instance result_ret : MRet result := @Ok.
#[global] Instance result_bind : MBind result := λ A B f m,
  match m with
  | Ok a => f a
  | Panicked => Panicked
  | Exited status => Exited status
  | Unfinished => Unfinished
  end.

(** The outcome of a scheduler, among these. *)
Definition of_run {A : Type} (r : run A) : result A :=
  match r with
  | Done a => Ok a
  | Panic => Panicked
  | OutOfFuel => Unfinished
  end.

(** A loop over a slice in any of the monads of the model. *)
Fixpoint range_loop {M : Type → Type} `{!MBind M, !MRet M} {A St : Type}
    (body : nat → A → St → M St) (i : nat) (l : list A) (s : St) : M St :=
  match l with
  | [] => mret s
  | x :: l' => s' ← body i x s; range_loop body (S i) l' s'
  end.

(** [len(s)], the number of bytes of a string. *)
Definition len (s : string) : Z := Z.of_nat (String.length s).

(** *** Loading *)

(** The value of a decimal digit. *)
Definition digit (c : ascii) : option Z := Z.of_nat <$> Ascii.is_nat c.

(** The number that the digits of [s] continue [acc] to; nothing when
    [s] holds another character. *)
Fixpoint digits (s : string) (acc : Z) : option Z :=
  match s with
  | EmptyString => Some acc
  | String c s' => d ← digit c; digits s' (10 * acc + d)
  end.

(** [strconv.ParseInt(s, 10, 64)]: an optional sign and at least one
    decimal digit, the value within 64 bits; [None] is the error, which
    is of syntax or of range. *)
Definition ParseInt (s : string) : option Z :=
  match s with
  | EmptyString => None
  | String c s' =>
      let '(neg, body) :=
        if decide (c = "+"%char) then (false, s')
        else if decide (c = "-"%char) then (true, s')
        else (false, s) in
      match body with
      | EmptyString => None
      | _ =>
          un ← digits body 0;
          if neg : bool
          then (if decide (un <= 2 ^ 63) then Some (- un) else None)
          else (if decide (un < 2 ^ 63) then Some un else None)
      end
  end.

(** The error is printed on the standard error and the program ends. *)
Definition mustStrToInt (s : string) : result Z :=
  match ParseInt s with
  | Some i => Ok i
  | None => Exited 1
  end.

(** The body of the loop of [loadProcesses], for the record [row] at
    index [i]. *)
Definition load_row (i : nat) (row : list string) (processes : list Process)
    : result (list Process) :=
  s0 ← of_run (index row 0); id ← mustStrToInt s0;
  s1 ← of_run (index row 1); burst ← mustStrToInt s1;
  s2 ← of_run (index row 2); arrival ← mustStrToInt s2;
  priority ←
    (if decide (length row = 4%nat)
     then s3 ← of_run (index row 3); mustStrToInt s3
     else Ok (Priority (processes !!! i)));
  Ok (<[i := {| ProcessID := id; ArrivalTime := arrival;
                BurstDuration := burst; Priority := priority |}]> processes).

(** [read] is what [csv.NewReader(r).ReadAll()] yields: the records of
    the file, or [None] for its error; so is the result. *)
Definition loadProcesses (read : option (list (list string)))
    : result (option (list Process)) :=
  match read with
  | None => Ok None
  | Some rows =>
      processes ← range_loop load_row 0 rows
                    (replicate (length rows) zeroProcess);
      Ok (Some processes)
  end.

(** *** Printing *)

(** A call that writes on the standard output: from the text written so
    far to the text written when the call ends, and its outcome.  The
    helpers ignore what a write returns. *)
Definition io (A : Type) : Type := string → string * result A.

#[global] Instance io_ret : MRet io := λ A a w, (w, Ok a).
#[global] Instance io_bind : MBind io := λ A B f m w,
  match m w with
  | (w', Ok a) => f a w'
  | (w', Panicked) => (w', Panicked)
  | (w', Exited status) => (w', Exited status)
  | (w', Unfinished) => (w', Unfinished)
  end.

(** A call that writes nothing. *)
Definition lift {A : Type} (r : result A) : io A := λ w, (w, r).

(** The characters that the source writes as [\n] and [\t]. *)
Definition newline : string := String "010" "".
Definition tab : string := String "009" "".

(** [fmt.Fprint(w, operands...)] for operands that are strings: no space
    is put between them. *)
Definition Fprint (operands : list string) : io unit :=
  λ w, (w +:+ String.concat "" operands, Ok tt).

(** [fmt.Fprintln(w, operands...)]: a space between operands, and a
    newline. *)
Definition Fprintln (operands : list string) : io unit :=
  λ w, (w +:+ String.concat " " operands +:+ newline, Ok tt).

(** [fmt.Sprint(n)] for an integer [n]: its decimal numeral, with a
    minus sign when it is negative. *)
Definition Sprint (n : Z) : string := pretty n.

(** [n] copies of [s]. *)
Fixpoint repeated (n : nat) (s : string) : string :=
  match n with
  | O => ""
  | S n' => s +:+ repeated n' s
  end.

(** [strings.Repeat(s, count)]: it panics on a negative count.  (It
    also panics when the length of the result overflows, which a count
    that is at most twice the length of a string in memory, of a string
    of one byte, does not reach.) *)
Definition strings_Repeat (s : string) (count : Z) : result string :=
  if decide (count < 0) then Panicked
  else Ok (repeated (Z.to_nat count) s).

(** [len(title)*2] is an [int] product; [len(title)/2] and the
    [(8-len(pid))/2] of [outputGantt] truncate towards zero. *)
Definition outputTitle (title : string) : io unit :=
  rule ← lift (strings_Repeat "-" (Int64.wrap (len title * 2)));
  Fprintln [rule];;
  indent ← lift (strings_Repeat " " (len title ÷ 2));
  Fprintln [indent; title];;
  rule' ← lift (strings_Repeat "-" (Int64.wrap (len title * 2)));
  Fprintln [rule'].

(** The body of the first loop of [outputGantt]. *)
Definition gantt_cell (s : TimeSlice) : io unit :=
  let pid := Sprint (PID s) in
  padding ← lift (strings_Repeat " " ((8 - len pid) ÷ 2));
  Fprint [padding; pid; padding; "|"].

(** The body of the second loop, at index [i] of [n] slices. *)
Definition gantt_time (n : nat) (i : nat) (s : TimeSlice) : io unit :=
  Fprint [Sprint (Start s); tab];;
  if decide (Z.of_nat n - 1 = Z.of_nat i) then Fprint [Sprint (Stop s)]
  else mret tt.

Definition outputGantt (gantt : list TimeSlice) : io unit :=
  Fprintln ["Gantt schedule"];;
  Fprint ["|"];;
  range_loop (λ _ s _, gantt_cell s) 0 gantt tt;;
  Fprintln [];;
  range_loop (λ i s _, gantt_time (length gantt) i s) 0 gantt tt;;
  Fprint [newline +:+ newline].

(** The seven strings of a row of the table. *)
Definition row_strings (r : Row) : list string :=
  Sprint <$> [rowID r; rowPriority r; rowBurst r; rowArrival r;
              rowWait r; rowTurnaround r; rowExit r].

(** The world of [main] beyond the language: the files, the order of a
    range over a map, what [sort.Slice] does to elements that compare
    equal, the tablewriter package, which lays out the table, and
    [fmt.Sprintf] with the verb [%.2f], which formats the averages.
    [os_Open] opens a file by name, [csv_ReadAll] reads the records of an
    open file, [Close_ok] tells whether closing it succeeds;
    [table_Render header rows footer] is the writer of a table. *)
Record World := {
  File : Type;
  os_Open : string → option File;
  csv_ReadAll : File → option (list (list string));
  Close_ok : File → bool;
  map_order : ∀ V : Type, gmap Z V → list (Z * V);
  slice_sort : list Process → list Process;
  table_Render :
    list string → list (option (list string)) → list string → io unit;
  Sprintf_2f : float → string
}.

Definition outputSchedule (W : World) (rows : list (option Row))
    (wait turnaround throughput : float) : io unit :=
  Fprintln ["Schedule table"];;
  table_Render W
    ["ID"; "Priority"; "Burst"; "Arrival"; "Wait"; "Turnaround"; "Exit"]
    (fmap (M := option) row_strings <$> rows)
    [""; ""; ""; "";
     "Average" +:+ newline +:+ Sprintf_2f W wait;
     "Average" +:+ newline +:+ Sprintf_2f W turnaround;
     "Throughput" +:+ newline +:+ Sprintf_2f W throughput +:+ "/t"].

(** The three calls that end every scheduler, on what its run handed
    over; the slice of the caller is returned as the run left it. *)
Definition hand_over (W : World) (title : string) (r : run Returned)
    : io (list Process) :=
  res ← lift (of_run r);
  outputTitle title;;
  outputGantt (out_gantt (report res));;
  outputSchedule W (out_rows (report res)) (aveWait (report res))
    (aveTurnaround (report res)) (aveThroughput (report res));;
  mret (processes_after res).

(** The four calls of [main], on the one slice. *)
Definition schedule_all (W : World) (processes : list Process) : io unit :=
  p1 ← hand_over W "First-come, first-serve" (FCFS.FCFSSchedule processes);
  p2 ← hand_over W "Shortest-job-first" (SJF.SJFSchedule (map_order W) p1);
  p3 ← hand_over W "Priority" (Prio.SJFPrioritySchedule (map_order W) p2);
  _ ← hand_over W "Round-robin" (RR.RRSchedule (slice_sort W) p3);
  mret tt.

(** The file, or [None] for either error. *)
Definition openProcessingFile (W : World) (args : list string)
    : option (File W) :=
  if decide (length args ≠ 2%nat) then None
  else os_Open W (args !!! 1%nat).

(** [log.Fatal] writes on the standard error and exits with status 1. *)
Definition log_Fatal {A : Type} : io A := lift (Exited 1).

(** The deferred [closeFile()]: it runs when [main] returns and when it
    panics, not when the program exits; [log.Fatalf] on its error. *)
Definition deferred_close {A : Type} (W : World) (f : File W) (body : io A)
    : io A :=
  λ w,
    match body w with
    | (w', Ok a) => if Close_ok W f then (w', Ok a) else (w', Exited 1)
    | (w', Panicked) => if Close_ok W f then (w', Panicked) else (w', Exited 1)
    | other => other
    end.

Definition main (W : World) (args : list string) : io unit :=
  match openProcessingFile W args with
  | None => log_Fatal
  | Some f =>
      deferred_close W f
        (loaded ← lift (loadProcesses (csv_ReadAll W f));
         match loaded with
         | None => log_Fatal
         | Some processes => schedule_all W processes
         end)
  end.

(** ** The vocabulary of the properties *)

(** *** Rows and processes *)

(** [q] is [p] up to the remaining burst, the one field a scheduler
    changes on its copies. *)
Definition same_process (p q : Process) : Prop :=
  ProcessID q = ProcessID p ∧ ArrivalTime q = ArrivalTime p ∧
  Priority q = Priority p.

Definition from_input (processes : list Process) (q : Process) : Prop :=
  ∃ p, p ∈ processes ∧ same_process p q.

(** The row [r] belongs to the process [p]. *)
Definition row_of (p : Process) (r : Row) : Prop :=
  rowID r = ProcessID p ∧ rowArrival r = ArrivalTime p ∧
  rowPriority r = Priority p.

(** A row of an input process whose turnaround is its exit minus the
    arrival of that process. *)
Definition span_row (processes : list Process) (r : Row) : Prop :=
  ∃ p, p ∈ processes ∧ row_of p r ∧
       rowTurnaround r = Int64.sub (rowExit r) (ArrivalTime p).

(** A row of round-robin: a span row that serves at most the quantum. *)
Definition quantum_row (processes : list Process) (r : Row) : Prop :=
  span_row processes r ∧ rowBurst r <= RR.timeQ.

(** The Burst column of the rows of process [k], in order. *)
Definition served (k : Z) (rows : list Row) : list Z :=
  rowBurst <$> filter (λ r, rowID r = k) rows.

(** The waiting time that the last of [rows] leaves in the accumulator,
    [wait] when there is none. *)
Definition wait_after (wait : Z) (rows : list Row) : Z :=
  default wait (rowWait <$> last rows).

(** [lastCompletion] after [rows], [d] when there is none. *)
Definition last_exit (d : float) (rows : list Row) : float :=
  default d ((λ r, float64 (rowExit r)) <$> last rows).

(** *** The row buffer and the locals *)

(** [filled v rows]: the buffer of [v] holds [rows] in its first [ct]
    places and nothing after them. *)
Definition filled (v : Vars) (rows : list Row) : Prop :=
  ct v = length rows ∧
  ∃ k, schedule v = (Some <$> rows) ++ replicate k None.

Definition has_rows (v : Vars) : Prop := ∃ rows, filled v rows.

(** Every stored row satisfies [Q]. *)
Definition rows_all (Q : Row → Prop) (v : Vars) : Prop :=
  ∀ r, Some r ∈ schedule v → Q r.

(** [ct] counts the stored rows and [lastCompletion] is the exit of the
    last one. *)
Definition counted (v : Vars) : Prop :=
  ∃ rows, filled v rows ∧ lastCompletion v = last_exit (float64 0) rows.

(** The buffer and the timeline begin with [rows] and [slices]. *)
Definition begins (rows : list Row) (slices : list TimeSlice) (v : Vars) : Prop :=
  ∃ rest slices', filled v (rows ++ rest) ∧ gantt v = slices ++ slices'.

(** The buffer holds a row of the process [k] and the timeline a segment
    of it. *)
Definition covers (v : Vars) (k : Z) : Prop :=
  ∃ rows, filled v rows ∧
    (∃ r, r ∈ rows ∧ rowID r = k) ∧ (∃ s, s ∈ gantt v ∧ PID s = k).

(** The buffer has its 100 places and [n] of them are still free. *)
Definition room (n : nat) (v : Vars) : Prop :=
  length (schedule v) = 100%nat ∧ (ct v + n ≤ 100)%nat.

(** [I] is kept by the two things the schedulers do to their locals:
    moving [serviceTime], and reporting a row that satisfies [Q]. *)
Record stable (Q : Row → Prop) (I : Vars → Prop) : Prop := {
  stable_service : ∀ s v, I v → I (set_serviceTime s v);
  stable_emit : ∀ row s svc v v',
    Q row → I v → emit row s svc v = Done v' → I v'
}.

(** *** First-come, first-serve in closed form *)

(** The row that the loop of [FCFSSchedule] stores for [p], entered with
    [serviceTime = service] and [waitingTime = wait]. *)
Definition fcfs_row (service wait : Z) (p : Process) : Row :=
  let w := if decide (ArrivalTime p > 0)
           then Int64.sub service (ArrivalTime p) else wait in
  {| rowID := ProcessID p; rowPriority := Priority p;
     rowBurst := BurstDuration p; rowArrival := ArrivalTime p;
     rowWait := w;
     rowTurnaround := Int64.add (BurstDuration p) w;
     rowExit := Int64.add (Int64.add (BurstDuration p) (ArrivalTime p)) w |}.

(** The rows it stores for the processes [l]. *)
Fixpoint fcfs_rows (service wait : Z) (l : list Process) : list Row :=
  match l with
  | [] => []
  | p :: l' =>
      fcfs_row service wait p
      :: fcfs_rows (Int64.add service (BurstDuration p))
           (rowWait (fcfs_row service wait p)) l'
  end.

(** The cumulative service time after the processes [l]. *)
Definition service_after (service : Z) (l : list Process) : Z :=
  foldl (λ s p, Int64.add s (BurstDuration p)) service l.

(** *** The two preemptive schedulers *)

(** Every entry of the map sits under its own id. *)
Definition keyed (m : gmap Z Process) : Prop :=
  map_Forall (λ k v, ProcessID v = k) m.

(** The invariant of the first loop, for a property [I] of the locals. *)
Definition pinv (processes : list Process) (I : Vars → Prop) (st : PState)
    : Prop :=
  I (vars st) ∧ from_input processes (currProcess st) ∧
  map_Forall (λ _ v, from_input processes v) (processesLeft st).

(** A further invariant of the first loop: a process of the input is
    reported or still among the processes left. *)
Definition cinv (processes : list Process) (st : PState) : Prop :=
  keyed (processesLeft st) ∧ has_rows (vars st) ∧
  ∀ k, k ∈ ProcessID <$> processes →
       covers (vars st) k ∨ is_Some (processesLeft st !! k).

(** The locals with which the first loop is entered, [a0] being
    [aTimeNums[0]]. *)
Definition entry_state (processes : list Process) (a0 : Z) : PState :=
  {| vars := vars0;
     processesLeft := processesLeft_of processes;
     currProcess := aTimesMap_of processes !!! a0;
     start := 0 |}.

(** The locals of [SJFPrioritySchedule] when its first loop reaches the
    index [i]. *)
Definition Prio_upto (processes : list Process) (i : nat) : run PState :=
  a0 ← index (aTimeNums_of processes) 0;
  for_range (Prio.body (aTimesMap_of processes) (aTimeNums_of processes))
            0 (take i (aTimeNums_of processes)) (entry_state processes a0).

(** The row of the process running in [st], reported as preempted at the
    arrival [a]. *)
Definition preempted_row (st : PState) (a : Z) : Row :=
  {| rowID := ProcessID (currProcess st);
     rowPriority := Priority (currProcess st);
     rowBurst := Int64.sub a (start st);
     rowArrival := ArrivalTime (currProcess st);
     rowWait := start st;
     rowTurnaround := Int64.sub a (ArrivalTime (currProcess st));
     rowExit := a |}.

(** [Some l] for a list with an element. *)
Definition nonempty {A} (l : list A) : option (list A) :=
  match l with [] => None | _ => Some l end.

(** *** Round-robin *)

(** The invariant of the loop, for a property [I] of the locals. *)
Definition rinv (processes : list Process) (I : Vars → Prop) (st : RR.State)
    : Prop :=
  I (RR.rvars st) ∧
  map_Forall (λ _ v, from_input processes v) (RR.remProcesses st).

(** The amounts a remaining burst [b] is served in, visit after visit:
    the whole of it when less than the quantum, else quanta of 3 and then
    what is left, if anything. *)
Definition chunks (b : Z) : list Z :=
  if decide (b < 3) then [b]
  else replicate (Z.to_nat (b / 3)) 3 ++
       (if decide (b mod 3 = 0) then [] else [b mod 3]).

(** The visits a remaining burst takes, and those still to be made for
    the processes of the map. *)
Definition visits (b : Z) : nat := length (chunks b).

Definition todo (m : gmap Z Process) : nat :=
  sum_list_with (λ kv, visits (BurstDuration kv.2)) (map_to_list m).

Definition bursts_in_range (m : gmap Z Process) : Prop :=
  map_Forall (λ _ q, Int64.in_range (BurstDuration q)) m.

(** The rows of the process [k] and what is still to come for it make up
    [target]. *)
Definition sinv (k : Z) (target : list Z) (st : RR.State) : Prop :=
  keyed (RR.remProcesses st) ∧
  ∃ rows, filled (RR.rvars st) rows ∧
    match RR.remProcesses st !! k with
    | Some q => Int64.in_range (BurstDuration q) ∧
                served k rows ++ chunks (BurstDuration q) = target
    | None => served k rows = target
    end.

(** *** Inputs and outputs of the examples *)

(** A process as a record of three fields is loaded: priority 0. *)
Definition mkProcess (id burst arrival : Z) : Process :=
  {| ProcessID := id; ArrivalTime := arrival; BurstDuration := burst;
     Priority := 0 |}.

Definition mkProcessP (id burst arrival priority : Z) : Process :=
  {| ProcessID := id; ArrivalTime := arrival; BurstDuration := burst;
     Priority := priority |}.

Definition R (id prio burst arr wait turn exit : Z) : Row :=
  {| rowID := id; rowPriority := prio; rowBurst := burst; rowArrival := arr;
     rowWait := wait; rowTurnaround := turn; rowExit := exit |}.

(** The stored rows of a call that returned. *)
Definition rows_of (r : run Returned) : option (list Row) :=
  match r with
  | Done x => Some (stored (out_rows (report x)))
  | _ => None
  end.

Definition two_processes : list Process := [mkProcess 1 5 0; mkProcess 2 3 1].

(** Process 2 is running when process 3, with the shorter burst,
    arrives. *)
Definition three_processes : list Process :=
  [mkProcess 1 2 0; mkProcess 2 20 2; mkProcess 3 3 4].

(** As before, with 8 units of process 2 left at the arrival of process
    3, whose burst is 7. *)
Definition missed_preemption : list Process :=
  [mkProcess 1 2 0; mkProcess 2 10 2; mkProcess 3 7 4].

(** The first process of the slice arrives after the second. *)
Definition late_first : list Process := [mkProcess 1 5 5; mkProcess 2 3 0].

(** The second process arrives later with the smaller priority value. *)
Definition urgent_second : list Process :=
  [mkProcessP 1 10 0 5; mkProcessP 2 4 3 1].

Definition seven_and_two : list Process := [mkProcess 1 7 0; mkProcess 2 2 1].

(** Two processes under one id. *)
Definition shared_id : list Process := [mkProcess 1 7 0; mkProcess 1 4 1].

(** Two processes under one id again, the second arriving after the
    first is over. *)
Definition same_id_later : list Process := [mkProcess 1 5 0; mkProcess 1 9 10].

(** Processes 2 and 3 arrive together while process 1 runs; process 2
    has the smallest priority value of the three. *)
Definition shadowed : list Process :=
  [mkProcessP 1 100 0 5; mkProcessP 2 5 3 1; mkProcessP 3 5 3 9].

(** [n] processes, one arriving at each instant from 0 on, each with
    burst 1. *)
Definition one_per_instant (n : nat) : list Process :=
  (λ i, mkProcess (Z.of_nat i) 1 (Z.of_nat i)) <$> seq 0 n.

(** Three processes that arrive together, with equal bursts and equal
    priorities. *)
Definition tied_arrivals : list Process :=
  [mkProcess 1 5 0; mkProcess 2 5 0; mkProcess 3 5 0].

(** *** The timeline, the averages and the buffer as a whole *)

(** The segment that the loop of [FCFSSchedule] appends for [p], entered
    with [serviceTime = service] and [waitingTime = wait]. *)
Definition fcfs_slice (service wait : Z) (p : Process) : TimeSlice :=
  {| PID := ProcessID p;
     Start := Int64.add (rowWait (fcfs_row service wait p)) (ArrivalTime p);
     Stop := Int64.add service (BurstDuration p) |}.

(** The segments it appends for the processes [l]. *)
Fixpoint fcfs_slices (service wait : Z) (l : list Process) : list TimeSlice :=
  match l with
  | [] => []
  | p :: l' =>
      fcfs_slice service wait p
      :: fcfs_slices (Int64.add service (BurstDuration p))
           (rowWait (fcfs_row service wait p)) l'
  end.

(** The float64 sum of the column [f] of [rows], added up row after row
    onto [from]. *)
Definition column_sum_from (f : Row → Z) (from : float) (rows : list Row)
    : float :=
  foldl (λ acc r, PrimFloat.add acc (float64 (f r))) from rows.

(** The sum from 0.0, as the schedulers start it. *)
Definition column_sum (f : Row → Z) (rows : list Row) : float :=
  column_sum_from f (float64 0) rows.

(** The two running sums are those of the stored rows. *)
Definition summed (v : Vars) : Prop :=
  ∃ rows, filled v rows ∧ totalWait v = column_sum rowWait rows ∧
          totalTurnaround v = column_sum rowTurnaround rows.

(** The timeline has a segment for each stored row, under its id. *)
Definition aligned (v : Vars) : Prop :=
  ∃ rows, filled v rows ∧ PID <$> gantt v = rowID <$> rows.

(** The row ends its burst after its wait: the Wait column is the start
    of the span. *)
Definition spanning (r : Row) : Prop :=
  rowExit r = Int64.add (rowWait r) (rowBurst r).

(** Every stored row is spanning, and its segment starts at its wait. *)
Definition starts (v : Vars) : Prop :=
  ∃ rows, filled v rows ∧ Forall spanning rows ∧
          Start <$> gantt v = rowWait <$> rows.

(** The buffer keeps its 100 places. *)
Definition hundred (v : Vars) : Prop := length (schedule v) = 100%nat.

(** Every segment of the timeline is of a process of the input. *)
Definition known_ids (processes : list Process) (v : Vars) : Prop :=
  Forall (λ s, PID s ∈ ProcessID <$> processes) (gantt v).

(** *** Round-robin as a timeline *)

(** The segment that a row spans: from its wait to its exit. *)
Definition span_of (r : Row) : TimeSlice :=
  {| PID := rowID r; Start := rowWait r; Stop := rowExit r |}.

(** The exit of the last of [rows], [t] when there is none. *)
Definition end_of (t : Z) (rows : list Row) : Z :=
  default t (rowExit <$> last rows).

(** From [t] on, each row begins where the one before it ended and ends
    its burst later. *)
Fixpoint chained (t : Z) (rows : list Row) : Prop :=
  match rows with
  | [] => True
  | r :: rows' =>
      rowWait r = t ∧ rowExit r = Int64.add t (rowBurst r) ∧
      chained (rowExit r) rows'
  end.

(** The stored rows are chained from 0, [serviceTime] is the exit of the
    last one, and the timeline has their spans. *)
Definition tiled (v : Vars) : Prop :=
  ∃ rows, filled v rows ∧ chained 0 rows ∧ serviceTime v = end_of 0 rows ∧
          gantt v = span_of <$> rows.

(** The sum of a list of integers. *)
Definition Zsum (l : list Z) : Z := foldr Z.add 0 l.

(** The bursts still to be served. *)
Definition backlog (m : gmap Z Process) : Z :=
  Zsum ((λ kv, BurstDuration kv.2) <$> map_to_list m).

(** Time served and bursts to serve make up [work], modulo 2^64. *)
Definition conserved (work : Z) (st : RR.State) : Prop :=
  keyed (RR.remProcesses st) ∧ Int64.in_range (serviceTime (RR.rvars st)) ∧
  Int64.wrap (serviceTime (RR.rvars st) + backlog (RR.remProcesses st))
  = Int64.wrap work.

(** [RRSchedule] with [fuel] passes allowed to its outer loop. *)
Definition RRSchedule_within (fuel : nat)
    (sort_Slice : list Process → list Process) (processes : list Process)
    : run Returned :=
  let remProcesses0 := foldl (λ m p, <[ProcessID p := p]> m) ∅ processes in
  let processes' := sort_Slice processes in
  st ← RR.loop fuel processes'
         {| RR.rvars := vars0; RR.remProcesses := remProcesses0 |};
  Done (finish processes' (RR.rvars st)).

(** *** The second loop *)

(** The row [r] reports the process [q] with the whole of the burst it
    has left. *)
Definition drained (q : Process) (r : Row) : Prop :=
  rowID r = ProcessID q ∧ rowPriority r = Priority q ∧
  rowBurst r = BurstDuration q ∧ rowArrival r = ArrivalTime q.

(** *** The printed timeline and title *)

(** An id whose numeral takes at most nine characters. *)
Definition fits_cell (pid : Z) : Prop := - 10 ^ 8 < pid < 10 ^ 9.

#[global] Instance fits_cell_dec pid : Decision (fits_cell pid).
Proof. unfold fits_cell. apply _. Defined.

(** The cell of the first line of the chart for [pid]. *)
Definition cell (pid : Z) : string :=
  let padding := repeated (Z.to_nat ((8 - len (Sprint pid)) ÷ 2)) " " in
  String.concat "" [padding; Sprint pid; padding; "|"].

(** The second line of the chart: every start, and the last stop. *)
Fixpoint times (gantt : list TimeSlice) : string :=
  match gantt with
  | [] => ""
  | [s] => Sprint (Start s) +:+ tab +:+ Sprint (Stop s)
  | s :: gantt' => Sprint (Start s) +:+ tab +:+ times gantt'
  end.

(** The number of decimal digits of [x], none for 0. *)
Definition ndigits (x : N) : nat := String.length (pretty_N_go x "").

(** The cells of the first line of the chart. *)
Fixpoint cells (gantt : list TimeSlice) : string :=
  match gantt with
  | [] => ""
  | s :: gantt' => cell (PID s) +:+ cells gantt'
  end.

(** Two timelines that differ in the stop of their first segment. *)
Definition stop_at_5 : list TimeSlice :=
  [{| PID := 1; Start := 0; Stop := 5 |}; {| PID := 2; Start := 5; Stop := 8 |}].

Definition stop_at_3 : list TimeSlice :=
  [{| PID := 1; Start := 0; Stop := 3 |}; {| PID := 2; Start := 5; Stop := 8 |}].

(** The text of a chart whose ids fit. *)
Definition chart (gantt : list TimeSlice) : string :=
  "Gantt schedule" +:+ newline +:+ "|" +:+ cells gantt +:+ newline +:+
  times gantt +:+ newline +:+ newline.

(** The three lines of a title. *)
Definition banner (title : string) : string :=
  let rule := repeated (Z.to_nat (len title * 2)) "-" in
  rule +:+ newline +:+
  repeated (Z.to_nat (len title ÷ 2)) " " +:+ " " +:+ title +:+ newline +:+
  rule +:+ newline.

(** *** The records of a file *)

(** The record of a process in the file: id, burst, arrival, priority. *)
Definition csv_record (p : Process) : list string :=
  Sprint <$> [ProcessID p; BurstDuration p; ArrivalTime p; Priority p].

(** The record without the optional fourth field. *)
Definition csv_record3 (p : Process) : list string :=
  Sprint <$> [ProcessID p; BurstDuration p; ArrivalTime p].

(** The four fields of [p] are int64 values. *)
Definition int64_fields (p : Process) : Prop :=
  Int64.in_range (ProcessID p) ∧ Int64.in_range (BurstDuration p) ∧
  Int64.in_range (ArrivalTime p) ∧ Int64.in_range (Priority p).

(** [p] under the priority [priority]. *)
Definition with_priority (p : Process) (priority : Z) : Process :=
  {| ProcessID := ProcessID p; ArrivalTime := ArrivalTime p;
     BurstDuration := BurstDuration p; Priority := priority |}.

(** What [loadProcesses] reads of a record. *)
Definition clip (row : list string) : list string :=
  if decide (4 < length row)%nat then take 3 row else row.

(** *** A world and inputs for the examples *)

(** A world for running the model: a file under every name, with the
    records [rows]; a table writer and a float format that write
    nothing. *)
Definition plain_world (rows : list (list string)) : World :=
  {| File := unit;
     os_Open := λ _, Some tt;
     csv_ReadAll := λ _, Some rows;
     Close_ok := λ _, true;
     map_order := range_fixed;
     slice_sort := sort_stable;
     table_Render := λ _ _ _, mret tt;
     Sprintf_2f := λ _, "" |}.

(** The records of [two_processes]. *)
Definition two_records : list (list string) :=
  [["1"; "5"; "0"]; ["2"; "3"; "1"]].

(** The id of the second process takes ten characters. *)
Definition wide_id : list Process :=
  [mkProcess 1 5 0; mkProcess 1000000000 3 1].

(** ** Properties *)

(** *** Wrap-around arithmetic *)

Module Int64Facts.
Import Int64.

Lemma wrap_mod z : wrap z mod 2 ^ 64 = z mod 2 ^ 64.
Proof.
  unfold wrap.
  rewrite Zminus_mod, Z.mod_mod, <- Zminus_mod by lia.
  f_equal. lia.
Qed.

Lemma wrap_congr x y : x mod 2 ^ 64 = y mod 2 ^ 64 → wrap x = wrap y.
Proof.
  intros H. unfold wrap.
  rewrite (Zplus_mod x), (Zplus_mod y), H. reflexivity.
Qed.

Lemma wrap_in_range z : in_range (wrap z).
Proof.
  unfold in_range, wrap.
  pose proof (Z.mod_pos_bound (z + 2 ^ 63) (2 ^ 64)). lia.
Qed.

Lemma wrap_id z : in_range z → wrap z = z.
Proof.
  unfold in_range, wrap. intros H.
  rewrite Z.mod_small by lia. lia.
Qed.

Lemma wrap_add_l a b : wrap (wrap a + b) = wrap (a + b).
Proof.
  apply wrap_congr.
  rewrite Zplus_mod, wrap_mod, <- Zplus_mod. reflexivity.
Qed.

Lemma wrap_sub_l a b : wrap (wrap a - b) = wrap (a - b).
Proof.
  apply wrap_congr.
  rewrite Zminus_mod, wrap_mod, <- Zminus_mod. reflexivity.
Qed.

(** [(b + a + w) - a] is [b + w], also when the sums wrap. *)
Lemma sub_add_add b a w : sub (add (add b a) w) a = add b w.
Proof.
  unfold sub, add.
  rewrite wrap_sub_l.
  apply wrap_congr.
  rewrite Zminus_mod, Zplus_mod, wrap_mod, <- Zplus_mod, <- Zminus_mod.
  f_equal. lia.
Qed.

Lemma add_small a b : in_range (a + b) → add a b = a + b.
Proof. apply wrap_id. Qed.

Lemma sub_small a b : in_range (a - b) → sub a b = a - b.
Proof. apply wrap_id. Qed.

End Int64Facts.

(** *** Runs and loops *)

Lemma bind_Done {A B} (m : run A) (f : A → run B) (b : B) :
  m ≫= f = Done b → ∃ a, m = Done a ∧ f a = Done b.
Proof. destruct m; simpl; intros H; try discriminate. eauto. Qed.

Lemma bind_not_fuel {A B} (m : run A) (f : A → run B) :
  m ≠ OutOfFuel → (∀ a, f a ≠ OutOfFuel) → m ≫= f ≠ OutOfFuel.
Proof. destruct m; simpl; auto. Qed.

(** An invariant of the body is an invariant of the loop. *)
Lemma for_range_inv {A St} (P : St → Prop) (body : nat → A → St → run St) l :
  (∀ i x s s', x ∈ l → P s → body i x s = Done s' → P s') →
  ∀ i s s', P s → for_range body i l s = Done s' → P s'.
Proof.
  induction l as [|x l IH]; intros Hbody i s s' Hs Hrun; simpl in Hrun.
  - congruence.
  - apply bind_Done in Hrun as (s1 & H1 & H2).
    eapply IH; [ | | exact H2].
    + intros j y t t' Hy. apply Hbody. by right.
    + eapply Hbody; [by left | exact Hs | exact H1].
Qed.

Lemma for_range_app {A St} (body : nat → A → St → run St) l1 l2 i s :
  for_range body i (l1 ++ l2) s =
  for_range body i l1 s ≫= for_range body (i + length l1) l2.
Proof.
  revert i s. induction l1 as [|x l1 IH]; intros i s; simpl.
  - by rewrite Nat.add_0_r.
  - destruct (body i x s) as [s1| |]; simpl; try done.
    rewrite IH. by replace (S i + length l1)%nat with (i + S (length l1))%nat by lia.
Qed.

Lemma for_range_not_fuel {A St} (body : nat → A → St → run St) l :
  (∀ i x s, body i x s ≠ OutOfFuel) →
  ∀ i s, for_range body i l s ≠ OutOfFuel.
Proof.
  intros Hbody. induction l as [|x l IH]; intros i s; simpl; [done|].
  apply bind_not_fuel; auto.
Qed.

Lemma index_Done {A} (l : list A) i x :
  index l i = Done x → 0 <= i ∧ l !! Z.to_nat i = Some x.
Proof.
  unfold index. case_decide; [|done].
  destruct (l !! Z.to_nat i) eqn:E; [|done]. intros [= ->]. done.
Qed.

(** *** The row buffer *)

Lemma stored_app l1 l2 : stored (l1 ++ l2) = stored l1 ++ stored l2.
Proof. unfold stored. apply omap_app. Qed.

Lemma stored_Some rows : stored (Some <$> rows) = rows.
Proof. unfold stored. induction rows; simpl; [done|]. by f_equal. Qed.

Lemma stored_None k : stored (replicate k None) = [].
Proof. unfold stored. induction k; simpl; done. Qed.

Lemma filled_stored v rows : filled v rows → stored (schedule v) = rows.
Proof.
  intros [_ [k ->]].
  by rewrite stored_app, stored_Some, stored_None, app_nil_r.
Qed.

Lemma filled_vars0 : filled vars0 [].
Proof. split; [done|]. by exists 100%nat. Qed.

Lemma filled_set_serviceTime s v rows :
  filled v rows → filled (set_serviceTime s v) rows.
Proof. done. Qed.

Lemma elem_of_stored r l : r ∈ stored l ↔ Some r ∈ l.
Proof.
  unfold stored. rewrite list_elem_of_omap. split.
  - intros (x & Hx & Hid). simpl in Hid. by subst.
  - intros H. by exists (Some r).
Qed.

Lemma store_ok sched i row :
  (i < length sched)%nat → store sched i row = Done (<[i := Some row]> sched).
Proof. intros H. unfold store. by rewrite decide_True. Qed.

(** What a successful [emit] leaves behind. *)
Lemma emit_Done row s svc v v' :
  emit row s svc v = Done v' →
  (ct v < length (schedule v))%nat ∧
  serviceTime v' = svc ∧
  totalWait v' = PrimFloat.add (totalWait v) (float64 (rowWait row)) ∧
  totalTurnaround v' =
    PrimFloat.add (totalTurnaround v) (float64 (rowTurnaround row)) ∧
  lastCompletion v' = float64 (rowExit row) ∧
  waitingTime v' = rowWait row ∧
  schedule v' = <[ct v := Some row]> (schedule v) ∧
  gantt v' = gantt v ++ [{| PID := rowID row; Start := s; Stop := svc |}] ∧
  ct v' = S (ct v).
Proof.
  unfold emit, store. case_decide; simpl; [|done].
  intros [= <-]. simpl. done.
Qed.

Lemma emit_filled row s svc v v' rows :
  filled v rows → emit row s svc v = Done v' → filled v' (rows ++ [row]).
Proof.
  intros [Hct [k Hk]] He.
  apply emit_Done in He as (Hlt & _ & _ & _ & _ & _ & Hs & _ & Hc).
  split.
  - rewrite Hc, Hct, length_app. simpl. lia.
  - rewrite Hk, length_app, length_fmap, length_replicate in Hlt.
    destruct k as [|k]; [lia|].
    exists k. rewrite Hs, Hk, Hct.
    rewrite fmap_app, <- app_assoc. simpl.
    rewrite insert_app_r_alt by (rewrite length_fmap; lia).
    rewrite length_fmap, Nat.sub_diag. done.
Qed.

Lemma emit_not_fuel row s svc v : emit row s svc v ≠ OutOfFuel.
Proof. unfold emit, store. case_decide; simpl; done. Qed.

(** *** Rows and the processes they report *)

Lemma from_input_self processes p : p ∈ processes → from_input processes p.
Proof. intros H. exists p. done. Qed.

Lemma from_input_with_burst processes p b :
  from_input processes p → from_input processes (with_burst p b).
Proof. intros (q & Hq & H1 & H2 & H3). exists q. done. Qed.

(** The row a block builds for a process of the input. *)
Lemma span_row_intro processes q burst wait turnaround exit :
  from_input processes q →
  turnaround = Int64.sub exit (ArrivalTime q) →
  span_row processes
    {| rowID := ProcessID q; rowPriority := Priority q; rowBurst := burst;
       rowArrival := ArrivalTime q; rowWait := wait;
       rowTurnaround := turnaround; rowExit := exit |}.
Proof.
  intros (p & Hp & H1 & H2 & H3) ->. exists p. unfold row_of. simpl.
  rewrite H2. done.
Qed.

(** *** Maps filled from a slice *)

Section KeyedBy.
Context (f : Process → Z).

Let fill (m : gmap Z Process) (l : list Process) : gmap Z Process :=
  foldl (λ m p, <[f p := p]> m) m l.

Lemma fill_lookup l m k v :
  fill m l !! k = Some v → (v ∈ l ∧ f v = k) ∨ m !! k = Some v.
Proof.
  revert m. induction l as [|p l IH]; intros m; simpl; [by right|].
  intros H. apply IH in H as [[H1 H2]|H].
  - left. split; [by right|done].
  - destruct (decide (f p = k)) as [<-|Hne].
    + rewrite lookup_insert_eq in H. injection H as <-. left. split; [by left|done].
    + rewrite lookup_insert_ne in H by done. by right.
Qed.

Lemma fill_is_Some l m k :
  k ∈ f <$> l ∨ is_Some (m !! k) → is_Some (fill m l !! k).
Proof.
  revert m. induction l as [|p l IH]; intros m; simpl.
  - intros [H|H]; [by apply elem_of_nil in H|done].
  - intros H. apply IH.
    destruct (decide (f p = k)) as [<-|Hne].
    + right. rewrite lookup_insert_eq. done.
    + destruct H as [H|H].
      * apply elem_of_cons in H as [H|H]; [congruence|by left].
      * right. by rewrite lookup_insert_ne.
Qed.

Lemma fill_NoDup l m p :
  NoDup (f <$> l) → p ∈ l → fill m l !! f p = Some p.
Proof.
  revert m. induction l as [|q l IH]; intros m Hnd Hp; simpl.
  - by apply elem_of_nil in Hp.
  - rewrite fmap_cons in Hnd. apply NoDup_cons in Hnd as [Hq Hnd].
    apply elem_of_cons in Hp as [->|Hp]; [|by apply IH].
    destruct (fill (<[f q:=q]> m) l !! f q) as [v|] eqn:E.
    + apply fill_lookup in E as [[Hv Hf]|E].
      * exfalso. apply Hq. rewrite <- Hf. by apply list_elem_of_fmap_2.
      * rewrite lookup_insert_eq in E. done.
    + assert (is_Some (fill (<[f q:=q]> m) l !! f q)) as [? ?]; [|congruence].
      apply fill_is_Some. right. rewrite lookup_insert_eq. done.
Qed.

Lemma fill_lookup_ne l m k :
  Forall (λ q, f q ≠ k) l → fill m l !! k = m !! k.
Proof.
  revert m. induction l as [|q l IH]; intros m Hl; simpl; [done|].
  apply Forall_cons in Hl as [Hq Hl].
  rewrite IH by done. by rewrite lookup_insert_ne.
Qed.

(** The map holds, under a key, the last element of the slice with that
    key. *)
Lemma fill_last l1 p l2 m :
  Forall (λ q, f q ≠ f p) l2 → fill m (l1 ++ p :: l2) !! f p = Some p.
Proof.
  intros Hl2. unfold fill. rewrite foldl_app. simpl.
  rewrite (fill_lookup_ne l2) by done. by rewrite lookup_insert_eq.
Qed.

End KeyedBy.

Lemma elem_of_sort_Ints x l : x ∈ sort_Ints l ↔ x ∈ l.
Proof. unfold sort_Ints. by rewrite merge_sort_Permutation. Qed.

Lemma aTimesMap_of_elem processes a :
  a ∈ aTimeNums_of processes →
  ∃ p, aTimesMap_of processes !! a = Some p ∧ p ∈ processes ∧ ArrivalTime p = a.
Proof.
  unfold aTimeNums_of, aTimesMap_of. rewrite elem_of_sort_Ints. intros Ha.
  destruct (fill_is_Some ArrivalTime processes ∅ a) as [p Hp]; [by left|].
  exists p. split; [done|].
  apply fill_lookup in Hp as [H|H]; [done|by rewrite lookup_empty in H].
Qed.

Lemma aTimesMap_of_total processes a :
  a ∈ aTimeNums_of processes →
  aTimesMap_of processes !!! a ∈ processes ∧
  ArrivalTime (aTimesMap_of processes !!! a) = a.
Proof.
  intros (p & Hp & Hin & Harr)%aTimesMap_of_elem.
  by rewrite (lookup_total_correct _ _ _ Hp).
Qed.

Lemma index_elem {A} (l : list A) i x : index l i = Done x → x ∈ l.
Proof. intros [_ H]%index_Done. by eapply list_elem_of_lookup_2. Qed.

(** *** An induction principle for the two preemptive schedulers *)

Section Preemptive.
Context (processes : list Process) (I : Vars → Prop).
Hypothesis I_stable : stable (span_row processes) I.

Lemma advance_pinv aTimeNums i a st st' :
  pinv processes I st → advance aTimeNums i a st = Done st' →
  pinv processes I st' ∧ currProcess st' = currProcess st ∧ start st' = start st ∧
  processesLeft st' = processesLeft st.
Proof.
  intros (HI & Hc & Hl). unfold advance. case_decide.
  - intros (prev & _ & [= <-])%bind_Done. simpl.
    repeat split; try done. by apply I_stable.
  - intros [= <-]. done.
Qed.

Lemma preempt_pinv aTimesMap a st st' :
  from_input processes (aTimesMap !!! a) →
  pinv processes I st → preempt aTimesMap a st = Done st' → pinv processes I st'.
Proof.
  intros Ha (HI & Hc & Hl). unfold preempt.
  intros (v & Hv & [= <-])%bind_Done. simpl.
  split; [|split; [done|]].
  - eapply (stable_emit _ _ I_stable); [|exact HI|exact Hv].
    by apply span_row_intro.
  - apply map_Forall_insert_2; [|done].
    by apply from_input_with_burst.
Qed.

Lemma complete_pinv aTimesMap a st st' :
  from_input processes (aTimesMap !!! a) →
  pinv processes I st → complete aTimesMap a st = Done st' → pinv processes I st'.
Proof.
  intros Ha (HI & Hc & Hl). unfold complete.
  intros (v & Hv & [= <-])%bind_Done. simpl.
  split; [|split; [done|]].
  - eapply (stable_emit _ _ I_stable); [|exact HI|exact Hv].
    by apply span_row_intro.
  - by apply map_Forall_delete.
Qed.

Lemma SJF_body_pinv aTimesMap aTimeNums i a st st' :
  from_input processes (aTimesMap !!! a) →
  pinv processes I st → SJF.body aTimesMap aTimeNums i a st = Done st' → pinv processes I st'.
Proof.
  intros Ha Hst. unfold SJF.body.
  intros (st1 & H1 & H2)%bind_Done.
  apply (advance_pinv _ _ _ _ _ Hst) in H1 as (Hst1 & _).
  repeat case_decide.
  - by injection H2 as <-.
  - by eapply preempt_pinv.
  - by eapply complete_pinv.
  - by injection H2 as <-.
Qed.

Lemma Prio_body_pinv aTimesMap aTimeNums i a st st' :
  from_input processes (aTimesMap !!! a) →
  pinv processes I st → Prio.body aTimesMap aTimeNums i a st = Done st' → pinv processes I st'.
Proof.
  intros Ha Hst. unfold Prio.body.
  intros (st1 & H1 & H2)%bind_Done.
  apply (advance_pinv _ _ _ _ _ Hst) in H1 as (Hst1 & _).
  case_decide; [by injection H2 as <-|].
  apply bind_Done in H2 as (st2 & H2 & H3).
  assert (pinv processes I st2) as Hst2.
  { destruct (decide (Priority (aTimesMap !!! a) < Priority (currProcess st1)));
      [by eapply preempt_pinv|by injection H2 as <-]. }
  clear H2. case_decide; [by eapply complete_pinv|by injection H3 as <-].
Qed.

Lemma aTimesMap_from_input a :
  a ∈ aTimeNums_of processes →
  from_input processes (aTimesMap_of processes !!! a).
Proof.
  intros [H _]%aTimesMap_of_total. by apply from_input_self.
Qed.

Lemma processesLeft_of_from_input :
  map_Forall (λ _ v, from_input processes v) (processesLeft_of processes).
Proof.
  intros k v Hv. unfold processesLeft_of in Hv.
  apply fill_lookup in Hv as [[H _]|H]; [|by rewrite lookup_empty in H].
  by apply from_input_self.
Qed.

Lemma SJF_loop_pinv st :
  I vars0 → SJF.loop processes = Done st → pinv processes I st.
Proof.
  intros HI. unfold SJF.loop.
  intros (a0 & Ha0 & Hrun)%bind_Done.
  eapply (for_range_inv (pinv processes I)); [| |exact Hrun].
  - intros i x s s' Hx. by apply SJF_body_pinv, aTimesMap_from_input.
  - split; [done|]. simpl. split.
    + eapply aTimesMap_from_input, index_elem, Ha0.
    + apply processesLeft_of_from_input.
Qed.

Lemma Prio_loop_pinv st :
  I vars0 → Prio.loop processes = Done st → pinv processes I st.
Proof.
  intros HI. unfold Prio.loop.
  intros (a0 & Ha0 & Hrun)%bind_Done.
  eapply (for_range_inv (pinv processes I)); [| |exact Hrun].
  - intros i x s s' Hx. by apply Prio_body_pinv, aTimesMap_from_input.
  - split; [done|]. simpl. split.
    + eapply aTimesMap_from_input, index_elem, Ha0.
    + apply processesLeft_of_from_input.
Qed.

(** The second loop. *)
Lemma drain_one_I p v v' :
  from_input processes p → I v → drain_one p v = Done v' → I v'.
Proof.
  intros Hp HI. unfold drain_one. intros Hv.
  eapply (stable_emit _ _ I_stable); [|exact HI|exact Hv].
  by apply span_row_intro.
Qed.

Lemma drain_tied_I p v v' :
  from_input processes p → I v → drain_tied p v = Done v' → I v'.
Proof.
  intros Hp HI. unfold drain_tied. intros Hv.
  eapply (stable_emit _ _ I_stable); [|exact HI|exact Hv].
  by apply span_row_intro.
Qed.

Lemma drain_group_I procs v v' :
  Forall (from_input processes) procs →
  I v → drain_group procs v = Done v' → I v'.
Proof.
  intros Hprocs HI. unfold drain_group. case_decide.
  - intros (p & Hp & Hv)%bind_Done.
    eapply drain_one_I; [|exact HI|exact Hv].
    rewrite Forall_forall in Hprocs. by eapply Hprocs, index_elem.
  - apply (for_range_inv I); [|done].
    intros i a s s' Ha. apply drain_tied_I.
    apply aTimesMap_of_total in Ha as [Ha _].
    rewrite Forall_forall in Hprocs. by apply Hprocs.
Qed.

Lemma group_elems key entries k procs :
  group key entries !! k = Some procs →
  Forall (λ p, p ∈ entries.*2 ∧ key p = k) procs.
Proof.
  unfold group. revert k procs.
  induction entries as [|[k0 v0] entries IH] using rev_ind; intros k procs.
  - simpl. by rewrite lookup_empty.
  - rewrite foldl_app. simpl.
    set (m := foldl _ ∅ entries) in *.
    assert (∀ p, p ∈ entries.*2 → p ∈ (entries ++ [(k0, v0)]).*2) as Hmono.
    { intros p Hp. rewrite fmap_app. apply elem_of_app. by left. }
    assert (v0 ∈ (entries ++ [(k0, v0)]).*2) as Hv0.
    { rewrite fmap_app. apply elem_of_app. right. simpl. by left. }
    destruct (m !! key v0) as [val|] eqn:E.
    + destruct (decide (key v0 = k)) as [<-|Hne].
      * rewrite lookup_insert_eq. intros [= <-].
        apply Forall_app. split.
        -- eapply Forall_impl; [exact (IH _ _ E)|].
           intros p [? ?]. split; auto.
        -- by repeat constructor.
      * rewrite lookup_insert_ne by done. intros H.
        eapply Forall_impl; [exact (IH _ _ H)|].
        intros p [? ?]. split; auto.
    + destruct (decide (key v0 = k)) as [<-|Hne].
      * rewrite lookup_insert_eq. intros [= <-]. by repeat constructor.
      * rewrite lookup_insert_ne by done. intros H.
        eapply Forall_impl; [exact (IH _ _ H)|].
        intros p [? ?]. split; auto.
Qed.

Lemma range_values rm (m : gmap Z Process) v :
  range_ok rm → v ∈ (rm _ m).*2 → ∃ k, m !! k = Some v.
Proof.
  intros Hrm Hv. rewrite (Hrm _ m) in Hv.
  apply list_elem_of_fmap in Hv as ([k v'] & -> & Hkv).
  exists k. by apply elem_of_map_to_list.
Qed.

Lemma drain_I rm key st v :
  range_ok rm → pinv processes I st → drain rm key st = Done v → I v.
Proof.
  intros Hrm (HI & _ & Hl). unfold drain.
  apply (for_range_inv I); [|done].
  intros i k s s' _. apply drain_group_I.
  destruct (group key (rm _ (processesLeft st)) !! k) as [procs|] eqn:E.
  - rewrite (lookup_total_correct _ _ _ E).
    eapply Forall_impl; [exact (group_elems _ _ _ _ E)|].
    intros p [Hp _]. simpl in Hp.
    apply (range_values rm) in Hp as [k' Hk']; [|done].
    by eapply Hl.
  - rewrite lookup_total_alt, E. simpl. constructor.
Qed.

Theorem SJF_vars_ind rm res :
  range_ok rm → I vars0 → SJF.SJFSchedule rm processes = Done res →
  ∃ v, res = finish processes v ∧ I v.
Proof.
  intros Hrm HI. unfold SJF.SJFSchedule.
  intros (st & Hst & (v & Hv & [= <-])%bind_Done)%bind_Done.
  exists v. split; [done|].
  eapply drain_I; [done| |exact Hv]. by apply SJF_loop_pinv.
Qed.

Theorem Prio_vars_ind rm res :
  range_ok rm → I vars0 → Prio.SJFPrioritySchedule rm processes = Done res →
  ∃ v, res = finish processes v ∧ I v.
Proof.
  intros Hrm HI. unfold Prio.SJFPrioritySchedule.
  intros (st & Hst & (v & Hv & [= <-])%bind_Done)%bind_Done.
  exists v. split; [done|].
  eapply drain_I; [done| |exact Hv]. by apply Prio_loop_pinv.
Qed.

End Preemptive.

(** *** Round-robin: an induction principle, and the bound on the passes *)

Lemma keyed_fill l : keyed (foldl (λ m p, <[ProcessID p := p]> m) ∅ l).
Proof.
  intros k v Hv.
  apply fill_lookup in Hv as [[_ H]|H]; [done|by rewrite lookup_empty in H].
Qed.

Section RoundRobin.
Context (processes : list Process) (I : Vars → Prop).
Hypothesis I_stable : stable (quantum_row processes) I.

Lemma visit_rinv p st st' : rinv processes I st → RR.visit p st = Done st' → rinv processes I st'.
Proof.
  intros [HI Hm]. unfold RR.visit.
  destruct (RR.remProcesses st !! ProcessID p) as [process|] eqn:E;
    [|by intros [= <-]].
  assert (from_input processes process) as Hin by (by eapply Hm).
  case_decide as Hlt.
  - intros (v & Hv & [= <-])%bind_Done. split; simpl.
    + eapply (stable_emit _ _ I_stable); [|exact HI|exact Hv].
      split; [by apply span_row_intro|]. simpl. lia.
    + by apply map_Forall_delete.
  - intros (v & Hv & Hst)%bind_Done.
    assert (I v) as HIv.
    { eapply (stable_emit _ _ I_stable); [|exact HI|exact Hv].
      split; [by apply span_row_intro|]. simpl. lia. }
    case_decide; injection Hst as <-; (split; [done|]); simpl.
    + by apply map_Forall_delete.
    + apply map_Forall_insert_2; [|done]. by apply from_input_with_burst.
Qed.

Lemma pass_rinv l st st' : rinv processes I st → RR.pass l st = Done st' → rinv processes I st'.
Proof.
  unfold RR.pass. apply (for_range_inv (rinv processes I)).
  intros i x s s' _. apply visit_rinv.
Qed.

Lemma loop_rinv fuel l st st' :
  rinv processes I st → RR.loop fuel l st = Done st' → rinv processes I st'.
Proof.
  revert st. induction fuel as [|fuel IH]; intros st Hst; simpl;
    case_decide; try done; try (by intros [= <-]).
  intros (st1 & H1 & H2)%bind_Done.
  eapply IH; [|exact H2]. by eapply pass_rinv.
Qed.

Theorem RR_vars_ind srt res :
  I vars0 → RR.RRSchedule srt processes = Done res →
  ∃ v, res = finish (srt processes) v ∧ I v.
Proof.
  intros HI. unfold RR.RRSchedule.
  intros (st & Hst & [= <-])%bind_Done.
  exists (RR.rvars st). split; [done|].
  eapply loop_rinv in Hst as [? _]; [done|].
  split; [done|]. simpl.
  intros k v Hv.
  apply fill_lookup in Hv as [[H _]|H]; [|by rewrite lookup_empty in H].
  by apply from_input_self.
Qed.

End RoundRobin.

(** What a visit does to the counters and to the keys of the map. *)
Lemma visit_progress p st st' :
  keyed (RR.remProcesses st) → RR.visit p st = Done st' →
  keyed (RR.remProcesses st') ∧
  dom (RR.remProcesses st') ⊆ dom (RR.remProcesses st) ∧
  length (schedule (RR.rvars st')) = length (schedule (RR.rvars st)) ∧
  (ProcessID p ∈ dom (RR.remProcesses st) →
   ct (RR.rvars st') = S (ct (RR.rvars st)) ∧
   (ct (RR.rvars st') ≤ length (schedule (RR.rvars st)))%nat) ∧
  (ProcessID p ∉ dom (RR.remProcesses st) → st' = st).
Proof.
  intros Hk. unfold RR.visit.
  destruct (RR.remProcesses st !! ProcessID p) as [process|] eqn:E.
  2:{ intros [= <-]. do 3 (split; [done|]). split; [|done].
      intros [? ?]%elem_of_dom. congruence. }
  assert (ProcessID process = ProcessID p) as Hid by (by eapply Hk).
  assert (ProcessID p ∈ dom (RR.remProcesses st)) as Hdom
    by (apply elem_of_dom; eauto).
  assert (∀ row s svc v,
    emit row s svc (RR.rvars st) = Done v →
    length (schedule v) = length (schedule (RR.rvars st)) ∧
    ct v = S (ct (RR.rvars st)) ∧
    (ct v ≤ length (schedule (RR.rvars st)))%nat) as Hemit.
  { intros row s svc v (Hlt & _ & _ & _ & _ & _ & Hs & _ & Hc)%emit_Done.
    rewrite Hs, length_insert, Hc. repeat split; lia. }
  case_decide as Hlt.
  - intros (v & Hv & [= <-])%bind_Done. simpl.
    apply Hemit in Hv as (Hlen & Hc & Hle).
    repeat split; try done.
    + by apply map_Forall_delete.
    + rewrite dom_delete. apply subseteq_difference_l. done.
  - intros (v & Hv & Hst)%bind_Done.
    apply Hemit in Hv as (Hlen & Hc & Hle).
    case_decide; injection Hst as <-; simpl; (repeat split; try done).
    + by apply map_Forall_delete.
    + rewrite dom_delete. apply subseteq_difference_l. done.
    + by apply map_Forall_insert_2.
    + rewrite dom_insert, Hid. apply union_least; [|done].
      by apply singleton_subseteq_l.
Qed.

Lemma visit_not_fuel p st : RR.visit p st ≠ OutOfFuel.
Proof.
  unfold RR.visit. destruct (RR.remProcesses st !! ProcessID p); [|done].
  case_decide.
  - apply bind_not_fuel; [apply emit_not_fuel|done].
  - apply bind_not_fuel; [apply emit_not_fuel|].
    intros a. by case_decide.
Qed.

Lemma pass_progress l st st' :
  keyed (RR.remProcesses st) →
  (ct (RR.rvars st) ≤ length (schedule (RR.rvars st)))%nat →
  RR.pass l st = Done st' →
  keyed (RR.remProcesses st') ∧
  dom (RR.remProcesses st') ⊆ dom (RR.remProcesses st) ∧
  length (schedule (RR.rvars st')) = length (schedule (RR.rvars st)) ∧
  (ct (RR.rvars st) ≤ ct (RR.rvars st'))%nat ∧
  (ct (RR.rvars st') ≤ length (schedule (RR.rvars st)))%nat ∧
  ((∃ p, p ∈ l ∧ ProcessID p ∈ dom (RR.remProcesses st)) →
   (ct (RR.rvars st) < ct (RR.rvars st'))%nat).
Proof.
  unfold RR.pass. generalize 0%nat as i.
  revert st. induction l as [|p l IH]; intros st i Hk Hle; simpl.
  - intros [= <-]. repeat split; try done.
    intros (p & Hp & _). by apply elem_of_nil in Hp.
  - intros (st1 & H1 & H2)%bind_Done.
    apply visit_progress in H1 as (Hk1 & Hd1 & Hl1 & Hin1 & Hout1); [|done].
    destruct (decide (ProcessID p ∈ dom (RR.remProcesses st))) as [Hin|Hout].
    + destruct (Hin1 Hin) as [Hc1 Hb1].
      apply IH in H2 as (Hk2 & Hd2 & Hl2 & Hc2 & Hb2 & _);
        [|done|by rewrite Hl1].
      repeat split; try done.
      * by etrans.
      * congruence.
      * lia.
      * by rewrite <- Hl1.
      * intros _. lia.
    + rewrite (Hout1 Hout) in H2.
      apply IH in H2 as (Hk2 & Hd2 & Hl2 & Hc2 & Hb2 & Hp2); [|done..].
      repeat split; try done.
      intros (q & Hq & Hdom). apply Hp2.
      apply elem_of_cons in Hq as [->|Hq]; [done|]. eauto.
Qed.

Lemma pass_not_fuel l st : RR.pass l st ≠ OutOfFuel.
Proof.
  unfold RR.pass. apply for_range_not_fuel.
  intros _ p s. apply visit_not_fuel.
Qed.

(** The loop ends within the passes that the row buffer leaves room for. *)
Lemma loop_fuel l fuel st :
  keyed (RR.remProcesses st) →
  dom (RR.remProcesses st) ⊆ list_to_set (ProcessID <$> l) →
  (ct (RR.rvars st) ≤ length (schedule (RR.rvars st)))%nat →
  (length (schedule (RR.rvars st)) < ct (RR.rvars st) + fuel)%nat →
  RR.loop fuel l st ≠ OutOfFuel.
Proof.
  revert st. induction fuel as [|fuel IH]; intros st Hk Hdom Hle Hfuel; simpl.
  - lia.
  - case_decide as Hsize; [|done].
    destruct (RR.pass l st) as [st'| |] eqn:Hpass; simpl; [|done|].
    2:{ by apply pass_not_fuel in Hpass. }
    apply pass_progress in Hpass as (Hk' & Hd' & Hl' & Hc' & Hb' & Hp'); [|done..].
    apply IH; try done.
    + by etrans.
    + by rewrite Hl'.
    + rewrite Hl'. enough (ct (RR.rvars st) < ct (RR.rvars st'))%nat by lia.
      apply Hp'.
      destruct (map_choose (RR.remProcesses st)) as (k & v & Hkv).
      { intros Hempty. rewrite Hempty, map_size_empty in Hsize. lia. }
      assert (k ∈ dom (RR.remProcesses st)) as Hkd by (apply elem_of_dom; eauto).
      pose proof (Hdom _ Hkd) as Hkl.
      apply elem_of_list_to_set, list_elem_of_fmap in Hkl as (p & -> & Hp).
      eauto.
Qed.

(** More fuel does not change a run that ended. *)
Lemma loop_more_fuel l fuel k st :
  RR.loop fuel l st ≠ OutOfFuel →
  RR.loop (fuel + k) l st = RR.loop fuel l st.
Proof.
  revert st. induction fuel as [|fuel IH]; intros st; simpl.
  - case_decide; [done|]. intros _. destruct k; simpl; by case_decide.
  - case_decide; [|done].
    destruct (RR.pass l st) as [st'| |]; simpl; try done. apply IH.
Qed.

Theorem RRSchedule_total srt processes :
  sort_ok srt → RR.RRSchedule srt processes ≠ OutOfFuel.
Proof.
  intros Hsrt. unfold RR.RRSchedule.
  apply bind_not_fuel; [|done].
  apply loop_fuel; simpl.
  - apply keyed_fill.
  - intros k [v Hv]%elem_of_dom.
    apply fill_lookup in Hv as [[Hin <-]|H]; [|by rewrite lookup_empty in H].
    apply elem_of_list_to_set, list_elem_of_fmap_2.
    by rewrite (proj1 (Hsrt processes)).
  - lia.
  - unfold RR.passes. lia.
Qed.

(** *** First-come, first-serve in closed form *)

Lemma wait_after_cons w r rows :
  wait_after w (r :: rows) = wait_after (rowWait r) rows.
Proof. unfold wait_after. rewrite last_cons. by destruct (last rows). Qed.

Lemma fcfs_rows_length s w l : length (fcfs_rows s w l) = length l.
Proof. revert s w. induction l; intros; simpl; [done|]. by f_equal. Qed.

Lemma fcfs_rows_app s w l1 l2 :
  fcfs_rows s w (l1 ++ l2) =
  fcfs_rows s w l1 ++
  fcfs_rows (service_after s l1) (wait_after w (fcfs_rows s w l1)) l2.
Proof.
  revert s w. induction l1 as [|p l1 IH]; intros s w; [done|].
  cbn [fcfs_rows app]. rewrite IH, wait_after_cons. done.
Qed.

Lemma last_exit_app d rows rows' :
  last_exit d (rows ++ rows') = last_exit (last_exit d rows) rows'.
Proof.
  unfold last_exit. destruct rows' as [|r rows'] using rev_ind.
  - by rewrite app_nil_r.
  - by rewrite app_assoc, !last_snoc.
Qed.

Lemma FCFS_body_Done i p st :
  (i < length (FCFS.schedule st))%nat →
  ∃ st', FCFS.body i p st = Done st' ∧
    FCFS.schedule st' =
      <[i := Some (fcfs_row (FCFS.serviceTime st) (FCFS.waitingTime st) p)]>
        (FCFS.schedule st) ∧
    FCFS.serviceTime st' = Int64.add (FCFS.serviceTime st) (BurstDuration p) ∧
    FCFS.waitingTime st' =
      rowWait (fcfs_row (FCFS.serviceTime st) (FCFS.waitingTime st) p) ∧
    FCFS.lastCompletion st' =
      float64 (rowExit (fcfs_row (FCFS.serviceTime st) (FCFS.waitingTime st) p)).
Proof.
  intros Hi. unfold FCFS.body. rewrite store_ok by done. simpl.
  eexists. split; [done|]. done.
Qed.

Lemma FCFS_run l : ∀ st rows k,
  FCFS.schedule st = (Some <$> rows) ++ replicate (length l + k) None →
  ∃ st', for_range FCFS.body (length rows) l st = Done st' ∧
    FCFS.schedule st' =
      (Some <$> (rows ++ fcfs_rows (FCFS.serviceTime st) (FCFS.waitingTime st) l))
      ++ replicate k None ∧
    FCFS.lastCompletion st' =
      last_exit (FCFS.lastCompletion st)
        (fcfs_rows (FCFS.serviceTime st) (FCFS.waitingTime st) l).
Proof.
  induction l as [|p l IH]; intros st rows k Hs.
  - simpl. exists st. by rewrite app_nil_r.
  - simpl in Hs. cbn [for_range fcfs_rows].
    destruct (FCFS_body_Done (length rows) p st)
      as (st1 & -> & Hs1 & Hsv1 & Hw1 & Hl1).
    { rewrite Hs, length_app, length_fmap. simpl. lia. }
    set (row := fcfs_row (FCFS.serviceTime st) (FCFS.waitingTime st) p) in *.
    destruct (IH st1 (rows ++ [row]) k) as (st' & Hrun & Hsched & Hlast).
    { rewrite Hs1, Hs.
      rewrite insert_app_r_alt by (rewrite length_fmap; lia).
      rewrite length_fmap, Nat.sub_diag. simpl.
      by rewrite fmap_app, <- app_assoc. }
    rewrite length_app, Nat.add_1_r in Hrun.
    exists st'. split; [done|]. split.
    + rewrite Hsched, Hsv1, Hw1. by rewrite <- app_assoc.
    + rewrite Hlast, Hsv1, Hw1, Hl1.
      change (row :: ?l) with ([row] ++ l).
      by rewrite last_exit_app.
Qed.

(** [FCFSSchedule] always returns, with one row per process. *)
Lemma FCFSSchedule_rows processes :
  ∃ res, FCFS.FCFSSchedule processes = Done res ∧
    processes_after res = processes ∧
    out_rows (report res) = Some <$> fcfs_rows 0 0 processes ∧
    aveThroughput (report res) =
      PrimFloat.div (float64 (Z.of_nat (length processes)))
        (last_exit (float64 0) (fcfs_rows 0 0 processes)).
Proof.
  unfold FCFS.FCFSSchedule, FCFS.loop.
  destruct (FCFS_run processes (FCFS.init (length processes)) [] 0)
    as (st & Hrun & Hs & Hl).
  { simpl. by rewrite Nat.add_0_r. }
  simpl in Hrun. rewrite Hrun. simpl.
  eexists. split; [done|]. simpl.
  rewrite Hs, Hl. simpl. by rewrite app_nil_r.
Qed.

(** *** The library's part, discharged for the fixed order and sort *)

Lemma range_fixed_ok : range_ok range_fixed.
Proof. intros V m. done. Qed.

#[local] Instance by_arrival_total : Total by_arrival.
Proof. intros p q. unfold by_arrival. lia. Qed.

#[local] Instance by_arrival_trans : Transitive by_arrival.
Proof. intros p q r. unfold by_arrival. lia. Qed.

Lemma sort_stable_ok : sort_ok sort_stable.
Proof.
  intros l. split.
  - apply merge_sort_Permutation.
  - apply StronglySorted_merge_sort; apply _.
Qed.

(** *** Properties of every stored row *)

Lemma elem_of_insert_inv {A} (l : list A) i x y :
  x ∈ <[i := y]> l → x = y ∨ x ∈ l.
Proof.
  intros (j & Hj)%list_elem_of_lookup_1.
  apply list_lookup_insert_Some in Hj as [(-> & -> & _)|[_ Hj]].
  - by left.
  - right. by eapply list_elem_of_lookup_2.
Qed.

Lemma rows_all_stable Q : stable Q (rows_all Q).
Proof.
  split.
  - intros s v H. exact H.
  - intros row s svc v v' HQ H (_ & _ & _ & _ & _ & _ & Hs & _)%emit_Done r.
    rewrite Hs. intros [[= ->]|Hr]%elem_of_insert_inv; [done|by apply H].
Qed.

Lemma rows_all_vars0 Q : rows_all Q vars0.
Proof.
  intros r Hr. change (schedule vars0) with (replicate 100 (@None Row)) in Hr.
  by apply elem_of_replicate in Hr as [? _].
Qed.

Lemma stable_weaken (Q Q' : Row → Prop) I :
  (∀ r, Q' r → Q r) → stable Q I → stable Q' I.
Proof. intros HQ [H1 H2]. split; [done|]. intros. eapply H2; eauto. Qed.

Lemma rows_all_stored Q v : rows_all Q v → Forall Q (stored (schedule v)).
Proof.
  intros H. apply Forall_forall. intros r Hr. by apply H, elem_of_stored.
Qed.

Lemma fcfs_row_span processes s w p :
  p ∈ processes → span_row processes (fcfs_row s w p).
Proof.
  intros Hp. exists p. split; [done|]. split; [done|]. simpl.
  by rewrite Int64Facts.sub_add_add.
Qed.

Lemma fcfs_rows_span processes l s w :
  l ⊆ processes → Forall (span_row processes) (fcfs_rows s w l).
Proof.
  revert s w. induction l as [|p l IH]; intros s w Hl; simpl; constructor.
  - apply fcfs_row_span, Hl. by left.
  - apply IH. intros q Hq. apply Hl. by right.
Qed.

(** *** The row count and the last completion *)

Lemma counted_stable Q : stable Q counted.
Proof.
  split.
  - intros s v (rows & Hf & Hl). by exists rows.
  - intros row s svc v v' _ (rows & Hf & Hl) He.
    exists (rows ++ [row]). split; [by eapply emit_filled|].
    apply emit_Done in He as (_ & _ & _ & _ & -> & _).
    unfold last_exit. by rewrite last_snoc.
Qed.

Lemma counted_vars0 : counted vars0.
Proof. exists []. split; [apply filled_vars0|done]. Qed.

Lemma counted_throughput processes v :
  counted v →
  let rows := stored (out_rows (report (finish processes v))) in
  aveThroughput (report (finish processes v)) =
  PrimFloat.div (float64 (Z.of_nat (length rows))) (last_exit (float64 0) rows).
Proof.
  intros (rows & Hf & Hl). simpl.
  rewrite (filled_stored _ _ Hf), Hl. by destruct Hf as [-> _].
Qed.

(** *** The first loop, up to one arrival *)

Lemma begins_stable Q rows slices : stable Q (begins rows slices).
Proof.
  split.
  - intros s v (rest & g & Hf & Hg). by exists rest, g.
  - intros row s svc v v' _ (rest & g & Hf & Hg) He.
    exists (rest ++ [row]), (g ++ [{| PID := rowID row; Start := s; Stop := svc |}]).
    split.
    + rewrite app_assoc. by eapply emit_filled.
    + apply emit_Done in He as (_ & _ & _ & _ & _ & _ & _ & -> & _).
      by rewrite Hg, app_assoc.
Qed.

Lemma has_rows_stable Q : stable Q has_rows.
Proof.
  split.
  - intros s v [rows Hf]. by exists rows.
  - intros row s svc v v' _ [rows Hf] He.
    exists (rows ++ [row]). by eapply emit_filled.
Qed.

Lemma has_rows_vars0 : has_rows vars0.
Proof. exists []. apply filled_vars0. Qed.

Lemma for_range_split {A St} (body : nat → A → St → run St) l i x s :
  l !! i = Some x →
  for_range body 0 l s =
  s1 ← for_range body 0 (take i l) s;
  s2 ← body i x s1;
  for_range body (S i) (drop (S i) l) s2.
Proof.
  intros Hi.
  rewrite <- (take_drop_middle l i x Hi) at 1.
  rewrite for_range_app. simpl.
  rewrite length_take_le; [done|].
  apply lookup_lt_Some in Hi. lia.
Qed.

Lemma Prio_loop_split processes i a :
  aTimeNums_of processes !! i = Some a →
  Prio.loop processes =
  st ← Prio_upto processes i;
  st' ← Prio.body (aTimesMap_of processes) (aTimeNums_of processes) i a st;
  for_range (Prio.body (aTimesMap_of processes) (aTimeNums_of processes))
            (S i) (drop (S i) (aTimeNums_of processes)) st'.
Proof.
  intros Hi. unfold Prio.loop, Prio_upto.
  destruct (index (aTimeNums_of processes) 0); simpl; try done.
  by apply for_range_split.
Qed.

Lemma Prio_upto_pinv processes I i st :
  stable (span_row processes) I → I vars0 →
  Prio_upto processes i = Done st → pinv processes I st.
Proof.
  intros HS HI. unfold Prio_upto.
  intros (a0 & Ha0 & Hrun)%bind_Done.
  eapply (for_range_inv (pinv processes I)); [| |exact Hrun].
  - intros j x s s' Hx. apply Prio_body_pinv; [done|].
    by apply aTimesMap_from_input, (subseteq_take i).
  - split; [done|]. simpl. split.
    + eapply aTimesMap_from_input, index_elem, Ha0.
    + apply processesLeft_of_from_input.
Qed.

Lemma Prio_rest_pinv processes I j n st st' :
  stable (span_row processes) I → pinv processes I st →
  for_range (Prio.body (aTimesMap_of processes) (aTimeNums_of processes))
            j (drop n (aTimeNums_of processes)) st = Done st' →
  pinv processes I st'.
Proof.
  intros HS. apply (for_range_inv (pinv processes I)).
  intros k x s s' Hx. apply Prio_body_pinv; [done|].
  by apply aTimesMap_from_input, (subseteq_drop n).
Qed.

(** One iteration in which the arriving process has the smaller priority
    value. *)
Lemma Prio_body_preempts aTimesMap aTimeNums i a st st' rows :
  i ≠ 0%nat →
  Priority (aTimesMap !!! a) < Priority (currProcess st) →
  filled (vars st) rows →
  Prio.body aTimesMap aTimeNums i a st = Done st' →
  currProcess st' = aTimesMap !!! a ∧ start st' = a ∧
  ∃ stop,
    begins (rows ++ [preempted_row st a])
      (gantt (vars st) ++
       [{| PID := ProcessID (currProcess st); Start := start st; Stop := stop |}])
      (vars st').
Proof.
  intros Hi Hprio Hf. unfold Prio.body.
  intros (st1 & H1 & H2)%bind_Done.
  assert (currProcess st1 = currProcess st ∧ start st1 = start st ∧
          filled (vars st1) rows ∧ gantt (vars st1) = gantt (vars st))
    as (Hc1 & Hs1 & Hf1 & Hg1).
  { unfold advance in H1. rewrite decide_True in H1 by done.
    apply bind_Done in H1 as (prev & _ & [= <-]). done. }
  rewrite decide_False in H2 by done.
  apply bind_Done in H2 as (st2 & H2 & H3).
  rewrite Hc1, decide_True in H2 by done.
  unfold preempt in H2.
  apply bind_Done in H2 as (v & Hv & [= <-]).
  assert (begins (rows ++ [preempted_row st a])
            (gantt (vars st) ++
             [{| PID := ProcessID (currProcess st); Start := start st;
                 Stop := serviceTime (vars st1) |}]) v) as Hb.
  { exists [], []. rewrite !app_nil_r. split.
    - rewrite Hc1, Hs1 in Hv. by eapply emit_filled.
    - apply emit_Done in Hv as (_ & _ & _ & _ & _ & _ & _ & -> & _).
      simpl. by rewrite Hg1, Hc1, Hs1. }
  simpl in H3. case_decide.
  - unfold complete in H3. apply bind_Done in H3 as (v' & Hv' & [= <-]).
    simpl in *. repeat split; try done.
    eexists. by eapply (stable_emit _ _ (begins_stable (λ _, True) _ _)).
  - injection H3 as <-. simpl. repeat split; try done. by eexists.
Qed.

(** *** Round-robin: what one process is served *)

Lemma chunks_lt b : b < 3 → chunks b = [b].
Proof. intros H. unfold chunks. by rewrite decide_True. Qed.

Lemma chunks_3 : chunks 3 = [3].
Proof. reflexivity. Qed.

Lemma chunks_step b : 3 < b → chunks b = 3 :: chunks (b - 3).
Proof.
  intros H. unfold chunks. rewrite decide_False by lia.
  assert (b / 3 = (b - 3) / 3 + 1) as Hq.
  { replace b with ((b - 3) + 1 * 3) at 1 by lia.
    rewrite Z.div_add by lia. done. }
  assert (b mod 3 = (b - 3) mod 3) as Hm.
  { replace b with ((b - 3) + 1 * 3) at 1 by lia.
    rewrite Z.mod_add by lia. done. }
  destruct (decide (b - 3 < 3)) as [Hlt|Hge].
  - assert (b = 4 ∨ b = 5) as [-> | ->] by lia; reflexivity.
  - rewrite Hq, Hm.
    assert (0 <= (b - 3) / 3) by (apply Z.div_pos; lia).
    rewrite Z2Nat.inj_add by lia. rewrite Nat.add_comm. simpl. done.
Qed.

Lemma served_snoc k rows r :
  served k (rows ++ [r]) =
  served k rows ++ (if decide (rowID r = k) then [rowBurst r] else []).
Proof.
  unfold served. rewrite filter_app, fmap_app. f_equal.
  rewrite filter_cons. case_decide; done.
Qed.

Lemma loop_Done_empty fuel l st st' :
  RR.loop fuel l st = Done st' → RR.remProcesses st' = ∅.
Proof.
  revert st. induction fuel as [|fuel IH]; intros st; simpl.
  - case_decide as Hs; [done|]. intros [= <-].
    apply map_size_empty_iff. lia.
  - case_decide as Hs.
    + intros (st1 & _ & H)%bind_Done. by eapply IH.
    + intros [= <-]. apply map_size_empty_iff. lia.
Qed.

(** One visit, as the two branches of the source have it. *)
Lemma visit_spec p st st' process rows :
  RR.remProcesses st !! ProcessID p = Some process →
  filled (RR.rvars st) rows →
  RR.visit p st = Done st' →
  ∃ row,
    filled (RR.rvars st') (rows ++ [row]) ∧
    rowID row = ProcessID process ∧
    rowWait row = serviceTime (RR.rvars st) ∧
    (BurstDuration process < 3 →
     rowBurst row = BurstDuration process ∧
     RR.remProcesses st' = delete (ProcessID process) (RR.remProcesses st)) ∧
    (3 <= BurstDuration process →
     rowBurst row = 3 ∧
     RR.remProcesses st' =
       if decide (Int64.sub (BurstDuration process) 3 = 0)
       then delete (ProcessID process) (RR.remProcesses st)
       else <[ProcessID process :=
                with_burst process (Int64.sub (BurstDuration process) 3)]>
              (RR.remProcesses st)).
Proof.
  intros Hp Hf. unfold RR.visit. rewrite Hp. unfold RR.timeQ.
  case_decide as Hlt.
  - intros (v & Hv & [= <-])%bind_Done. eexists. split.
    + simpl. by eapply emit_filled.
    + simpl. repeat split; try done; lia.
  - intros (v & Hv & Hst)%bind_Done. eexists. split.
    + case_decide; injection Hst as <-; simpl; by eapply emit_filled.
    + simpl. repeat split; try done; try lia.
      simpl in Hst. case_decide; by injection Hst as <-.
Qed.

Lemma visit_sinv k target q st st' :
  sinv k target st → RR.visit q st = Done st' → sinv k target st'.
Proof.
  intros (Hk & rows & Hf & Hinv) Hvisit.
  pose proof (visit_progress _ _ _ Hk Hvisit) as (Hk' & _ & _ & _ & Hsame).
  split; [done|].
  destruct (RR.remProcesses st !! ProcessID q) as [process|] eqn:E.
  2:{ rewrite Hsame; [by exists rows|].
      intros [? ?]%elem_of_dom. congruence. }
  assert (ProcessID process = ProcessID q) as Hid by (by eapply Hk).
  destruct (visit_spec _ _ _ _ _ E Hf Hvisit)
    as (row & Hf' & Hrid & _ & Hshort & Hlong).
  exists (rows ++ [row]). split; [done|].
  rewrite served_snoc, Hrid, Hid.
  destruct (decide (ProcessID q = k)) as [Hqk|Hqk].
  - rewrite Hqk in E. rewrite E in Hinv. destruct Hinv as [Hrange Hinv].
    rewrite Hid, Hqk in Hshort, Hlong.
    destruct (decide (BurstDuration process < 3)) as [Hlt|Hge].
    + destruct (Hshort Hlt) as [-> ->]. rewrite lookup_delete_eq.
      by rewrite chunks_lt in Hinv.
    + destruct Hlong as [-> ->]; [lia|].
      assert (Int64.sub (BurstDuration process) 3 = BurstDuration process - 3)
        as Hsub.
      { apply Int64Facts.sub_small. unfold Int64.in_range in *. lia. }
      rewrite Hsub. case_decide as Hz.
      * rewrite lookup_delete_eq.
        replace (BurstDuration process) with 3 in Hinv by lia.
        by rewrite chunks_3 in Hinv.
      * rewrite lookup_insert_eq. simpl. split.
        -- unfold Int64.in_range in *. lia.
        -- rewrite chunks_step in Hinv by lia.
           by rewrite <- app_assoc.
  - rewrite app_nil_r.
    assert (RR.remProcesses st' !! k = RR.remProcesses st !! k) as ->; [|done].
    destruct (decide (BurstDuration process < 3)) as [Hlt|Hge].
    + destruct (Hshort Hlt) as [_ ->]. rewrite Hid.
      by rewrite lookup_delete_ne.
    + destruct Hlong as [_ ->]; [lia|]. rewrite Hid.
      case_decide; [by rewrite lookup_delete_ne|by rewrite lookup_insert_ne].
Qed.

Lemma loop_sinv k target fuel l st st' :
  sinv k target st → RR.loop fuel l st = Done st' → sinv k target st'.
Proof.
  revert st. induction fuel as [|fuel IH]; intros st Hst; simpl;
    case_decide; try done; try (by intros [= <-]).
  intros (st1 & H1 & H2)%bind_Done.
  eapply IH; [|exact H2].
  eapply (for_range_inv (sinv k target)); [| |exact H1]; [|done].
  intros i x s s' _. apply visit_sinv.
Qed.

(** The rows of a process with an id of its own are the [chunks] of its
    burst. *)
Lemma RR_served srt processes res p :
  RR.RRSchedule srt processes = Done res →
  p ∈ processes →
  (∀ q, q ∈ processes → ProcessID q = ProcessID p → q = p) →
  Int64.in_range (BurstDuration p) →
  served (ProcessID p) (stored (out_rows (report res)))
  = chunks (BurstDuration p).
Proof.
  intros Hrun Hp Huniq Hrange.
  apply bind_Done in Hrun as (st & Hloop & [= <-]). simpl.
  pose proof (loop_Done_empty _ _ _ _ Hloop) as Hempty.
  eapply (loop_sinv (ProcessID p) (chunks (BurstDuration p))) in Hloop
    as (_ & rows & Hf & Hinv).
  - rewrite Hempty, lookup_empty in Hinv.
    by rewrite (filled_stored _ _ Hf).
  - split; [apply keyed_fill|]. exists []. split; [apply filled_vars0|].
    simpl.
    destruct (fill_is_Some ProcessID processes ∅ (ProcessID p)) as [q Hq].
    { left. by apply list_elem_of_fmap_2. }
    rewrite Hq.
    apply fill_lookup in Hq as [[Hin Hid]|Hq]; [|by rewrite lookup_empty in Hq].
    by rewrite (Huniq q Hin Hid).
Qed.

(** *** Every process is reported *)

Lemma covers_stable Q k : stable Q (λ v, covers v k).
Proof.
  split.
  - intros s v (rows & Hf & Hr & Hs). by exists rows.
  - intros row s svc v v' _ (rows & Hf & (r & Hr & Hrk) & (sl & Hsl & Hslk)) He.
    exists (rows ++ [row]). split; [by eapply emit_filled|].
    apply emit_Done in He as (_ & _ & _ & _ & _ & _ & _ & -> & _).
    split.
    + exists r. split; [|done]. apply elem_of_app. by left.
    + exists sl. split; [|done]. apply elem_of_app. by left.
Qed.

Lemma emit_covers row s svc v v' :
  has_rows v → emit row s svc v = Done v' → covers v' (rowID row).
Proof.
  intros [rows Hf] He. exists (rows ++ [row]).
  split; [by eapply emit_filled|].
  apply emit_Done in He as (_ & _ & _ & _ & _ & _ & _ & -> & _).
  split.
  - exists row. split; [|done]. apply elem_of_app. right. by left.
  - eexists. split; [apply elem_of_app; right; by left|done].
Qed.

Lemma covers_report processes v k :
  covers v k →
  (∃ r, r ∈ stored (out_rows (report (finish processes v))) ∧ rowID r = k) ∧
  (∃ s, s ∈ out_gantt (report (finish processes v)) ∧ PID s = k).
Proof.
  intros (rows & Hf & Hr & Hs). simpl. by rewrite (filled_stored _ _ Hf).
Qed.

Lemma for_range_establish {A St} (Inv P : St → Prop)
    (body : nat → A → St → run St) l x :
  x ∈ l →
  (∀ i y s s', y ∈ l → Inv s → body i y s = Done s' → Inv s' ∧ (P s → P s')) →
  (∀ i s s', Inv s → body i x s = Done s' → P s') →
  ∀ i s s', Inv s → for_range body i l s = Done s' → P s'.
Proof.
  intros Hx Hkeep Hset.
  induction l as [|y l IH]; intros i s s' Hs; simpl.
  - by apply elem_of_nil in Hx.
  - intros (s1 & H1 & H2)%bind_Done.
    apply elem_of_cons in Hx as [->|Hx].
    + assert (Inv s1 ∧ P s1) as Hs1.
      { split; [eapply Hkeep; [by left|exact Hs|exact H1]|by eapply Hset]. }
      eapply (for_range_inv (λ s, Inv s ∧ P s)); [|exact Hs1|exact H2].
      intros j z t t' Hz [Ht HPt] Hb.
      destruct (Hkeep j z t t') as [? ?]; auto. by right.
    + eapply IH; [done| | |exact H2].
      * intros j z t t' Hz. apply Hkeep. by right.
      * eapply Hkeep; [by left|exact Hs|exact H1].
Qed.

Section Coverage.
Context (processes : list Process).

Lemma advance_cinv aTimeNums i a st st' :
  cinv processes st → advance aTimeNums i a st = Done st' → cinv processes st'.
Proof.
  intros (Hk & Hr & Hc). unfold advance. case_decide.
  - intros (prev & _ & [= <-])%bind_Done. simpl. done.
  - by intros [= <-].
Qed.

Lemma preempt_cinv aTimesMap a st st' :
  cinv processes st → preempt aTimesMap a st = Done st' → cinv processes st'.
Proof.
  intros (Hk & Hr & Hc). unfold preempt.
  intros (v & Hv & [= <-])%bind_Done. simpl.
  split; [by apply map_Forall_insert_2|].
  split; [by eapply (stable_emit _ _ (has_rows_stable (λ _, True)))|].
  intros k Hkin. destruct (Hc k Hkin) as [Hcov|Hsome].
  - left. by eapply (stable_emit _ _ (covers_stable (λ _, True) k)).
  - right. apply lookup_insert_is_Some'. by right.
Qed.

Lemma complete_cinv aTimesMap a st st' :
  cinv processes st → complete aTimesMap a st = Done st' → cinv processes st'.
Proof.
  intros (Hk & Hr & Hc). unfold complete.
  intros (v & Hv & [= <-])%bind_Done. simpl.
  split; [by apply map_Forall_delete|].
  split; [by eapply (stable_emit _ _ (has_rows_stable (λ _, True)))|].
  intros k Hkin.
  destruct (decide (ProcessID (currProcess st) = k)) as [<-|Hne].
  - left. by apply (emit_covers _ _ _ _ _ Hr Hv).
  - destruct (Hc k Hkin) as [Hcov|Hsome].
    + left. by eapply (stable_emit _ _ (covers_stable (λ _, True) k)).
    + right. simpl. by rewrite lookup_delete_ne.
Qed.

Lemma SJF_body_cinv aTimesMap aTimeNums i a st st' :
  cinv processes st → SJF.body aTimesMap aTimeNums i a st = Done st' → cinv processes st'.
Proof.
  intros Hst. unfold SJF.body.
  intros (st1 & H1 & H2)%bind_Done.
  apply (advance_cinv _ _ _ _ _ Hst) in H1.
  repeat case_decide.
  - by injection H2 as <-.
  - by eapply preempt_cinv.
  - by eapply complete_cinv.
  - by injection H2 as <-.
Qed.

Lemma Prio_body_cinv aTimesMap aTimeNums i a st st' :
  cinv processes st → Prio.body aTimesMap aTimeNums i a st = Done st' → cinv processes st'.
Proof.
  intros Hst. unfold Prio.body.
  intros (st1 & H1 & H2)%bind_Done.
  apply (advance_cinv _ _ _ _ _ Hst) in H1.
  case_decide; [by injection H2 as <-|].
  apply bind_Done in H2 as (st2 & H2 & H3).
  assert (cinv processes st2) as Hst2.
  { destruct (decide (Priority (aTimesMap !!! a) < Priority (currProcess st1)));
      [by eapply preempt_cinv|by injection H2 as <-]. }
  clear H2. case_decide; [by eapply complete_cinv|by injection H3 as <-].
Qed.

Lemma entry_cinv a0 : cinv processes (entry_state processes a0).
Proof.
  split; [apply keyed_fill|]. split; [apply has_rows_vars0|].
  intros k Hk. right. simpl. unfold processesLeft_of.
  apply fill_is_Some. by left.
Qed.

Lemma SJF_loop_cinv st : SJF.loop processes = Done st → cinv processes st.
Proof.
  unfold SJF.loop. intros (a0 & _ & Hrun)%bind_Done.
  eapply (for_range_inv (cinv processes)); [| |exact Hrun].
  - intros i x s s' _. apply SJF_body_cinv.
  - apply entry_cinv.
Qed.

Lemma Prio_loop_cinv st : Prio.loop processes = Done st → cinv processes st.
Proof.
  unfold Prio.loop. intros (a0 & _ & Hrun)%bind_Done.
  eapply (for_range_inv (cinv processes)); [| |exact Hrun].
  - intros i x s s' _. apply Prio_body_cinv.
  - apply entry_cinv.
Qed.

End Coverage.

(** *** The second loop reports every process that is left *)

(** The group under a key is the entries with that key, in the order of
    the range. *)
Lemma group_lookup key entries k :
  group key entries !! k = nonempty (filter (λ v, key v = k) entries.*2).
Proof.
  unfold group.
  induction entries as [|[k0 v0] entries IH] using rev_ind.
  - simpl. by rewrite lookup_empty.
  - rewrite foldl_app, fmap_app, filter_app. simpl.
    set (m := foldl _ ∅ entries) in *.
    rewrite filter_cons, filter_nil.
    destruct (decide (key v0 = k)) as [<-|Hne].
    + rewrite IH.
      destruct (filter _ entries.*2) as [|y l]; simpl;
        by rewrite lookup_insert_eq.
    + rewrite app_nil_r, <- IH.
      destruct (m !! key v0); by rewrite lookup_insert_ne.
Qed.

Lemma nonempty_Some {A} (l l' : list A) : nonempty l = Some l' → l' = l.
Proof. destruct l; simpl; congruence. Qed.

Lemma NoDup_fmap_eq {A B} (f : A → B) l x y :
  NoDup (f <$> l) → x ∈ l → y ∈ l → f x = f y → x = y.
Proof.
  induction l as [|z l IH]; intros Hnd Hx Hy Heq.
  - by apply elem_of_nil in Hx.
  - rewrite fmap_cons in Hnd. apply NoDup_cons in Hnd as [Hz Hnd].
    apply elem_of_cons in Hx as [->|Hx]; apply elem_of_cons in Hy as [->|Hy].
    + done.
    + exfalso. apply Hz. rewrite Heq. by apply list_elem_of_fmap_2.
    + exfalso. apply Hz. rewrite <- Heq. by apply list_elem_of_fmap_2.
    + by apply IH.
Qed.

(** With distinct arrival times in the input, the processes left have
    distinct arrival times too. *)
Lemma left_arrivals_NoDup processes (m : gmap Z Process) :
  NoDup (ArrivalTime <$> processes) → keyed m →
  map_Forall (λ _ v, from_input processes v) m →
  NoDup (ArrivalTime <$> (map_to_list m).*2).
Proof.
  intros Hnd Hk Hin.
  rewrite <- list_fmap_compose.
  apply NoDup_fmap_2_strong; [|apply NoDup_map_to_list].
  intros [k1 v1] [k2 v2] H1%elem_of_map_to_list H2%elem_of_map_to_list Heq.
  simpl in Heq.
  destruct (Hin _ _ H1) as (p1 & Hp1 & Hid1 & Ha1 & _).
  destruct (Hin _ _ H2) as (p2 & Hp2 & Hid2 & Ha2 & _).
  assert (p1 = p2) as <-.
  { eapply NoDup_fmap_eq; [exact Hnd|done..|congruence]. }
  assert (k1 = k2) as <-.
  { rewrite <- (Hk _ _ H1), <- (Hk _ _ H2). congruence. }
  congruence.
Qed.

Lemma drain_group_covers processes procs v v' x :
  Forall (from_input processes) procs → has_rows v →
  x ∈ procs → NoDup (ArrivalTime <$> procs) →
  drain_group procs v = Done v' → covers v' (ProcessID x).
Proof.
  intros Hprocs Hv Hx Hnd. rewrite Forall_forall in Hprocs.
  unfold drain_group. case_decide as Hlen.
  - destruct procs as [|y [|z procs]]; try done.
    apply list_elem_of_singleton in Hx as ->.
    intros (p & [= <-] & He)%bind_Done.
    by apply (emit_covers _ _ _ _ _ Hv He).
  - apply (for_range_establish has_rows (λ v, covers v (ProcessID x))
             _ _ (ArrivalTime x)); [| | |done].
    + unfold aTimeNums_of. apply elem_of_sort_Ints.
      by apply list_elem_of_fmap_2.
    + intros i a s s' Ha Hs Hb.
      apply aTimesMap_of_total in Ha as [Ha _].
      split.
      * eapply (drain_tied_I processes _ (has_rows_stable _)); eauto.
      * intros Hc. eapply (drain_tied_I processes _ (covers_stable _ _)); eauto.
    + intros i s s' Hs.
      assert (aTimesMap_of procs !!! ArrivalTime x = x) as ->.
      { apply lookup_total_correct. unfold aTimesMap_of. by apply fill_NoDup. }
      intros He. by apply (emit_covers _ _ _ _ _ Hs He).
Qed.

Lemma drain_covers rm key processes st v k x :
  range_ok rm → NoDup (ArrivalTime <$> processes) →
  keyed (processesLeft st) →
  map_Forall (λ _ v, from_input processes v) (processesLeft st) →
  has_rows (vars st) →
  processesLeft st !! k = Some x →
  drain rm key st = Done v → covers v k.
Proof.
  intros Hrm Hnd Hk Hin Hrows Hx. unfold drain.
  set (entries := rm _ (processesLeft st)).
  set (groups := group key entries).
  assert (entries ≡ₚ map_to_list (processesLeft st)) as Hperm by apply Hrm.
  assert (∀ y, y ∈ entries.*2 → from_input processes y) as Hentries.
  { intros y Hy. rewrite Hperm in Hy.
    apply list_elem_of_fmap in Hy as ([k' y'] & -> & Hy).
    apply elem_of_map_to_list in Hy. by eapply Hin. }
  assert (∀ k' procs, groups !! k' = Some procs →
            procs = filter (λ v, key v = k') entries.*2) as Hgroups.
  { intros k' procs Hg. subst groups. rewrite group_lookup in Hg.
    by apply nonempty_Some in Hg. }
  assert (∀ k', Forall (from_input processes) (groups !!! k')) as Hfrom.
  { intros k'. rewrite lookup_total_alt.
    destruct (groups !! k') as [procs|] eqn:E; simpl; [|constructor].
    rewrite (Hgroups _ _ E). apply Forall_forall.
    intros y [_ Hy]%list_elem_of_filter. by apply Hentries. }
  assert (x ∈ entries.*2) as Hxin.
  { rewrite Hperm. apply list_elem_of_fmap. exists (k, x). split; [done|].
    by apply elem_of_map_to_list. }
  destruct (groups !! key x) as [procs|] eqn:E.
  2:{ subst groups. rewrite group_lookup in E.
      destruct (filter _ entries.*2) as [|y l] eqn:Ef; [|done].
      exfalso. eapply filter_nil_not_elem_of; [exact Ef| |exact Hxin]. done. }
  pose proof (Hgroups _ _ E) as Hprocs.
  rewrite <- (Hk _ _ Hx).
  apply (for_range_establish has_rows (λ v, covers v (ProcessID x))
           _ _ (key x)); [| | |done].
  - apply elem_of_sort_Ints. rewrite (Hrm _ groups).
    apply list_elem_of_fmap. exists (key x, procs). split; [done|].
    by apply elem_of_map_to_list.
  - intros i k' s s' _ Hs Hb. split.
    + eapply (drain_group_I processes _ (has_rows_stable _)); eauto.
    + intros Hc.
      eapply (drain_group_I processes _ (covers_stable _ _)); eauto.
  - intros i s s' Hs. rewrite (lookup_total_correct _ _ _ E).
    apply (drain_group_covers processes); [| done | |].
    + rewrite <- (lookup_total_correct _ _ _ E). apply Hfrom.
    + rewrite Hprocs. apply list_elem_of_filter. done.
    + rewrite Hprocs.
      apply (sublist_NoDup _ (ArrivalTime <$> entries.*2)).
      * rewrite Hperm. by apply (left_arrivals_NoDup processes).
      * apply fmap_sublist, sublist_filter.
Qed.

Lemma loops_report_everyone rm key processes st v :
  range_ok rm → NoDup (ArrivalTime <$> processes) →
  pinv processes has_rows st → cinv processes st →
  drain rm key st = Done v →
  ∀ p, p ∈ processes → covers v (ProcessID p).
Proof.
  intros Hrm Hnd Hpinv (Hk & Hrows & Hc) Hdrain p Hp.
  destruct (Hc (ProcessID p)) as [Hcov|[x Hx]].
  - by apply list_elem_of_fmap_2.
  - eapply (drain_I processes _ (covers_stable _ _)); [done| |exact Hdrain].
    destruct Hpinv as (_ & ? & ?). done.
  - destruct Hpinv as (_ & _ & Hleft). by eapply drain_covers.
Qed.

(** Rows are told apart by their ID column: with distinct ids, a row
    with the id of [p] is a row of [p]. *)
Lemma span_row_of processes p r :
  NoDup (ProcessID <$> processes) → p ∈ processes →
  span_row processes r → rowID r = ProcessID p → row_of p r.
Proof.
  intros Hnd Hp (q & Hq & Hrow & _) Hid.
  assert (q = p) as <-; [|done].
  eapply NoDup_fmap_eq; [exact Hnd|done..|].
  destruct Hrow as [<- _]. done.
Qed.

(** Replaces the range over the map in the goal by each of the orders it
    can have: the map has two entries. *)
Ltac range_of_two rm Hrm :=
  match goal with |- context [rm Process ?m] =>
    let Hperm := fresh "Hperm" in
    let entries := fresh "entries" in
    pose proof (Hrm _ m) as Hperm; set (entries := rm Process m) in *;
    let l := eval vm_compute in (map_to_list m) in
    change (map_to_list m) with l in Hperm;
    symmetry in Hperm;
    apply Permutation_length_2_inv in Hperm as [Hperm|Hperm];
    rewrite Hperm; clear Hperm entries
  end.

(** Replaces the range over the map of groups in the goal by its one
    entry. *)
Ltac range_of_one rm Hrm :=
  match goal with |- context [rm (list Process) ?g] =>
    let Hperm := fresh "Hperm" in
    let entries := fresh "entries" in
    pose proof (Hrm _ g) as Hperm; set (entries := rm (list Process) g) in *;
    let l := eval vm_compute in (map_to_list g) in
    change (map_to_list g) with l in Hperm;
    apply Permutation_singleton_r in Hperm;
    rewrite Hperm; clear Hperm entries
  end.

(** Replaces the range over an empty map in the goal by no entry. *)
Ltac range_of_none rm Hrm :=
  match goal with |- context [rm ?V ?m] =>
    let Hperm := fresh "Hperm" in
    let entries := fresh "entries" in
    pose proof (Hrm V m) as Hperm; set (entries := rm V m) in *;
    let l := eval vm_compute in (map_to_list m) in
    change (map_to_list m) with l in Hperm;
    apply Permutation_nil_r in Hperm;
    rewrite Hperm; clear Hperm entries
  end.

Ltac no_row_of :=
  let r := fresh "r" in
  let Hr := fresh "Hr" in
  vm_compute; intros r Hr;
  repeat (apply elem_of_cons in Hr as [->|Hr]; [discriminate|]);
  by apply elem_of_nil in Hr.

(** With tied arrival times one process goes unreported, whatever the
    order of the range: the group of the two processes left is walked by
    arrival time, and the map from arrival times holds one of them. *)
Lemma SJF_tied_arrivals rm :
  range_ok rm →
  ∃ res p, SJF.SJFSchedule rm tied_arrivals = Done res ∧ p ∈ tied_arrivals ∧
    ∀ r, r ∈ stored (out_rows (report res)) → rowID r ≠ ProcessID p.
Proof.
  intros Hrm. unfold SJF.SJFSchedule.
  eassert (SJF.loop tied_arrivals = Done _) as -> by (vm_compute; reflexivity).
  cbn [mbind run_bind]. unfold drain. cbn [processesLeft vars].
  range_of_two rm Hrm; range_of_one rm Hrm.
  - eexists. exists (mkProcess 2 5 0).
    split; [vm_compute; reflexivity|]. split; [by right; left|no_row_of].
  - eexists. exists (mkProcess 1 5 0).
    split; [vm_compute; reflexivity|]. split; [by left|no_row_of].
Qed.

Lemma Prio_tied_arrivals rm :
  range_ok rm →
  ∃ res p, Prio.SJFPrioritySchedule rm tied_arrivals = Done res ∧
    p ∈ tied_arrivals ∧
    ∀ r, r ∈ stored (out_rows (report res)) → rowID r ≠ ProcessID p.
Proof.
  intros Hrm. unfold Prio.SJFPrioritySchedule.
  eassert (Prio.loop tied_arrivals = Done _) as -> by (vm_compute; reflexivity).
  cbn [mbind run_bind]. unfold drain. cbn [processesLeft vars].
  range_of_two rm Hrm; range_of_one rm Hrm.
  - eexists. exists (mkProcess 2 5 0).
    split; [vm_compute; reflexivity|]. split; [by right; left|no_row_of].
  - eexists. exists (mkProcess 1 5 0).
    split; [vm_compute; reflexivity|]. split; [by left|no_row_of].
Qed.

(** With a shared id one process goes unreported too, whatever the order
    of the range: the map of the processes left holds one process for
    each id, and the deletion of the first process under its id leaves
    nothing of the second. *)
Lemma SJF_same_id rm :
  range_ok rm →
  ∃ res p, SJF.SJFSchedule rm same_id_later = Done res ∧
    p ∈ same_id_later ∧
    ∀ r, r ∈ stored (out_rows (report res)) → rowArrival r ≠ ArrivalTime p.
Proof.
  intros Hrm. unfold SJF.SJFSchedule.
  eassert (SJF.loop same_id_later = Done _) as -> by (vm_compute; reflexivity).
  cbn [mbind run_bind]. unfold drain. cbn [processesLeft vars].
  range_of_none rm Hrm. cbn [group foldl]. range_of_none rm Hrm.
  eexists. exists (mkProcess 1 9 10).
  split; [vm_compute; reflexivity|]. split; [by right; left|no_row_of].
Qed.

Lemma Prio_same_id rm :
  range_ok rm →
  ∃ res p, Prio.SJFPrioritySchedule rm same_id_later = Done res ∧
    p ∈ same_id_later ∧
    ∀ r, r ∈ stored (out_rows (report res)) → rowArrival r ≠ ArrivalTime p.
Proof.
  intros Hrm. unfold Prio.SJFPrioritySchedule.
  eassert (Prio.loop same_id_later = Done _) as -> by (vm_compute; reflexivity).
  cbn [mbind run_bind]. unfold drain. cbn [processesLeft vars].
  range_of_none rm Hrm. cbn [group foldl]. range_of_none rm Hrm.
  eexists. exists (mkProcess 1 9 10).
  split; [vm_compute; reflexivity|]. split; [by right; left|no_row_of].
Qed.

(** *** When the preemptive schedulers return *)

Lemma room_vars0 : room 100 vars0.
Proof. split; [done|]. simpl. lia. Qed.

Lemma room_le n m v : (m ≤ n)%nat → room n v → room m v.
Proof. intros Hle [Hl Hc]. split; [done|lia]. Qed.

Lemma emit_room n row s svc v :
  room (S n) v → ∃ v', emit row s svc v = Done v' ∧ room n v'.
Proof.
  intros [Hl Hc]. unfold emit. rewrite store_ok by lia. simpl.
  eexists. split; [done|]. split; simpl; [|lia].
  by rewrite length_insert.
Qed.

Lemma index_ok {A} (l : list A) i :
  0 <= i → (Z.to_nat i < length l)%nat → ∃ x, index l i = Done x.
Proof.
  intros H0 Hi. unfold index. rewrite decide_True by done.
  destruct (lookup_lt_is_Some_2 l _ Hi) as [x ->]. by exists x.
Qed.

Lemma advance_room aTimeNums i a st :
  (i < length aTimeNums)%nat →
  ∃ st', advance aTimeNums i a st = Done st' ∧
    ∀ n, room n (vars st) → room n (vars st').
Proof.
  intros Hi. unfold advance. case_decide.
  - destruct (index_ok aTimeNums (Z.of_nat i - 1)) as [prev ->]; [lia..|].
    simpl. eexists. split; [done|]. done.
  - by exists st.
Qed.

Lemma preempt_room n aTimesMap a st :
  room (S n) (vars st) →
  ∃ st', preempt aTimesMap a st = Done st' ∧ room n (vars st').
Proof.
  intros Hr. unfold preempt.
  edestruct emit_room as (v & -> & Hv); [exact Hr|].
  simpl. eexists. split; [done|]. done.
Qed.

Lemma complete_room n aTimesMap a st :
  room (S n) (vars st) →
  ∃ st', complete aTimesMap a st = Done st' ∧ room n (vars st').
Proof.
  intros Hr. unfold complete.
  edestruct emit_room as (v & -> & Hv); [exact Hr|].
  simpl. eexists. split; [done|]. done.
Qed.

Lemma SJF_body_room n aTimesMap aTimeNums i a st :
  (i < length aTimeNums)%nat → room (1 + n) (vars st) →
  ∃ st', SJF.body aTimesMap aTimeNums i a st = Done st' ∧ room n (vars st').
Proof.
  intros Hi Hr. unfold SJF.body.
  destruct (advance_room aTimeNums i a st Hi) as (st1 & -> & H1). simpl.
  apply H1 in Hr.
  repeat case_decide.
  - exists st1. split; [done|]. eapply room_le; [|exact Hr]. lia.
  - by apply preempt_room.
  - by apply complete_room.
  - exists st1. split; [done|]. eapply room_le; [|exact Hr]. lia.
Qed.

Lemma Prio_body_room n aTimesMap aTimeNums i a st :
  (i < length aTimeNums)%nat → room (2 + n) (vars st) →
  ∃ st', Prio.body aTimesMap aTimeNums i a st = Done st' ∧ room n (vars st').
Proof.
  intros Hi Hr. unfold Prio.body.
  destruct (advance_room aTimeNums i a st Hi) as (st1 & -> & H1). simpl.
  apply H1 in Hr.
  case_decide.
  { exists st1. split; [done|]. eapply room_le; [|exact Hr]. lia. }
  assert (∃ st2,
    (if decide (Priority (aTimesMap !!! a) < Priority (currProcess st1))
     then preempt aTimesMap a st1 else Done st1) = Done st2 ∧
    room (S n) (vars st2)) as (st2 & -> & Hr2).
  { case_decide.
    - by apply preempt_room.
    - exists st1. split; [done|]. eapply room_le; [|exact Hr]. lia. }
  simpl. case_decide.
  - by apply complete_room.
  - exists st2. split; [done|]. eapply room_le; [|exact Hr2]. lia.
Qed.

(** A loop whose body stores at most [c] rows. *)
Lemma loop_room (c len : nat) (body : nat → Z → PState → run PState) :
  (∀ n i a st, (i < len)%nat → room (c + n) (vars st) →
     ∃ st', body i a st = Done st' ∧ room n (vars st')) →
  ∀ l i st n, (i + length l ≤ len)%nat →
    room (c * length l + n) (vars st) →
    ∃ st', for_range body i l st = Done st' ∧ room n (vars st').
Proof.
  intros Hbody. induction l as [|a l IH]; intros i st n Hlen Hr; simpl in *.
  - exists st. split; [done|]. eapply room_le; [|exact Hr]. lia.
  - destruct (Hbody (c * length l + n)%nat i a st) as (st1 & -> & Hr1); [lia| |].
    { eapply room_le; [|exact Hr]. lia. }
    simpl. apply IH; [lia|done].
Qed.

Lemma aTimeNums_of_length processes :
  length (aTimeNums_of processes) = length processes.
Proof.
  unfold aTimeNums_of, sort_Ints.
  by rewrite merge_sort_Permutation, length_fmap.
Qed.

Lemma SJF_loop_room processes n :
  processes ≠ [] → (length processes + n ≤ 100)%nat →
  ∃ st, SJF.loop processes = Done st ∧ room n (vars st).
Proof.
  intros Hne Hn. unfold SJF.loop.
  pose proof (aTimeNums_of_length processes) as Hlen.
  destruct (index_ok (aTimeNums_of processes) 0) as [a0 ->]; [lia| |].
  { rewrite Hlen. destruct processes; [done|]. simpl. lia. }
  simpl.
  apply (loop_room 1 (length (aTimeNums_of processes))).
  - intros m i a st Hi. by apply SJF_body_room.
  - simpl. lia.
  - simpl. eapply room_le; [|apply room_vars0]. lia.
Qed.

Lemma Prio_loop_room processes n :
  processes ≠ [] → (2 * length processes + n ≤ 100)%nat →
  ∃ st, Prio.loop processes = Done st ∧ room n (vars st).
Proof.
  intros Hne Hn. unfold Prio.loop.
  pose proof (aTimeNums_of_length processes) as Hlen.
  destruct (index_ok (aTimeNums_of processes) 0) as [a0 ->]; [lia| |].
  { rewrite Hlen. destruct processes; [done|]. simpl. lia. }
  simpl.
  apply (loop_room 2 (length (aTimeNums_of processes))).
  - intros m i a st Hi. by apply Prio_body_room.
  - simpl. lia.
  - simpl. eapply room_le; [|apply room_vars0]. lia.
Qed.

Lemma drain_one_room n p v :
  room (S n) v → ∃ v', drain_one p v = Done v' ∧ room n v'.
Proof. apply emit_room. Qed.

Lemma drain_tied_room n p v :
  room (S n) v → ∃ v', drain_tied p v = Done v' ∧ room n v'.
Proof. apply emit_room. Qed.

Lemma drain_tied_loop_room (m : gmap Z Process) l : ∀ i v n,
  room (length l + n) v →
  ∃ v', for_range (λ _ a, drain_tied (m !!! a)) i l v = Done v' ∧ room n v'.
Proof.
  induction l as [|a l IH]; intros i v n Hr; simpl in *.
  - by exists v.
  - destruct (drain_tied_room (length l + n) (m !!! a) v) as (v1 & -> & Hr1);
      [done|].
    simpl. by apply IH.
Qed.

Lemma drain_group_room procs n v :
  room (length procs + n) v →
  ∃ v', drain_group procs v = Done v' ∧ room n v'.
Proof.
  intros Hr. unfold drain_group. case_decide as Hlen.
  - destruct procs as [|p [|q procs]]; try done. simpl.
    by apply drain_one_room.
  - apply drain_tied_loop_room. by rewrite aTimeNums_of_length.
Qed.

Lemma drain_keys_room (groups : gmap Z (list Process)) ks : ∀ i v n,
  room (sum_list_with (λ k, length (groups !!! k)) ks + n) v →
  ∃ v', for_range (λ _ k, drain_group (groups !!! k)) i ks v = Done v' ∧
        room n v'.
Proof.
  induction ks as [|k ks IH]; intros i v n Hr; simpl in *.
  - by exists v.
  - destruct (drain_group_room (groups !!! k)
                (sum_list_with (λ k, length (groups !!! k)) ks + n) v)
      as (v1 & -> & Hr1).
    { eapply room_le; [|exact Hr]. lia. }
    simpl. by apply IH.
Qed.

Lemma group_total key entries k :
  group key entries !!! k = filter (λ v, key v = k) entries.*2.
Proof.
  rewrite lookup_total_alt, group_lookup.
  by destruct (filter _ entries.*2).
Qed.

(** The groups under distinct keys share no entry. *)
Lemma classes_sum {A} (key : A → Z) vals ks :
  NoDup ks →
  (sum_list_with (λ k, length (filter (λ v, key v = k) vals)) ks
   ≤ length vals)%nat.
Proof.
  intros Hnd. induction vals as [|v vals IH]; simpl.
  - clear Hnd. induction ks as [|k ks IHk]; simpl in *; lia.
  - assert (sum_list_with (λ k, length (filter (λ v0, key v0 = k) (v :: vals))) ks
            ≤ 1 + sum_list_with (λ k, length (filter (λ v0, key v0 = k) vals)) ks)%nat;
      [|lia].
    clear IH. induction Hnd as [|k ks Hk Hnd IH]; simpl; [lia|].
    rewrite filter_cons. case_decide as Hkv; simpl.
    + assert (sum_list_with (λ k, length (filter (λ v0, key v0 = k) (v :: vals))) ks
              = sum_list_with (λ k, length (filter (λ v0, key v0 = k) vals)) ks)
        as ->; [|lia].
      clear IH Hnd. induction ks as [|k' ks IH']; simpl; [done|].
      rewrite filter_cons.
      rewrite decide_False.
      * rewrite IH'; [done|]. intros ?. apply Hk. by right.
      * intros Heq. apply Hk. replace k with k' by congruence. by left.
    + lia.
Qed.

Lemma sum_list_with_eq {A} (f g : A → nat) l :
  (∀ x, f x = g x) → sum_list_with f l = sum_list_with g l.
Proof. intros H. induction l; simpl; [done|]. by rewrite H, IHl. Qed.

Lemma drain_room rm key st n :
  range_ok rm →
  room (size (processesLeft st) + n) (vars st) →
  ∃ v, drain rm key st = Done v ∧ room n v.
Proof.
  intros Hrm Hr. unfold drain.
  set (entries := rm _ (processesLeft st)).
  set (groups := group key entries).
  apply drain_keys_room.
  eapply room_le; [|exact Hr].
  apply Nat.add_le_mono_r.
  assert (size (processesLeft st) = length entries.*2) as ->.
  { subst entries. rewrite length_fmap, (Hrm _ (processesLeft st)).
    by rewrite length_map_to_list. }
  rewrite (sum_list_with_eq _
             (λ k, length (filter (λ v, key v = k) entries.*2))).
  - apply (classes_sum key).
    unfold sort_Ints. rewrite merge_sort_Permutation, (Hrm _ groups).
    apply NoDup_fst_map_to_list.
  - intros k. subst groups. by rewrite group_total.
Qed.

(** At most one process is left for each process of the input. *)
Lemma left_size processes (m : gmap Z Process) :
  keyed m → map_Forall (λ _ v, from_input processes v) m →
  (size m ≤ length processes)%nat.
Proof.
  intros Hk Hin.
  rewrite <- length_map_to_list, <- (length_fmap fst (map_to_list m)).
  rewrite <- (length_fmap ProcessID processes).
  apply submseteq_length, NoDup_submseteq; [apply NoDup_fst_map_to_list|].
  intros k ([k' v] & -> & Hkv%elem_of_map_to_list)%list_elem_of_fmap. simpl.
  destruct (Hin _ _ Hkv) as (p & Hp & Hid & _).
  rewrite <- (Hk _ _ Hkv), Hid. by apply list_elem_of_fmap_2.
Qed.

(** SJFSchedule returns on up to 50 processes and SJFPrioritySchedule on
    up to 33: the first loop stores at most one, respectively two, rows
    for each arrival, and the second one for each process left. *)
Theorem SJFSchedule_returns rm processes :
  range_ok rm → processes ≠ [] → (length processes ≤ 50)%nat →
  ∃ res, SJF.SJFSchedule rm processes = Done res.
Proof.
  intros Hrm Hne Hlen. unfold SJF.SJFSchedule.
  destruct (SJF_loop_room processes (length processes)) as (st & Hloop & Hr);
    [done|lia|].
  rewrite Hloop. simpl.
  destruct (drain_room rm BurstDuration st 0 Hrm) as (v & -> & _).
  - eapply room_le; [|exact Hr].
    rewrite Nat.add_0_r. apply left_size.
    + by apply (SJF_loop_cinv processes).
    + by apply (SJF_loop_pinv processes has_rows (has_rows_stable _)
                  st has_rows_vars0).
  - simpl. by eexists.
Qed.

Theorem SJFPrioritySchedule_returns rm processes :
  range_ok rm → processes ≠ [] → (length processes ≤ 33)%nat →
  ∃ res, Prio.SJFPrioritySchedule rm processes = Done res.
Proof.
  intros Hrm Hne Hlen. unfold Prio.SJFPrioritySchedule.
  destruct (Prio_loop_room processes (length processes)) as (st & Hloop & Hr);
    [done|lia|].
  rewrite Hloop. simpl.
  destruct (drain_room rm Priority st 0 Hrm) as (v & -> & _).
  - eapply room_le; [|exact Hr].
    rewrite Nat.add_0_r. apply left_size.
    + by apply (Prio_loop_cinv processes).
    + by apply (Prio_loop_pinv processes has_rows (has_rows_stable _)
                  st has_rows_vars0).
  - simpl. by eexists.
Qed.

(** *** When round-robin returns *)

Lemma visits_lt b : b < 3 → visits b = 1%nat.
Proof. intros H. unfold visits. by rewrite chunks_lt. Qed.

Lemma visits_step b : 3 < b → visits b = S (visits (b - 3)).
Proof. intros H. unfold visits. by rewrite chunks_step. Qed.

Lemma todo_delete m k q :
  m !! k = Some q → todo m = (visits (BurstDuration q) + todo (delete k m))%nat.
Proof.
  intros H. unfold todo. by rewrite <- (map_to_list_delete m k q H).
Qed.

Lemma todo_insert m k q' :
  todo (<[k := q']> m) = (visits (BurstDuration q') + todo (delete k m))%nat.
Proof.
  unfold todo. rewrite <- insert_delete_eq.
  rewrite map_to_list_insert by apply lookup_delete_eq. done.
Qed.

Lemma visit_room p st n :
  keyed (RR.remProcesses st) → bursts_in_range (RR.remProcesses st) →
  room (todo (RR.remProcesses st) + n) (RR.rvars st) →
  ∃ st', RR.visit p st = Done st' ∧
    keyed (RR.remProcesses st') ∧ bursts_in_range (RR.remProcesses st') ∧
    room (todo (RR.remProcesses st') + n) (RR.rvars st').
Proof.
  intros Hk Hb Hr. unfold RR.visit.
  destruct (RR.remProcesses st !! ProcessID p) as [process|] eqn:E.
  2:{ exists st. done. }
  assert (ProcessID process = ProcessID p) as Hid by (by eapply Hk).
  pose proof (Hb _ _ E) as Hrange. simpl in Hrange.
  rewrite (todo_delete _ _ _ E) in Hr.
  unfold RR.timeQ. case_decide as Hlt.
  - rewrite visits_lt in Hr by done.
    edestruct emit_room as (v & -> & Hrv); [exact Hr|].
    eexists. split; [done|]. cbn [RR.remProcesses RR.rvars].
    split; [by apply map_Forall_delete|].
    split; [by apply map_Forall_delete|]. by rewrite Hid.
  - assert (Int64.sub (BurstDuration process) 3 = BurstDuration process - 3)
      as Hsub.
    { apply Int64Facts.sub_small. unfold Int64.in_range in *. lia. }
    assert (∃ m, visits (BurstDuration process) = S m ∧
              (BurstDuration process - 3 = 0 → m = 0%nat) ∧
              (BurstDuration process - 3 ≠ 0 →
               m = visits (BurstDuration process - 3))) as (m & Hm & Hm0 & Hm1).
    { destruct (decide (BurstDuration process = 3)) as [->|Hne].
      - exists 0%nat. split; [done|]. split; [done|]. lia.
      - exists (visits (BurstDuration process - 3)).
        split; [apply visits_step; lia|]. split; [lia|done]. }
    rewrite Hm in Hr.
    edestruct emit_room as (v & -> & Hrv); [exact Hr|].
    cbn [mbind run_bind with_burst BurstDuration ProcessID]. rewrite Hsub.
    case_decide as Hz; (eexists; split; [done|]);
      cbn [RR.remProcesses RR.rvars].
    + split; [by apply map_Forall_delete|].
      split; [by apply map_Forall_delete|].
      rewrite Hid. rewrite (Hm0 Hz) in Hrv. done.
    + split; [by apply map_Forall_insert_2|]. split.
      * apply map_Forall_insert_2; [|done]. unfold with_burst. simpl.
        unfold Int64.in_range in *. lia.
      * rewrite todo_insert. unfold with_burst.
        cbn [BurstDuration ProcessID]. rewrite Hid.
        rewrite (Hm1 Hz) in Hrv. exact Hrv.
Qed.

Lemma pass_room l : ∀ i st n,
  keyed (RR.remProcesses st) → bursts_in_range (RR.remProcesses st) →
  room (todo (RR.remProcesses st) + n) (RR.rvars st) →
  ∃ st', for_range (λ _ p, RR.visit p) i l st = Done st' ∧
    keyed (RR.remProcesses st') ∧ bursts_in_range (RR.remProcesses st') ∧
    room (todo (RR.remProcesses st') + n) (RR.rvars st').
Proof.
  induction l as [|p l IH]; intros i st n Hk Hb Hr; simpl.
  - by exists st.
  - destruct (visit_room p st n Hk Hb Hr) as (st1 & -> & Hk1 & Hb1 & Hr1).
    simpl. by apply IH.
Qed.

Lemma loop_no_panic fuel l : ∀ st n,
  keyed (RR.remProcesses st) → bursts_in_range (RR.remProcesses st) →
  room (todo (RR.remProcesses st) + n) (RR.rvars st) →
  RR.loop fuel l st ≠ Panic.
Proof.
  induction fuel as [|fuel IH]; intros st n Hk Hb Hr; simpl;
    case_decide; try done.
  destruct (pass_room l 0 st n Hk Hb Hr) as (st1 & Hp & Hk1 & Hb1 & Hr1).
  unfold RR.pass. rewrite Hp. simpl. by eapply IH.
Qed.

Lemma sum_list_with_submseteq {A} (f : A → nat) l k :
  l ⊆+ k → (sum_list_with f l ≤ sum_list_with f k)%nat.
Proof. induction 1; simpl; lia. Qed.

Lemma sum_list_with_fmap {A B} (f : B → nat) (g : A → B) l :
  sum_list_with f (g <$> l) = sum_list_with (λ x, f (g x)) l.
Proof.
  induction l as [|x l IH]; [done|].
  rewrite fmap_cons. cbn [sum_list_with]. by rewrite IH.
Qed.

Lemma todo_fill l :
  (todo (foldl (λ m p, <[ProcessID p := p]> m) ∅ l)
   ≤ sum_list_with (λ p, visits (BurstDuration p)) l)%nat.
Proof.
  unfold todo.
  apply (Nat.le_trans _
    (sum_list_with (λ kv, visits (BurstDuration kv.2))
       ((λ p, (ProcessID p, p)) <$> l))).
  - apply sum_list_with_submseteq, NoDup_submseteq; [apply NoDup_map_to_list|].
    intros [k v] Hkv%elem_of_map_to_list.
    apply fill_lookup in Hkv as [[Hin <-]|H]; [|by rewrite lookup_empty in H].
    by apply (list_elem_of_fmap_2 (λ p, (ProcessID p, p))).
  - by rewrite sum_list_with_fmap.
Qed.

(** RRSchedule returns when the visits its processes take fit the row
    buffer. *)
Theorem RRSchedule_returns srt processes :
  sort_ok srt →
  Forall (λ p, Int64.in_range (BurstDuration p)) processes →
  (sum_list_with (λ p, visits (BurstDuration p)) processes ≤ 100)%nat →
  ∃ res, RR.RRSchedule srt processes = Done res.
Proof.
  intros Hsrt Hrange Hsum.
  pose proof (RRSchedule_total srt processes Hsrt) as Hfuel.
  unfold RR.RRSchedule in *. cbv zeta in *.
  destruct (RR.loop _ _ _) as [st| |] eqn:Hloop.
  - by eexists.
  - exfalso. revert Hloop.
    apply (loop_no_panic _ _ _
      (100 - todo (foldl (λ m p, <[ProcessID p := p]> m) ∅ processes))).
    + apply keyed_fill.
    + intros k v Hv. cbn [RR.remProcesses] in Hv.
      apply fill_lookup in Hv as [[Hin _]|H]; [|by rewrite lookup_empty in H].
      rewrite Forall_forall in Hrange. by apply Hrange.
    + cbn [RR.remProcesses RR.rvars].
      pose proof (todo_fill processes). split; [done|].
      change (ct vars0) with 0%nat. lia.
  - by exfalso.
Qed.

(** A run of SJFPrioritySchedule that returns, at an arrival after the
    first for which the map from arrival times holds a process with a
    smaller priority value than the running one. *)
Lemma Prio_preempts_at rm processes res i a st :
  range_ok rm →
  Prio.SJFPrioritySchedule rm processes = Done res →
  i ≠ 0%nat →
  aTimeNums_of processes !! i = Some a →
  Prio_upto processes i = Done st →
  Priority (aTimesMap_of processes !!! a) < Priority (currProcess st) →
  ∃ rows rest stop slices st',
    filled (vars st) rows ∧
    stored (out_rows (report res)) = rows ++ preempted_row st a :: rest ∧
    out_gantt (report res) =
      gantt (vars st) ++
      {| PID := ProcessID (currProcess st); Start := start st; Stop := stop |}
      :: slices ∧
    Prio_upto processes (S i) = Done st' ∧
    currProcess st' = aTimesMap_of processes !!! a ∧
    start st' = a.
Proof.
  intros Hrm Hrun Hi Ha Hst Hprio.
  apply bind_Done in Hrun as (stf & Hloop & (v & Hv & [= <-])%bind_Done).
  pose proof Hloop as Hloop'.
  rewrite (Prio_loop_split _ _ _ Ha), Hst in Hloop. simpl in Hloop.
  apply bind_Done in Hloop as (st' & Hbody & Hrest).
  pose proof (Prio_upto_pinv _ _ _ _ (has_rows_stable _) has_rows_vars0 Hst)
    as Hpinv.
  destruct Hpinv as ([rows Hrows] & Hcurr & Hleft).
  destruct (Prio_body_preempts _ _ _ _ _ _ _ Hi Hprio Hrows Hbody)
    as (Hc' & Hs' & stop & Hb).
  assert (pinv processes has_rows st') as Hpinv'.
  { eapply Prio_body_pinv; [apply has_rows_stable| | |exact Hbody].
    - eapply aTimesMap_from_input, list_elem_of_lookup_2, Ha.
    - split; [by exists rows|done]. }
  set (slice := {| PID := ProcessID (currProcess st); Start := start st;
                   Stop := stop |}) in *.
  assert (begins (rows ++ [preempted_row st a]) (gantt (vars st) ++ [slice]) v)
    as (rest & slices & Hfv & Hgv).
  { eapply drain_I; [apply begins_stable|done| |exact Hv].
    eapply Prio_rest_pinv; [apply begins_stable| |exact Hrest].
    destruct Hpinv' as (_ & ? & ?). done. }
  exists rows, rest, stop, slices, st'.
  split; [done|]. split.
  { simpl. rewrite (filled_stored _ _ Hfv), <- app_assoc. done. }
  split.
  { simpl. rewrite Hgv, <- app_assoc. done. }
  split.
  { unfold Prio_upto in *.
    destruct (index (aTimeNums_of processes) 0) as [a0| |]; simpl in *; try done.
    rewrite (take_S_r _ _ _ Ha), for_range_app, Hst. simpl.
    rewrite length_take_le, Hbody; [done|].
    apply lookup_lt_Some in Ha. lia. }
  done.
Qed.

(** ** The claims *)

(** C1: in each of the four schedulers every stored row belongs to a
    process of the input, and its turnaround is its exit minus the
    arrival of that process.  The subtraction is Go's on int64; it is the
    integer difference whenever that difference is an int64. *)
Theorem C1_turnaround rm srt processes res :
  range_ok rm →
  FCFS.FCFSSchedule processes = Done res ∨
  SJF.SJFSchedule rm processes = Done res ∨
  Prio.SJFPrioritySchedule rm processes = Done res ∨
  RR.RRSchedule srt processes = Done res →
  ∀ r, r ∈ stored (out_rows (report res)) →
    ∃ p, p ∈ processes ∧ row_of p r ∧
      rowTurnaround r = Int64.sub (rowExit r) (ArrivalTime p) ∧
      (Int64.in_range (rowExit r - ArrivalTime p) →
       rowTurnaround r = rowExit r - ArrivalTime p).
Proof.
  intros Hrm Hrun.
  enough (Forall (span_row processes) (stored (out_rows (report res)))) as H.
  { intros r Hr. rewrite Forall_forall in H.
    destruct (H r Hr) as (p & Hp & Hrow & Ht).
    exists p. repeat split; try done; try apply Hrow.
    intros Hrange. by rewrite Ht, Int64Facts.sub_small. }
  destruct Hrun as [Hrun|[Hrun|[Hrun|Hrun]]].
  - destruct (FCFSSchedule_rows processes) as (res' & Hres & _ & Hrows & _).
    rewrite Hres in Hrun. injection Hrun as <-.
    rewrite Hrows, stored_Some. by apply fcfs_rows_span.
  - eapply (SJF_vars_ind processes _ (rows_all_stable _)) in Hrun
      as (v & -> & Hv); [|done|apply rows_all_vars0].
    by apply rows_all_stored.
  - eapply (Prio_vars_ind processes _ (rows_all_stable _)) in Hrun
      as (v & -> & Hv); [|done|apply rows_all_vars0].
    by apply rows_all_stored.
  - eapply (RR_vars_ind processes (rows_all (span_row processes))) in Hrun
      as (v & -> & Hv); [| |apply rows_all_vars0].
    + by apply rows_all_stored.
    + eapply stable_weaken; [|apply rows_all_stable]. by intros r [? _].
Qed.

Lemma C1_turnaround_witness :
  ∃ res, SJF.SJFSchedule range_fixed three_processes = Done res ∧
    ∀ r, r ∈ stored (out_rows (report res)) →
      ∃ p, p ∈ three_processes ∧ row_of p r ∧
        rowTurnaround r = Int64.sub (rowExit r) (ArrivalTime p) ∧
        (Int64.in_range (rowExit r - ArrivalTime p) →
         rowTurnaround r = rowExit r - ArrivalTime p).
Proof.
  eexists. split; [vm_compute; reflexivity|].
  apply (C1_turnaround range_fixed sort_stable three_processes _ range_fixed_ok).
  right. left. vm_compute. reflexivity.
Defined.

(** C2: on the two processes (1, burst 5, arrival 0) and (2, burst 3,
    arrival 1), FCFSSchedule stores exactly two rows: process 1 with wait
    0, turnaround 5, exit 5, and process 2 with wait 4, turnaround 7,
    exit 8. *)
Theorem C2_fcfs_example :
  ∃ res, FCFS.FCFSSchedule two_processes = Done res ∧
    out_rows (report res) = [Some (R 1 0 5 0 0 5 5); Some (R 2 0 3 1 4 7 8)].
Proof. eexists. split; vm_compute; reflexivity. Qed.

(** C3, the code at two inputs.  In [missed_preemption], process 2
    (burst 10) has run since time 2 when process 3 (burst 7) arrives at
    time 4: 8 units remain, yet process 2 is not preempted and exits at
    12, because the test takes the arrival time 4 for the time executed.
    In [three_processes], process 2 (burst 20) is preempted at time 4
    after 2 units, and its stored burst drops by 4, to 16. *)
Theorem C3_sjf_elapsed_time :
  rows_of (SJF.SJFSchedule range_fixed missed_preemption)
  = Some [R 1 0 2 0 0 2 2; R 2 0 10 2 2 10 12; R 3 0 7 4 12 15 19] ∧
  rows_of (SJF.SJFSchedule range_fixed three_processes)
  = Some [R 1 0 2 0 0 2 2; R 2 0 2 2 2 2 4; R 3 0 3 4 4 3 7;
          R 2 0 16 2 7 21 23].
Proof. split; vm_compute; reflexivity. Qed.

(** C4, as amended.  RRSchedule returns when the visits of its processes
    fit the row buffer.  In a run that returns, no stored row has a Burst
    greater than 3, and a process with an id of its own and burst 7 has
    exactly three rows, with Burst 3, 3 and 1 (in general the [chunks] of
    its burst).  A visit to a process that is left stores one row and
    either, when its remaining burst is less than 3, serves all of it and
    removes the process, or serves 3, takes 3 off the remaining burst,
    and removes the process when nothing remains and keeps it for the
    next pass otherwise. *)
Theorem C4_round_robin srt processes :
  sort_ok srt →
  (Forall (λ p, Int64.in_range (BurstDuration p)) processes →
   (sum_list_with (λ p, visits (BurstDuration p)) processes ≤ 100)%nat →
   ∃ res, RR.RRSchedule srt processes = Done res) ∧
  (∀ res, RR.RRSchedule srt processes = Done res →
     (∀ r, r ∈ stored (out_rows (report res)) → rowBurst r <= 3) ∧
     (∀ p, p ∈ processes →
           (∀ q, q ∈ processes → ProcessID q = ProcessID p → q = p) →
           (BurstDuration p = 7 →
            served (ProcessID p) (stored (out_rows (report res)))
            = [3; 3; 1]) ∧
           (Int64.in_range (BurstDuration p) →
            served (ProcessID p) (stored (out_rows (report res)))
            = chunks (BurstDuration p)))) ∧
  (∀ p st st' process rows,
     RR.remProcesses st !! ProcessID p = Some process →
     filled (RR.rvars st) rows →
     RR.visit p st = Done st' →
     ∃ row,
       filled (RR.rvars st') (rows ++ [row]) ∧
       rowID row = ProcessID process ∧
       rowWait row = serviceTime (RR.rvars st) ∧
       (BurstDuration process < 3 →
        rowBurst row = BurstDuration process ∧
        RR.remProcesses st' = delete (ProcessID process) (RR.remProcesses st)) ∧
       (3 <= BurstDuration process →
        rowBurst row = 3 ∧
        RR.remProcesses st' =
          if decide (Int64.sub (BurstDuration process) 3 = 0)
          then delete (ProcessID process) (RR.remProcesses st)
          else <[ProcessID process :=
                   with_burst process (Int64.sub (BurstDuration process) 3)]>
                 (RR.remProcesses st))).
Proof.
  intros Hsrt. split; [by apply RRSchedule_returns|]. split; [|apply visit_spec].
  intros res Hrun. split.
  - pose proof Hrun as Hrun'.
    eapply (RR_vars_ind processes (rows_all (λ r, rowBurst r <= 3))) in Hrun'
      as (v & -> & Hv); [| |apply rows_all_vars0].
    + intros r Hr. apply (Hv r). by apply elem_of_stored.
    + eapply stable_weaken; [|apply rows_all_stable]. by intros r [_ ?].
  - intros p Hp Huniq. split.
    + intros H7. rewrite (RR_served _ _ _ _ Hrun Hp Huniq).
      * by rewrite H7.
      * rewrite H7. unfold Int64.in_range. lia.
    + intros Hr. by eapply RR_served.
Qed.

Lemma C4_round_robin_witness :
  ∃ res, RR.RRSchedule sort_stable seven_and_two = Done res ∧
    stored (out_rows (report res)) =
      [R 1 0 3 0 0 3 3; R 2 0 2 1 3 4 5; R 1 0 3 0 5 8 8; R 1 0 1 0 8 9 9] ∧
    (∀ r, r ∈ stored (out_rows (report res)) → rowBurst r <= 3) ∧
    served 1 (stored (out_rows (report res))) = [3; 3; 1].
Proof.
  eexists. split; [vm_compute; reflexivity|].
  split; [vm_compute; reflexivity|].
  eassert (RR.RRSchedule sort_stable seven_and_two = Done _) as Hrun
    by (vm_compute; reflexivity).
  destruct (proj1 (proj2 (C4_round_robin sort_stable seven_and_two
                            sort_stable_ok)) _ Hrun) as (Hle & Hserved).
  split; [exact Hle|].
  destruct (Hserved (mkProcess 1 7 0)) as [H7 _].
  - by left.
  - intros q [->|[->|[]%elem_of_nil]%elem_of_cons]%elem_of_cons; [done|].
    intros [=].
  - apply H7. reflexivity.
Defined.

(** C4 as stated fails in two places.  It has the process requeued
    whenever its remaining burst is not less than 3: a process with burst
    3 is served 3 and removed, and has that one row.  And the three rows
    of a burst of 7 need an id of the process's own: of two processes
    under the id 1, with bursts 7 and 4, the map holds the second, and
    the rows under that id serve 3 and 1. *)
Lemma C4_burst_3_removed :
  (∃ st', RR.visit (mkProcess 1 3 0)
            {| RR.rvars := vars0;
               RR.remProcesses := {[ 1 := mkProcess 1 3 0 ]} |} = Done st' ∧
     RR.remProcesses st' = ∅) ∧
  rows_of (RR.RRSchedule sort_stable [mkProcess 1 3 0])
  = Some [R 1 0 3 0 0 3 3] ∧
  rows_of (RR.RRSchedule sort_stable shared_id)
  = Some [R 1 0 3 1 0 2 3; R 1 0 1 1 3 3 4].
Proof.
  split.
  - eexists. split; vm_compute; reflexivity.
  - split; vm_compute; reflexivity.
Qed.

(** C5: FCFSSchedule always returns, and the row of the process [p] that
    follows the processes [pre] has as waiting time the cumulative
    service time of [pre] minus the arrival of [p] when that arrival is
    greater than 0, and otherwise the waiting time of the row before it
    (0 when there is none). *)
Theorem C5_fcfs_waiting pre p post :
  ∃ res r,
    FCFS.FCFSSchedule (pre ++ p :: post) = Done res ∧
    stored (out_rows (report res)) !! length pre = Some r ∧
    row_of p r ∧
    rowWait r =
      if decide (ArrivalTime p > 0)
      then Int64.sub (service_after 0 pre) (ArrivalTime p)
      else wait_after 0 (take (length pre) (stored (out_rows (report res)))).
Proof.
  destruct (FCFSSchedule_rows (pre ++ p :: post)) as (res & Hres & _ & Hrows & _).
  exists res.
  rewrite Hrows, stored_Some, fcfs_rows_app. cbn [fcfs_rows].
  set (rows := fcfs_rows 0 0 pre).
  assert (length rows = length pre) as Hlen by apply fcfs_rows_length.
  eexists. split; [done|]. split.
  - rewrite lookup_app_r by lia. by rewrite Hlen, Nat.sub_diag.
  - split; [done|].
    rewrite <- Hlen, take_app_length. simpl. done.
Qed.

(** C6: in each scheduler the reported throughput is the number of
    stored rows divided by the exit of the last stored row (by 0.0 when
    no row was stored), as float64 values. *)
Theorem C6_throughput rm srt processes res :
  range_ok rm →
  FCFS.FCFSSchedule processes = Done res ∨
  SJF.SJFSchedule rm processes = Done res ∨
  Prio.SJFPrioritySchedule rm processes = Done res ∨
  RR.RRSchedule srt processes = Done res →
  let rows := stored (out_rows (report res)) in
  aveThroughput (report res) =
  PrimFloat.div (float64 (Z.of_nat (length rows))) (last_exit (float64 0) rows).
Proof.
  intros Hrm [Hrun|[Hrun|[Hrun|Hrun]]].
  - destruct (FCFSSchedule_rows processes) as (res' & Hres & _ & Hrows & Ht).
    rewrite Hres in Hrun. injection Hrun as <-. simpl.
    by rewrite Ht, Hrows, stored_Some, fcfs_rows_length.
  - eapply (SJF_vars_ind processes _ (counted_stable _)) in Hrun
      as (v & -> & Hv); [|done|apply counted_vars0].
    by apply counted_throughput.
  - eapply (Prio_vars_ind processes _ (counted_stable _)) in Hrun
      as (v & -> & Hv); [|done|apply counted_vars0].
    by apply counted_throughput.
  - eapply (RR_vars_ind processes _ (counted_stable _)) in Hrun
      as (v & -> & Hv); [|apply counted_vars0].
    by apply counted_throughput.
Qed.

(** Three processes, four rows: the throughput is 4 / 23. *)
Lemma C6_throughput_witness :
  ∃ res, SJF.SJFSchedule range_fixed three_processes = Done res ∧
    length (stored (out_rows (report res))) = 4%nat ∧
    aveThroughput (report res) = PrimFloat.div (float64 4) (float64 23).
Proof.
  eexists. split; [vm_compute; reflexivity|]. split; [vm_compute; reflexivity|].
  rewrite (C6_throughput range_fixed sort_stable three_processes _ range_fixed_ok).
  - vm_compute. reflexivity.
  - right. left. vm_compute. reflexivity.
Defined.

(** C7, as amended: FCFSSchedule, SJFSchedule and SJFPrioritySchedule
    leave the caller's slice as it was; RRSchedule leaves it sorted by
    arrival time, a rearrangement of the same Process values. *)
Theorem C7_input_slice rm srt processes res :
  sort_ok srt →
  (FCFS.FCFSSchedule processes = Done res ∨
   SJF.SJFSchedule rm processes = Done res ∨
   Prio.SJFPrioritySchedule rm processes = Done res →
   processes_after res = processes) ∧
  (RR.RRSchedule srt processes = Done res →
   processes_after res = srt processes ∧
   processes_after res ≡ₚ processes ∧
   StronglySorted by_arrival (processes_after res)).
Proof.
  intros Hsrt. split.
  - intros [Hrun|[Hrun|Hrun]].
    + by apply bind_Done in Hrun as (st & _ & [= <-]).
    + by apply bind_Done in Hrun as (st & _ & (v & _ & [= <-])%bind_Done).
    + by apply bind_Done in Hrun as (st & _ & (v & _ & [= <-])%bind_Done).
  - intros (st & _ & [= <-])%bind_Done. simpl.
    destruct (Hsrt processes). done.
Qed.

Lemma C7_input_slice_witness :
  ∃ res, RR.RRSchedule sort_stable late_first = Done res ∧
    processes_after res = sort_stable late_first ∧
    processes_after res ≡ₚ late_first ∧
    StronglySorted by_arrival (processes_after res).
Proof.
  eexists. split; [vm_compute; reflexivity|].
  apply (C7_input_slice range_fixed sort_stable late_first _ sort_stable_ok).
  vm_compute. reflexivity.
Defined.

(** C7 as stated fails: RRSchedule called on a slice whose first process
    arrives after the second returns with the two swapped. *)
Lemma C7_rr_reorders :
  ∃ res, RR.RRSchedule sort_stable late_first = Done res ∧
    processes_after res = [mkProcess 2 3 0; mkProcess 1 5 5] ∧
    processes_after res ≠ late_first.
Proof. eexists. split; [vm_compute; reflexivity|]. split; [reflexivity|done]. Qed.

(** C8, as amended.  SJFPrioritySchedule returns on up to 33 processes.
    In a run that returns, let [p] be the last process of the input with
    its arrival time (any process, when the arrival times are distinct),
    reached by the first loop at an index [i] other than 0 with the
    locals [st].  If the priority value of [p] is smaller than that of
    the running process, the row that reports the running process as
    preempted at the arrival of [p] is the next row of the report, a
    segment of the running process is the next of the timeline, and [p]
    is the running process from then on, started at its arrival.  No
    burst enters the condition. *)
Theorem C8_priority_preempts rm processes :
  range_ok rm →
  (processes ≠ [] → (length processes ≤ 33)%nat →
   ∃ res, Prio.SJFPrioritySchedule rm processes = Done res) ∧
  ∀ pre p post res i st,
    processes = pre ++ p :: post →
    Forall (λ q, ArrivalTime q ≠ ArrivalTime p) post →
    Prio.SJFPrioritySchedule rm processes = Done res →
    i ≠ 0%nat →
    aTimeNums_of processes !! i = Some (ArrivalTime p) →
    Prio_upto processes i = Done st →
    Priority p < Priority (currProcess st) →
    ∃ rows rest stop slices st',
      filled (vars st) rows ∧
      stored (out_rows (report res))
      = rows ++ preempted_row st (ArrivalTime p) :: rest ∧
      out_gantt (report res) =
        gantt (vars st) ++
        {| PID := ProcessID (currProcess st); Start := start st; Stop := stop |}
        :: slices ∧
      Prio_upto processes (S i) = Done st' ∧
      currProcess st' = p ∧
      start st' = ArrivalTime p.
Proof.
  intros Hrm. split; [by apply SJFPrioritySchedule_returns|].
  intros pre p post res i st Hsplit Hpost Hrun Hi Ha Hst Hprio.
  assert (aTimesMap_of processes !!! ArrivalTime p = p) as Hp.
  { apply lookup_total_correct. rewrite Hsplit. unfold aTimesMap_of.
    by apply fill_last. }
  rewrite <- Hp in Hprio.
  destruct (Prio_preempts_at rm processes res i _ st Hrm Hrun Hi Ha Hst Hprio)
    as (rows & rest & stop & slices & st' & H1 & H2 & H3 & H4 & H5 & H6).
  exists rows, rest, stop, slices, st'. rewrite Hp in H5. done.
Qed.

Lemma C8_priority_preempts_witness :
  ∃ res st,
    Prio.SJFPrioritySchedule range_fixed urgent_second = Done res ∧
    Prio_upto urgent_second 1 = Done st ∧
    currProcess st = mkProcessP 1 10 0 5 ∧
    stored (out_rows (report res)) =
      [R 1 5 3 0 0 3 3; R 2 1 4 3 3 4 7; R 1 5 7 0 7 14 14] ∧
    ∃ rows rest stop slices st',
      filled (vars st) rows ∧
      stored (out_rows (report res)) = rows ++ preempted_row st 3 :: rest ∧
      out_gantt (report res) =
        gantt (vars st) ++
        {| PID := ProcessID (currProcess st); Start := start st; Stop := stop |}
        :: slices ∧
      Prio_upto urgent_second 2 = Done st' ∧
      currProcess st' = mkProcessP 2 4 3 1 ∧
      start st' = 3.
Proof.
  do 2 eexists.
  split; [vm_compute; reflexivity|].
  split; [vm_compute; reflexivity|].
  split; [vm_compute; reflexivity|].
  split; [vm_compute; reflexivity|].
  eapply (proj2 (C8_priority_preempts range_fixed urgent_second range_fixed_ok)
            [mkProcessP 1 10 0 5] (mkProcessP 2 4 3 1) [] _ 1%nat).
  - reflexivity.
  - constructor.
  - vm_compute. reflexivity.
  - done.
  - vm_compute. reflexivity.
  - vm_compute. reflexivity.
  - vm_compute. reflexivity.
Defined.

(** C8 as stated fails when two processes arrive together.  In
    [shadowed], process 2 arrives at 3 with priority 1 while process 1,
    of priority 5, runs; the map from arrival times holds process 3 for
    that instant, process 1 is not preempted, and its one row has it
    exit at 100. *)
Lemma C8_tied_arrival_ignored :
  rows_of (Prio.SJFPrioritySchedule range_fixed shadowed)
  = Some [R 1 5 100 0 0 100 100; R 2 1 5 3 100 102 105;
          R 3 9 5 3 105 107 110].
Proof. vm_compute. reflexivity. Qed.

(** C9, as amended: on no process at all FCFSSchedule and RRSchedule
    return, and their three aggregates are NaN (0.0 / 0.0). *)
Theorem C9_empty_input srt :
  sort_ok srt →
  ∃ r1 r2,
    FCFS.FCFSSchedule [] = Done r1 ∧ RR.RRSchedule srt [] = Done r2 ∧
    PrimFloat.is_nan (aveWait (report r1)) = true ∧
    PrimFloat.is_nan (aveTurnaround (report r1)) = true ∧
    PrimFloat.is_nan (aveThroughput (report r1)) = true ∧
    PrimFloat.is_nan (aveWait (report r2)) = true ∧
    PrimFloat.is_nan (aveTurnaround (report r2)) = true ∧
    PrimFloat.is_nan (aveThroughput (report r2)) = true ∧
    stored (out_rows (report r1)) = [] ∧ stored (out_rows (report r2)) = [].
Proof.
  intros Hsrt.
  assert (srt [] = []) as Hnil.
  { apply Permutation_nil_r. apply (Hsrt []). }
  unfold RR.RRSchedule. rewrite Hnil.
  do 2 eexists. split; [vm_compute; reflexivity|].
  split; [vm_compute; reflexivity|].
  repeat split; vm_compute; reflexivity.
Qed.

Lemma C9_empty_input_witness :
  ∃ r1 r2,
    FCFS.FCFSSchedule [] = Done r1 ∧ RR.RRSchedule sort_stable [] = Done r2 ∧
    PrimFloat.is_nan (aveWait (report r1)) = true ∧
    PrimFloat.is_nan (aveTurnaround (report r1)) = true ∧
    PrimFloat.is_nan (aveThroughput (report r1)) = true ∧
    PrimFloat.is_nan (aveWait (report r2)) = true ∧
    PrimFloat.is_nan (aveTurnaround (report r2)) = true ∧
    PrimFloat.is_nan (aveThroughput (report r2)) = true ∧
    stored (out_rows (report r1)) = [] ∧ stored (out_rows (report r2)) = [].
Proof. exact (C9_empty_input sort_stable sort_stable_ok). Defined.

(** C9 as stated fails: on no process SJFSchedule and SJFPrioritySchedule
    never reach their aggregates; [aTimeNums[0]] is out of range. *)
Lemma C9_sjf_empty_panics :
  SJF.SJFSchedule range_fixed [] = Panic ∧
  Prio.SJFPrioritySchedule range_fixed [] = Panic.
Proof. split; vm_compute; reflexivity. Qed.

(** C10, as amended, whatever the order in which a range over a map
    yields its entries.  The loops of SJFSchedule end without a panic on
    1 to 50 processes, and those of SJFPrioritySchedule on 1 to 33.
    When the arrival times of the input are pairwise distinct, its ids
    are pairwise distinct and the scheduler reaches its output calls,
    the input was not empty and every input process has a row with its
    id, its arrival time and its priority among the rows handed over,
    and a segment with its id in the timeline.  Both conditions are
    needed.  On three processes that arrive together the two schedulers
    hand over no row with the id of one of them; on two processes under
    one id, they hand over no row with the arrival time of one of
    them. *)
Theorem C10_every_process_reported rm :
  range_ok rm →
  (∀ processes, processes ≠ [] →
     ((length processes ≤ 50)%nat →
      ∃ res, SJF.SJFSchedule rm processes = Done res) ∧
     ((length processes ≤ 33)%nat →
      ∃ res, Prio.SJFPrioritySchedule rm processes = Done res)) ∧
  (∀ processes res,
     NoDup (ArrivalTime <$> processes) →
     NoDup (ProcessID <$> processes) →
     SJF.SJFSchedule rm processes = Done res ∨
     Prio.SJFPrioritySchedule rm processes = Done res →
     processes ≠ [] ∧
     ∀ p, p ∈ processes →
       (∃ r, r ∈ stored (out_rows (report res)) ∧ row_of p r) ∧
       (∃ s, s ∈ out_gantt (report res) ∧ PID s = ProcessID p)) ∧
  (∃ res p, SJF.SJFSchedule rm tied_arrivals = Done res ∧
     p ∈ tied_arrivals ∧
     ∀ r, r ∈ stored (out_rows (report res)) → rowID r ≠ ProcessID p) ∧
  (∃ res p, Prio.SJFPrioritySchedule rm tied_arrivals = Done res ∧
     p ∈ tied_arrivals ∧
     ∀ r, r ∈ stored (out_rows (report res)) → rowID r ≠ ProcessID p) ∧
  (∃ res p, SJF.SJFSchedule rm same_id_later = Done res ∧
     p ∈ same_id_later ∧
     ∀ r, r ∈ stored (out_rows (report res)) →
       rowArrival r ≠ ArrivalTime p) ∧
  (∃ res p, Prio.SJFPrioritySchedule rm same_id_later = Done res ∧
     p ∈ same_id_later ∧
     ∀ r, r ∈ stored (out_rows (report res)) →
       rowArrival r ≠ ArrivalTime p).
Proof.
  intros Hrm.
  split.
  { intros processes Hne. split; intros Hlen.
    - by apply SJFSchedule_returns.
    - by apply SJFPrioritySchedule_returns. }
  split; [|split; [by apply SJF_tied_arrivals|]; split;
           [by apply Prio_tied_arrivals|];
           split; [by apply SJF_same_id|by apply Prio_same_id]].
  intros processes res Hnd Hids Hrun.
  assert (Forall (span_row processes) (stored (out_rows (report res)))) as Hspan.
  { destruct Hrun as [Hrun|Hrun].
    - eapply (SJF_vars_ind processes _ (rows_all_stable _)) in Hrun
        as (v & -> & Hv); [|done|apply rows_all_vars0].
      by apply rows_all_stored.
    - eapply (Prio_vars_ind processes _ (rows_all_stable _)) in Hrun
        as (v & -> & Hv); [|done|apply rows_all_vars0].
      by apply rows_all_stored. }
  rewrite Forall_forall in Hspan.
  assert (processes ≠ [] ∧ ∀ p, p ∈ processes →
    (∃ r, r ∈ stored (out_rows (report res)) ∧ rowID r = ProcessID p) ∧
    (∃ s, s ∈ out_gantt (report res) ∧ PID s = ProcessID p)) as [Hne Hall].
  { destruct Hrun as [Hrun|Hrun];
      apply bind_Done in Hrun as (st & Hloop & (v & Hv & [= <-])%bind_Done).
    - split.
      + intros ->. vm_compute in Hloop. done.
      + intros p Hp. apply covers_report.
        eapply loops_report_everyone; [done|done| | |exact Hv|done].
        * apply SJF_loop_pinv; [apply has_rows_stable|apply has_rows_vars0|done].
        * by apply SJF_loop_cinv.
    - split.
      + intros ->. vm_compute in Hloop. done.
      + intros p Hp. apply covers_report.
        eapply loops_report_everyone; [done|done| | |exact Hv|done].
        * apply Prio_loop_pinv; [apply has_rows_stable|apply has_rows_vars0|done].
        * by apply Prio_loop_cinv. }
  split; [done|]. intros p Hp.
  destruct (Hall p Hp) as [(r & Hr & Hid) Hs].
  split; [|done]. exists r. split; [done|].
  eapply span_row_of; eauto.
Qed.

(** On [three_processes], whose arrival times are 0, 2 and 4 and whose
    ids are 1, 2 and 3. *)
Lemma C10_every_process_reported_witness :
  ∃ res, SJF.SJFSchedule range_fixed three_processes = Done res ∧
    three_processes ≠ [] ∧
    ∀ p, p ∈ three_processes →
      (∃ r, r ∈ stored (out_rows (report res)) ∧ row_of p r) ∧
      (∃ s, s ∈ out_gantt (report res) ∧ PID s = ProcessID p).
Proof.
  eexists. split; [vm_compute; reflexivity|].
  apply (proj1 (proj2 (C10_every_process_reported range_fixed range_fixed_ok))).
  - apply (bool_decide_unpack _). vm_compute. exact I.
  - apply (bool_decide_unpack _). vm_compute. exact I.
  - left. vm_compute. reflexivity.
Defined.

(** C10 as stated fails: 101 processes with distinct arrival times and
    distinct ids need 101 rows, and the buffer has 100. *)
Lemma C10_buffer_overflow :
  one_per_instant 101 ≠ [] ∧
  NoDup (ArrivalTime <$> one_per_instant 101) ∧
  NoDup (ProcessID <$> one_per_instant 101) ∧
  SJF.SJFSchedule range_fixed (one_per_instant 101) = Panic ∧
  Prio.SJFPrioritySchedule range_fixed (one_per_instant 101) = Panic.
Proof.
  split; [done|]. split; [|split].
  - apply (bool_decide_unpack _). vm_compute. exact I.
  - apply (bool_decide_unpack _). vm_compute. exact I.
  - split; vm_compute; reflexivity.
Qed.

(** ** Further properties *)

(** *** The timeline as it is printed *)

(** **** Numerals *)

Lemma string_app_assoc (a b c : string) : (a +:+ b) +:+ c = a +:+ (b +:+ c).
Proof.
  induction a as [|x a IH]; simpl; [done|].
  unfold String.app in *. simpl. by rewrite IH.
Qed.

Lemma string_app_nil_r (a : string) : a +:+ "" = a.
Proof.
  induction a as [|x a IH]; [done|].
  unfold String.app in *. simpl. by rewrite IH.
Qed.

Lemma string_app_nil_l (a : string) : "" +:+ a = a.
Proof. done. Qed.

Ltac string_norm :=
  repeat first [rewrite string_app_assoc | rewrite string_app_nil_r
               | rewrite string_app_nil_l].

Lemma string_app_length (a b : string) :
  String.length (a +:+ b) = (String.length a + String.length b)%nat.
Proof.
  induction a as [|x a IH]; [done|].
  unfold String.app in *. simpl. by rewrite IH.
Qed.

Lemma repeated_length n c : String.length (repeated n (String c "")) = n.
Proof.
  induction n as [|n IH]; [done|].
  simpl. unfold String.app. simpl. by rewrite IH.
Qed.

Lemma pretty_N_go_app x : ∀ s, pretty_N_go x s = pretty_N_go x "" +:+ s.
Proof.
  induction (N.lt_wf_0 x) as [x _ IH]; intros s.
  destruct (decide (x = 0)%N) as [->|Hx].
  - by rewrite !pretty_N_go_0.
  - rewrite (pretty_N_go_step x s), (pretty_N_go_step x "") by lia.
    rewrite (IH (x `div` 10)%N) by (apply N.div_lt; lia).
    rewrite (IH (x `div` 10)%N ltac:(apply N.div_lt; lia) (String _ "")).
    by rewrite string_app_assoc.
Qed.

Lemma ndigits_0 : ndigits 0 = 0%nat.
Proof. done. Qed.

Lemma ndigits_step x : (0 < x)%N → ndigits x = S (ndigits (x `div` 10)).
Proof.
  intros Hx. unfold ndigits. rewrite pretty_N_go_step, pretty_N_go_app by done.
  rewrite string_app_length. simpl. lia.
Qed.

Lemma ndigits_le k : ∀ x, (ndigits x ≤ k)%nat ↔ (x < 10 ^ N.of_nat k)%N.
Proof.
  induction k as [|k IH]; intros x.
  - destruct (decide (x = 0)%N) as [->|Hx].
    + rewrite ndigits_0. simpl. lia.
    + rewrite ndigits_step by lia. simpl. lia.
  - destruct (decide (x = 0)%N) as [->|Hx].
    + rewrite ndigits_0. split; [|lia]. intros _.
      apply N.neq_0_lt_0, N.pow_nonzero. done.
    + rewrite ndigits_step by lia.
      rewrite <- Nat.succ_le_mono, IH.
      rewrite Nat2N.inj_succ, N.pow_succ_r'.
      pose proof (N.div_mod' x 10) as Hdm.
      pose proof (N.mod_lt x 10 ltac:(done)) as Hm.
      generalize dependent (10 ^ N.of_nat k)%N. intros q _.
      generalize dependent (x `div` 10)%N. generalize dependent (x `mod` 10)%N.
      intros m ? d ?. split; intros; lia.
Qed.

Lemma len_Sprint n :
  len (Sprint n) =
  match n with
  | 0 => 1
  | Z.pos p => Z.of_nat (ndigits (N.pos p))
  | Z.neg p => 1 + Z.of_nat (ndigits (N.pos p))
  end.
Proof.
  unfold len, Sprint, pretty, pretty_Z. destruct n as [|p|p]; [done| |].
  - unfold pretty, pretty_positive, pretty, pretty_N. by rewrite decide_False.
  - rewrite string_app_length.
    unfold pretty, pretty_positive, pretty, pretty_N. rewrite decide_False by done.
    simpl String.length. unfold ndigits. lia.
Qed.

Lemma len_Sprint_fits n : len (Sprint n) < 10 ↔ fits_cell n.
Proof.
  rewrite len_Sprint. unfold fits_cell. destruct n as [|p|p].
  - lia.
  - pose proof (ndigits_le 9 (N.pos p)) as H. simpl in H.
    change (10 ^ 9)%N with 1000000000%N in H. lia.
  - pose proof (ndigits_le 8 (N.pos p)) as H.
    change (10 ^ N.of_nat 8)%N with 100000000%N in H. lia.
Qed.

(** **** What the helpers write *)

Lemma io_bind_unfold {A B} (m : io A) (f : A → io B) w :
  (m ≫= f) w =
  match m w with
  | (w', Ok a) => f a w'
  | (w', Panicked) => (w', Panicked)
  | (w', Exited status) => (w', Exited status)
  | (w', Unfinished) => (w', Unfinished)
  end.
Proof. done. Qed.

Lemma io_bind_Ok {A B} (m : io A) (f : A → io B) w w' a :
  m w = (w', Ok a) → (m ≫= f) w = f a w'.
Proof. intros H. by rewrite io_bind_unfold, H. Qed.

Lemma io_bind_Panicked {A B} (m : io A) (f : A → io B) w w' :
  m w = (w', Panicked) → (m ≫= f) w = (w', Panicked).
Proof. intros H. by rewrite io_bind_unfold, H. Qed.

Lemma quot_2_neg z : z ÷ 2 < 0 ↔ z <= -2.
Proof.
  pose proof (Z.quot_rem' z 2) as Hq.
  assert ((0 <= z ∧ 0 <= Z.rem z 2 < 2) ∨ (z < 0 ∧ -2 < Z.rem z 2 <= 0)) as Hr.
  { destruct (Z.le_gt_cases 0 z) as [Hz|Hz].
    - left. split; [done|]. apply Z.rem_bound_pos; lia.
    - right. split; [done|]. apply (Z.rem_bound_pos_neg z 2); lia. }
  revert Hq Hr. generalize (z ÷ 2) (Z.rem z 2). intros q r Hq Hr. lia.
Qed.

(** What the body of the first loop does. *)
Lemma gantt_cell_spec s w :
  gantt_cell s w =
  if decide (fits_cell (PID s)) then (w +:+ cell (PID s), Ok tt)
  else (w, Panicked).
Proof.
  unfold gantt_cell, strings_Repeat. rewrite io_bind_unfold. unfold lift.
  pose proof (len_Sprint_fits (PID s)) as Hfits.
  pose proof (quot_2_neg (8 - len (Sprint (PID s)))) as Hq.
  destruct (decide ((8 - len (Sprint (PID s))) ÷ 2 < 0)) as [Hd|Hd].
  - apply Hq in Hd. rewrite decide_False; [done|].
    intros Hf%Hfits. lia.
  - rewrite decide_True; [done|].
    apply Hfits. destruct (Z.lt_ge_cases (len (Sprint (PID s))) 10); [done|].
    exfalso. apply Hd, Hq. lia.
Qed.

Lemma cells_loop gantt : ∀ i w,
  Forall (λ s, fits_cell (PID s)) gantt →
  range_loop (λ _ s _, gantt_cell s) i gantt tt w
  = (w +:+ cells gantt, Ok tt).
Proof.
  induction gantt as [|s gantt IH]; intros i w Hall; simpl.
  - by rewrite string_app_nil_r.
  - apply Forall_cons in Hall as [Hs Hall].
    rewrite io_bind_unfold, gantt_cell_spec, decide_True by done.
    rewrite IH by done. by string_norm.
Qed.

Lemma cells_loop_panics gantt : ∀ i w,
  ¬ Forall (λ s, fits_cell (PID s)) gantt →
  (range_loop (λ _ s _, gantt_cell s) i gantt tt w).2 = Panicked.
Proof.
  induction gantt as [|s gantt IH]; intros i w Hall; simpl.
  - destruct Hall. constructor.
  - rewrite io_bind_unfold, gantt_cell_spec.
    destruct (decide (fits_cell (PID s))) as [Hs|Hs]; [|done].
    apply IH. intros H. apply Hall. by constructor.
Qed.

Lemma gantt_time_spec n i s w :
  gantt_time n i s w =
  (w +:+ Sprint (Start s) +:+ tab +:+
     (if decide (Z.of_nat n - 1 = Z.of_nat i) then Sprint (Stop s) else ""),
   Ok tt).
Proof.
  unfold gantt_time. rewrite io_bind_unfold. unfold Fprint. simpl.
  case_decide; simpl.
  - by string_norm.
  - unfold mret, io_ret. by string_norm.
Qed.

Lemma times_cons_cons s s' g :
  times (s :: s' :: g) = Sprint (Start s) +:+ tab +:+ times (s' :: g).
Proof. done. Qed.

Lemma times_loop gantt : ∀ n i w,
  n = (i + length gantt)%nat →
  range_loop (λ i s _, gantt_time n i s) i gantt tt w
  = (w +:+ times gantt, Ok tt).
Proof.
  induction gantt as [|s gantt IH]; intros n i w Hn.
  - simpl. by string_norm.
  - cbn [range_loop]. rewrite io_bind_unfold, gantt_time_spec.
    rewrite (IH n (S i)) by (simpl in Hn; lia).
    destruct gantt as [|s' gantt].
    + simpl in Hn. rewrite decide_True by lia. simpl. by string_norm.
    + simpl in Hn. rewrite decide_False by lia.
      rewrite times_cons_cons. by string_norm.
Qed.

Lemma outputGantt_Ok gantt w :
  Forall (λ s, fits_cell (PID s)) gantt →
  outputGantt gantt w = (w +:+ chart gantt, Ok tt).
Proof.
  intros Hall. unfold outputGantt.
  rewrite io_bind_unfold. unfold Fprintln at 1. cbn [String.concat].
  rewrite io_bind_unfold. unfold Fprint at 1. cbn [String.concat].
  rewrite io_bind_unfold, cells_loop by done.
  rewrite io_bind_unfold. unfold Fprintln at 1. cbn [String.concat].
  rewrite io_bind_unfold, times_loop by done.
  unfold Fprint. cbn [String.concat]. unfold chart.
  by string_norm.
Qed.

Lemma outputGantt_Panicked gantt w :
  ¬ Forall (λ s, fits_cell (PID s)) gantt →
  (outputGantt gantt w).2 = Panicked.
Proof.
  intros Hall. unfold outputGantt.
  rewrite io_bind_unfold. unfold Fprintln at 1. cbn [String.concat].
  rewrite io_bind_unfold. unfold Fprint at 1. cbn [String.concat].
  rewrite io_bind_unfold.
  pose proof (cells_loop_panics gantt 0
                (w +:+ "Gantt schedule" +:+ newline +:+ "|") Hall) as H.
  string_norm. revert H. string_norm.
  destruct (@range_loop io _ _ _ _ _ _ _ _ _) as [w' r]. simpl. by intros ->.
Qed.

(** X1: [outputGantt] panics exactly when the timeline holds an id whose
    numeral takes ten characters or more, that is an id of at least 10^9
    or at most -10^8: the padding of its cell, (8 - len(pid)) / 2, is
    then negative and [strings.Repeat] panics.  On every other timeline
    it returns. *)
Theorem X1_gantt_panics gantt w :
  (outputGantt gantt w).2 =
  if decide (Forall (λ s, fits_cell (PID s)) gantt) then Ok tt else Panicked.
Proof.
  case_decide as H.
  - by rewrite outputGantt_Ok.
  - by apply outputGantt_Panicked.
Qed.

Lemma times_stops g1 : ∀ g2,
  Start <$> g1 = Start <$> g2 → Stop <$> last g1 = Stop <$> last g2 →
  times g1 = times g2.
Proof.
  induction g1 as [|s1 g1 IH]; intros [|s2 g2] Hs Hl; try done.
  injection Hs as Hs0 Hs.
  destruct g1 as [|s1' g1], g2 as [|s2' g2]; try done.
  - simpl in *. injection Hl as Hl. by rewrite Hs0, Hl.
  - rewrite !times_cons_cons, Hs0. f_equal. f_equal.
    apply IH; [done|]. by rewrite !last_cons_cons in Hl.
Qed.

Lemma cells_PID g1 : ∀ g2, PID <$> g1 = PID <$> g2 → cells g1 = cells g2.
Proof.
  induction g1 as [|s1 g1 IH]; intros [|s2 g2] Hp; try done.
  injection Hp as Hp0 Hp. simpl. rewrite Hp0. f_equal. by apply IH.
Qed.

Lemma cells_loop_PID g1 : ∀ g2 i j w,
  PID <$> g1 = PID <$> g2 →
  range_loop (λ _ s _, gantt_cell s) i g1 tt w =
  range_loop (λ _ s _, gantt_cell s) j g2 tt w.
Proof.
  induction g1 as [|s1 g1 IH]; intros [|s2 g2] i j w Hp; try done.
  injection Hp as Hp0 Hp. simpl.
  rewrite !io_bind_unfold, !gantt_cell_spec, Hp0.
  case_decide; [|done]. by apply IH.
Qed.

(** X2: [outputGantt] prints the start of every segment and the stop of
    the last one alone: two timelines with the same ids, the same starts
    and the same last stop are printed alike, whatever the stops in
    between. *)
Theorem X2_gantt_stops g1 g2 w :
  PID <$> g1 = PID <$> g2 → Start <$> g1 = Start <$> g2 →
  Stop <$> last g1 = Stop <$> last g2 →
  outputGantt g1 w = outputGantt g2 w.
Proof.
  intros Hp Hs Hl. unfold outputGantt.
  rewrite !(io_bind_unfold (Fprintln _)). unfold Fprintln at 1 3. cbn [String.concat].
  rewrite !(io_bind_unfold (Fprint _)). unfold Fprint at 1 3. cbn [String.concat].
  rewrite !(io_bind_unfold (range_loop _ _ _ _)).
  rewrite (cells_loop_PID g1 g2 0 0 _ Hp).
  destruct (@range_loop io _ _ _ _ _ 0%nat g2 tt _) as [w1 [[]| | |]]; try done.
  rewrite !(io_bind_unfold (Fprintln _)). unfold Fprintln. cbn [String.concat].
  rewrite !(io_bind_unfold (range_loop _ _ _ _)).
  rewrite !times_loop by done.
  by rewrite (times_stops g1 g2).
Qed.

(** [stop_at_5] and [stop_at_3] are printed alike. *)
Lemma X2_gantt_stops_witness :
  stop_at_5 ≠ stop_at_3 ∧ outputGantt stop_at_5 "" = outputGantt stop_at_3 "".
Proof.
  split; [done|]. apply X2_gantt_stops; reflexivity.
Defined.

(** *** Loading *)

Lemma digits_app s1 : ∀ s2 acc,
  digits (s1 +:+ s2) acc = digits s1 acc ≫= digits s2.
Proof.
  induction s1 as [|c s1 IH]; intros s2 acc; [done|].
  change (String c s1 +:+ s2) with (String c (s1 +:+ s2)). simpl.
  destruct (digit c) as [d|]; simpl; [|done]. apply IH.
Qed.

Lemma digit_pretty_N_char d :
  (d < 10)%N → digit (pretty_N_char d) = Some (Z.of_N d).
Proof.
  intros Hd.
  assert (d = 0 ∨ d = 1 ∨ d = 2 ∨ d = 3 ∨ d = 4 ∨ d = 5 ∨ d = 6 ∨ d = 7
          ∨ d = 8 ∨ d = 9)%N as H by lia.
  repeat destruct H as [->|H]; try subst d; done.
Qed.

Lemma digits_pretty x : digits (pretty_N_go x "") 0 = Some (Z.of_N x).
Proof.
  induction (N.lt_wf_0 x) as [x _ IH].
  destruct (decide (x = 0)%N) as [->|Hx]; [done|].
  rewrite pretty_N_go_step, pretty_N_go_app, digits_app by lia.
  rewrite IH by (apply N.div_lt; lia). simpl.
  rewrite digit_pretty_N_char by (apply N.mod_lt; lia). simpl.
  f_equal. pose proof (N.div_mod' x 10). lia.
Qed.

Lemma pretty_N_go_cons x :
  (0 < x)%N → ∃ c s, pretty_N_go x "" = String c s ∧ is_Some (digit c).
Proof.
  intros Hx. pose proof (digits_pretty x) as Hd.
  pose proof (ndigits_step x Hx) as Hn. unfold ndigits in Hn.
  destruct (pretty_N_go x "") as [|c s]; [done|].
  exists c, s. split; [done|]. simpl in Hd.
  destruct (digit c); [eauto|done].
Qed.

Lemma ParseInt_Sprint z : Int64.in_range z → ParseInt (Sprint z) = Some z.
Proof.
  unfold Int64.in_range. intros Hz.
  destruct z as [|p|p]; [done| |].
  - unfold Sprint, pretty, pretty_Z, pretty, pretty_positive, pretty, pretty_N.
    rewrite decide_False by done.
    destruct (pretty_N_go_cons (N.pos p)) as (c & s & Hs & Hc); [lia|].
    pose proof (digits_pretty (N.pos p)) as Hd. rewrite Hs in *.
    unfold ParseInt.
    rewrite decide_False by (intros ->; by destruct Hc).
    rewrite decide_False by (intros ->; by destruct Hc).
    rewrite Hd. simpl. rewrite decide_True by lia. done.
  - unfold Sprint, pretty, pretty_Z, pretty, pretty_positive, pretty, pretty_N.
    rewrite decide_False by done.
    destruct (pretty_N_go_cons (N.pos p)) as (c & s & Hs & Hc); [lia|].
    pose proof (digits_pretty (N.pos p)) as Hd. rewrite Hs in *.
    change ("-" +:+ String c s) with (String "-" (String c s)).
    unfold ParseInt. rewrite decide_False by done. rewrite decide_True by done.
    rewrite Hd. simpl. rewrite decide_True by lia. done.
Qed.

Lemma mustStrToInt_Sprint z : Int64.in_range z → mustStrToInt (Sprint z) = Ok z.
Proof. intros H. unfold mustStrToInt. by rewrite ParseInt_Sprint. Qed.

Lemma load_row_record i p processes :
  int64_fields p →
  load_row i (csv_record p) processes = Ok (<[i := p]> processes).
Proof.
  intros (H1 & H2 & H3 & H4). unfold load_row, csv_record. simpl.
  rewrite !mustStrToInt_Sprint by done. simpl. by destruct p.
Qed.

Lemma load_row_record3 i p processes :
  int64_fields p →
  load_row i (csv_record3 p) processes =
  Ok (<[i := with_priority p (Priority (processes !!! i))]> processes).
Proof.
  intros (H1 & H2 & H3 & H4). unfold load_row, csv_record3. simpl.
  rewrite !mustStrToInt_Sprint by done. done.
Qed.

Lemma load_loop (f : Process → list string) (g : Process → Process) l :
  (∀ i p processes, p ∈ l → processes !! i = Some zeroProcess →
     load_row i (f p) processes = Ok (<[i := g p]> processes)) →
  ∀ pre,
  range_loop load_row (length pre) (f <$> l)
    (pre ++ replicate (length l) zeroProcess) = Ok (pre ++ (g <$> l)).
Proof.
  induction l as [|p l IH]; intros Hrow pre; simpl.
  - done.
  - rewrite Hrow; [|by left|].
    2:{ by rewrite lookup_app_r, Nat.sub_diag. }
    simpl. rewrite insert_app_r_alt, Nat.sub_diag by done. simpl.
    specialize (IH ltac:(intros; apply Hrow; [by right|done]) (pre ++ [g p])).
    rewrite length_app, Nat.add_1_r in IH.
    rewrite <- !app_assoc in IH. exact IH.
Qed.

(** X3: the records that hold the decimal numerals of the id, the burst,
    the arrival time and the priority of processes whose fields are
    int64 values load back to these processes; the records without the
    fourth field load to the same processes with priority 0. *)
Theorem X3_load_round_trip (processes : list Process) :
  Forall int64_fields processes →
  loadProcesses (Some (csv_record <$> processes)) = Ok (Some processes) ∧
  loadProcesses (Some (csv_record3 <$> processes)) =
    Ok (Some ((λ p, with_priority p 0) <$> processes)).
Proof.
  intros Hall. rewrite Forall_forall in Hall. unfold loadProcesses.
  rewrite !length_fmap. split.
  - pose proof (load_loop csv_record id processes) as H.
    specialize (H ltac:(intros i p ps Hp _; by apply load_row_record, Hall) []).
    cbn [app length] in H. rewrite H. simpl. by rewrite list_fmap_id.
  - pose proof (load_loop csv_record3 (λ p, with_priority p 0) processes) as H.
    assert (∀ i p ps, p ∈ processes → ps !! i = Some zeroProcess →
              load_row i (csv_record3 p) ps
              = Ok (<[i := with_priority p 0]> ps)) as Hrow.
    { intros i p ps Hp Hi. rewrite load_row_record3 by (by apply Hall).
      by rewrite (list_lookup_total_correct _ _ _ Hi). }
    specialize (H Hrow []). cbn [app length] in H. by rewrite H.
Qed.

(** The two processes of [urgent_second], written and loaded. *)
Lemma X3_load_round_trip_witness :
  loadProcesses (Some (csv_record <$> urgent_second)) = Ok (Some urgent_second) ∧
  loadProcesses (Some (csv_record3 <$> urgent_second)) =
    Ok (Some ((λ p, with_priority p 0) <$> urgent_second)).
Proof.
  apply X3_load_round_trip.
  repeat constructor; simpl; lia.
Defined.

Lemma load_row_clip i row processes :
  load_row i row processes = load_row i (clip row) processes.
Proof.
  unfold clip. case_decide as Hlen; [|done].
  destruct row as [|a [|b [|c [|d [|e row]]]]]; simpl in Hlen; try lia.
  unfold load_row. rewrite !decide_False by (simpl; lia). done.
Qed.

Lemma load_loop_clip rows : ∀ i processes,
  range_loop load_row i rows processes =
  range_loop load_row i (clip <$> rows) processes.
Proof.
  induction rows as [|row rows IH]; intros i processes; simpl; [done|].
  rewrite <- load_row_clip.
  destruct (load_row i row processes); simpl; auto.
Qed.

(** X4: [loadProcesses] reads the fourth field of a record only when the
    record has exactly four fields: a record of five fields or more
    loads as its first three fields alone, with priority 0 and nothing
    after the third field parsed. *)
Theorem X4_load_clip (rows : list (list string)) :
  loadProcesses (Some rows) = loadProcesses (Some (clip <$> rows)).
Proof.
  unfold loadProcesses. by rewrite length_fmap, <- load_loop_clip.
Qed.

Lemma mustStrToInt_outcome s :
  (∃ i, mustStrToInt s = Ok i) ∨ mustStrToInt s = Exited 1.
Proof. unfold mustStrToInt. destruct (ParseInt s); eauto. Qed.

Lemma load_row_outcome i row processes :
  (∃ processes', load_row i row processes = Ok processes' ∧
                 (3 ≤ length row)%nat) ∨
  load_row i row processes = Panicked ∨
  load_row i row processes = Exited 1.
Proof.
  unfold load_row.
  destruct row as [|a [|b [|c row]]]; simpl; auto.
  - destruct (mustStrToInt_outcome a) as [[x ->]| ->]; simpl; auto.
  - destruct (mustStrToInt_outcome a) as [[x ->]| ->]; simpl; auto.
    destruct (mustStrToInt_outcome b) as [[y ->]| ->]; simpl; auto.
  - destruct (mustStrToInt_outcome a) as [[x ->]| ->]; simpl; auto.
    destruct (mustStrToInt_outcome b) as [[y ->]| ->]; simpl; auto.
    destruct (mustStrToInt_outcome c) as [[z ->]| ->]; simpl; auto.
    case_decide as Hlen.
    + destruct row as [|d [|e row]]; simpl in Hlen; try lia. simpl.
      destruct (mustStrToInt_outcome d) as [[u ->]| ->]; simpl; auto.
      left. eexists. split; [done|]. lia.
    + simpl. left. eexists. split; [done|]. lia.
Qed.

Lemma load_loop_outcome rows : ∀ i processes,
  (∃ processes', range_loop load_row i rows processes = Ok processes' ∧
                 Forall (λ row, 3 ≤ length row)%nat rows) ∨
  range_loop load_row i rows processes = Panicked ∨
  range_loop load_row i rows processes = Exited 1.
Proof.
  induction rows as [|row rows IH]; intros i processes; simpl.
  - left. eexists. split; [done|]. constructor.
  - destruct (load_row_outcome i row processes)
      as [(ps & -> & Hlen)|[-> | ->]]; simpl; auto.
    destruct (IH (S i) ps) as [(ps' & -> & Hall)|[-> | ->]]; auto.
    left. eexists. split; [done|]. by constructor.
Qed.

(** X5: records among which one has fewer than three fields never load:
    [loadProcesses] panics on the missing field, unless a field that is
    no integer ends the program with status 1 before. *)
Theorem X5_load_short_row (rows : list (list string)) (row : list string) :
  row ∈ rows → (length row < 3)%nat →
  loadProcesses (Some rows) = Panicked ∨ loadProcesses (Some rows) = Exited 1.
Proof.
  intros Hrow Hlen. unfold loadProcesses.
  destruct (load_loop_outcome rows 0 (replicate (length rows) zeroProcess))
    as [(ps & _ & Hall)|[-> | ->]]; auto.
  rewrite Forall_forall in Hall. apply Hall in Hrow. lia.
Qed.

(** Two records of two fields, without an arrival time. *)
Lemma X5_load_short_row_witness :
  loadProcesses (Some [["1"; "5"]; ["2"; "3"]]) = Panicked ∨
  loadProcesses (Some [["1"; "5"]; ["2"; "3"]]) = Exited 1.
Proof.
  apply (X5_load_short_row _ ["2"; "3"]).
  - right. left.
  - simpl. lia.
Defined.

(** *** First-come, first-serve: the timeline and the sums *)

Lemma FCFS_body_more i p st st' :
  FCFS.body i p st = Done st' →
  FCFS.gantt st' =
    FCFS.gantt st ++ [fcfs_slice (FCFS.serviceTime st) (FCFS.waitingTime st) p] ∧
  FCFS.totalWait st' =
    PrimFloat.add (FCFS.totalWait st)
      (float64 (rowWait (fcfs_row (FCFS.serviceTime st) (FCFS.waitingTime st) p))) ∧
  FCFS.totalTurnaround st' =
    PrimFloat.add (FCFS.totalTurnaround st)
      (float64 (rowTurnaround
         (fcfs_row (FCFS.serviceTime st) (FCFS.waitingTime st) p))) ∧
  FCFS.serviceTime st' = Int64.add (FCFS.serviceTime st) (BurstDuration p) ∧
  FCFS.waitingTime st' =
    rowWait (fcfs_row (FCFS.serviceTime st) (FCFS.waitingTime st) p).
Proof.
  unfold FCFS.body, store.
  destruct (decide (i < length (FCFS.schedule st))%nat); simpl; [|done].
  intros [= <-]. simpl. done.
Qed.

Lemma FCFS_loop_more l : ∀ i st st',
  for_range FCFS.body i l st = Done st' →
  FCFS.gantt st' =
    FCFS.gantt st ++ fcfs_slices (FCFS.serviceTime st) (FCFS.waitingTime st) l ∧
  FCFS.totalWait st' =
    column_sum_from rowWait (FCFS.totalWait st)
      (fcfs_rows (FCFS.serviceTime st) (FCFS.waitingTime st) l) ∧
  FCFS.totalTurnaround st' =
    column_sum_from rowTurnaround (FCFS.totalTurnaround st)
      (fcfs_rows (FCFS.serviceTime st) (FCFS.waitingTime st) l).
Proof.
  induction l as [|p l IH]; intros i st st'.
  - simpl. intros [= <-]. by rewrite app_nil_r.
  - cbn [for_range fcfs_rows fcfs_slices].
    intros (st1 & H1 & H2)%bind_Done.
    apply FCFS_body_more in H1 as (Hg & Hw & Ht & Hs & Hwt).
    apply IH in H2 as (Hg2 & Hw2 & Ht2).
    rewrite Hg2, Hw2, Ht2, Hg, Hw, Ht, Hs, Hwt.
    by rewrite <- app_assoc.
Qed.

Lemma FCFSSchedule_more processes res :
  FCFS.FCFSSchedule processes = Done res →
  out_rows (report res) = Some <$> fcfs_rows 0 0 processes ∧
  out_gantt (report res) = fcfs_slices 0 0 processes ∧
  aveWait (report res) =
    PrimFloat.div (column_sum rowWait (fcfs_rows 0 0 processes))
      (float64 (Z.of_nat (length processes))) ∧
  aveTurnaround (report res) =
    PrimFloat.div (column_sum rowTurnaround (fcfs_rows 0 0 processes))
      (float64 (Z.of_nat (length processes))).
Proof.
  intros Hrun.
  destruct (FCFSSchedule_rows processes) as (res' & Hres & _ & Hrows & _).
  rewrite Hres in Hrun. injection Hrun as <-. split; [done|].
  unfold FCFS.FCFSSchedule, FCFS.loop in Hres.
  apply bind_Done in Hres as (st & Hloop & [= <-]).
  apply FCFS_loop_more in Hloop as (Hg & Hw & Ht). simpl.
  rewrite Hg, Hw, Ht. done.
Qed.

Lemma fcfs_rows_ids s w l : rowID <$> fcfs_rows s w l = ProcessID <$> l.
Proof. revert s w. induction l; intros; simpl; [done|]. by f_equal. Qed.

Lemma fcfs_slices_ids s w l : PID <$> fcfs_slices s w l = ProcessID <$> l.
Proof. revert s w. induction l; intros; simpl; [done|]. by f_equal. Qed.

Lemma fcfs_slices_lookup l : ∀ i s w p,
  l !! i = Some p →
  fcfs_slices s w l !! i =
  Some (fcfs_slice (service_after s (take i l))
          (wait_after w (fcfs_rows s w (take i l))) p).
Proof.
  induction l as [|q l IH]; intros i s w p Hi; [done|].
  destruct i as [|i]; simpl in Hi.
  - injection Hi as ->. done.
  - cbn [fcfs_slices take fcfs_rows lookup list_lookup]. rewrite (IH _ _ _ _ Hi).
    by rewrite wait_after_cons.
Qed.

Lemma service_after_in_range s l :
  Int64.in_range s → Int64.in_range (service_after s l).
Proof.
  revert s. induction l as [|p l IH]; intros s Hs; [done|].
  apply IH, Int64Facts.wrap_in_range.
Qed.

Lemma int64_add_sub_cancel s a : Int64.in_range s → Int64.add (Int64.sub s a) a = s.
Proof.
  intros Hs. unfold Int64.add, Int64.sub.
  rewrite Int64Facts.wrap_add_l. replace (s - a + a) with s by lia.
  by apply Int64Facts.wrap_id.
Qed.

(** X7: first-come, first-serve runs the processes back to back in the
    order of the slice, whatever their arrival times: the segment of the
    process at index [i] stops at the sum of the bursts up to it and,
    when its arrival time is positive, starts at the sum of the bursts
    before it. *)
Theorem X7_fcfs_back_to_back (processes : list Process) (i : nat) (p : Process) :
  processes !! i = Some p →
  ∃ res s,
    FCFS.FCFSSchedule processes = Done res ∧
    out_gantt (report res) !! i = Some s ∧
    PID s = ProcessID p ∧
    Stop s = service_after 0 (take (S i) processes) ∧
    (ArrivalTime p > 0 → Start s = service_after 0 (take i processes)).
Proof.
  intros Hi.
  destruct (FCFSSchedule_rows processes) as (res & Hres & _).
  destruct (FCFSSchedule_more _ _ Hres) as (_ & Hg & _).
  eexists res, _. split; [done|]. rewrite Hg.
  split; [by apply fcfs_slices_lookup|]. split; [done|]. split.
  - rewrite (take_S_r _ _ _ Hi). unfold service_after. by rewrite foldl_app.
  - intros Ha. cbn [fcfs_slice Start fcfs_row rowWait].
    rewrite decide_True by done. apply int64_add_sub_cancel.
    by apply service_after_in_range.
Qed.

(** The second process arrives at 20 and is run from 5 to 8. *)
Lemma X7_fcfs_back_to_back_witness :
  ∃ res s,
    FCFS.FCFSSchedule [mkProcess 1 5 0; mkProcess 2 3 20] = Done res ∧
    out_gantt (report res) !! 1%nat = Some s ∧
    PID s = 2 ∧ Stop s = 8 ∧ (20 > 0 → Start s = 5).
Proof.
  apply (X7_fcfs_back_to_back [mkProcess 1 5 0; mkProcess 2 3 20] 1 (mkProcess 2 3 20)).
  reflexivity.
Defined.

(** *** The averages *)

Lemma column_sum_from_snoc f from rows r :
  column_sum_from f from (rows ++ [r]) =
  PrimFloat.add (column_sum_from f from rows) (float64 (f r)).
Proof. unfold column_sum_from. by rewrite foldl_app. Qed.

Lemma summed_stable Q : stable Q summed.
Proof.
  split.
  - intros s v (rows & Hf & Hw & Ht). by exists rows.
  - intros row s svc v v' _ (rows & Hf & Hw & Ht) He.
    exists (rows ++ [row]). split; [by eapply emit_filled|].
    apply emit_Done in He as (_ & _ & -> & -> & _).
    unfold column_sum. by rewrite !column_sum_from_snoc, Hw, Ht.
Qed.

Lemma summed_vars0 : summed vars0.
Proof. exists []. split; [apply filled_vars0|done]. Qed.

Lemma summed_averages processes v :
  summed v →
  let rows := stored (out_rows (report (finish processes v))) in
  aveWait (report (finish processes v)) =
    PrimFloat.div (column_sum rowWait rows) (float64 (Z.of_nat (length rows))) ∧
  aveTurnaround (report (finish processes v)) =
    PrimFloat.div (column_sum rowTurnaround rows) (float64 (Z.of_nat (length rows))).
Proof.
  intros (rows & Hf & Hw & Ht). simpl.
  rewrite (filled_stored _ _ Hf), Hw, Ht. by destruct Hf as [-> _].
Qed.

(** X8: in each scheduler the reported average wait and average
    turnaround are the float64 sums of the Wait and of the Turnaround
    column of the stored rows, added up in row order, divided by the
    number of stored rows. *)
Theorem X8_averages rm srt processes res :
  range_ok rm →
  FCFS.FCFSSchedule processes = Done res ∨
  SJF.SJFSchedule rm processes = Done res ∨
  Prio.SJFPrioritySchedule rm processes = Done res ∨
  RR.RRSchedule srt processes = Done res →
  let rows := stored (out_rows (report res)) in
  aveWait (report res) =
    PrimFloat.div (column_sum rowWait rows) (float64 (Z.of_nat (length rows))) ∧
  aveTurnaround (report res) =
    PrimFloat.div (column_sum rowTurnaround rows) (float64 (Z.of_nat (length rows))).
Proof.
  intros Hrm [Hrun|[Hrun|[Hrun|Hrun]]].
  - destruct (FCFSSchedule_more _ _ Hrun) as (Hrows & _ & Hw & Ht). simpl.
    by rewrite Hw, Ht, Hrows, stored_Some, fcfs_rows_length.
  - eapply (SJF_vars_ind processes _ (summed_stable _)) in Hrun
      as (v & -> & Hv); [|done|apply summed_vars0].
    by apply summed_averages.
  - eapply (Prio_vars_ind processes _ (summed_stable _)) in Hrun
      as (v & -> & Hv); [|done|apply summed_vars0].
    by apply summed_averages.
  - eapply (RR_vars_ind processes _ (summed_stable _)) in Hrun
      as (v & -> & Hv); [|apply summed_vars0].
    by apply summed_averages.
Qed.

(** Four rows of round-robin: waits 0, 3, 5, 8 and turnarounds 3, 4,
    8, 9. *)
Lemma X8_averages_witness :
  ∃ res, RR.RRSchedule sort_stable seven_and_two = Done res ∧
    aveWait (report res) = PrimFloat.div (float64 16) (float64 4) ∧
    aveTurnaround (report res) = PrimFloat.div (float64 24) (float64 4).
Proof.
  eassert (RR.RRSchedule sort_stable seven_and_two = Done _) as Hrun
    by (vm_compute; reflexivity).
  eexists. split; [exact Hrun|].
  destruct (X8_averages range_fixed sort_stable seven_and_two _ range_fixed_ok
              (or_intror (or_intror (or_intror Hrun)))) as [Hw Ht].
  rewrite Hw, Ht. split; vm_compute; reflexivity.
Defined.

(** *** The timeline and the rows *)

Lemma aligned_stable Q : stable Q aligned.
Proof.
  split.
  - intros s v (rows & Hf & Hg). by exists rows.
  - intros row s svc v v' _ (rows & Hf & Hg) He.
    exists (rows ++ [row]). split; [by eapply emit_filled|].
    apply emit_Done in He as (_ & _ & _ & _ & _ & _ & _ & -> & _).
    by rewrite !fmap_app, Hg.
Qed.

Lemma aligned_vars0 : aligned vars0.
Proof. exists []. split; [apply filled_vars0|done]. Qed.

Lemma aligned_report processes v :
  aligned v →
  PID <$> out_gantt (report (finish processes v)) =
  rowID <$> stored (out_rows (report (finish processes v))).
Proof. intros (rows & Hf & Hg). simpl. by rewrite (filled_stored _ _ Hf). Qed.

(** X9: in each scheduler the timeline has one segment for each stored
    row, in the same order and under the same id. *)
Theorem X9_timeline_rows rm srt processes res :
  range_ok rm →
  FCFS.FCFSSchedule processes = Done res ∨
  SJF.SJFSchedule rm processes = Done res ∨
  Prio.SJFPrioritySchedule rm processes = Done res ∨
  RR.RRSchedule srt processes = Done res →
  PID <$> out_gantt (report res) = rowID <$> stored (out_rows (report res)).
Proof.
  intros Hrm [Hrun|[Hrun|[Hrun|Hrun]]].
  - destruct (FCFSSchedule_more _ _ Hrun) as (Hrows & Hg & _).
    by rewrite Hg, Hrows, stored_Some, fcfs_rows_ids, fcfs_slices_ids.
  - eapply (SJF_vars_ind processes _ (aligned_stable _)) in Hrun
      as (v & -> & Hv); [|done|apply aligned_vars0].
    by apply aligned_report.
  - eapply (Prio_vars_ind processes _ (aligned_stable _)) in Hrun
      as (v & -> & Hv); [|done|apply aligned_vars0].
    by apply aligned_report.
  - eapply (RR_vars_ind processes _ (aligned_stable _)) in Hrun
      as (v & -> & Hv); [|apply aligned_vars0].
    by apply aligned_report.
Qed.

(** Four rows and four segments, of the processes 1, 2, 3, 2. *)
Lemma X9_timeline_rows_witness :
  ∃ res, SJF.SJFSchedule range_fixed three_processes = Done res ∧
    PID <$> out_gantt (report res) = [1; 2; 3; 2] ∧
    rowID <$> stored (out_rows (report res)) = [1; 2; 3; 2].
Proof.
  eassert (SJF.SJFSchedule range_fixed three_processes = Done _) as Hrun
    by (vm_compute; reflexivity).
  eexists. split; [exact Hrun|].
  rewrite (X9_timeline_rows range_fixed sort_stable three_processes _
             range_fixed_ok (or_intror (or_introl Hrun))).
  split; vm_compute; reflexivity.
Defined.

(** *** Round-robin: states, time and work *)

Lemma RR_pass_inv (P : RR.State → Prop) :
  (∀ p st st', P st → RR.visit p st = Done st' → P st') →
  ∀ l st st', P st → RR.pass l st = Done st' → P st'.
Proof.
  intros Hvisit l. unfold RR.pass. apply (for_range_inv P).
  intros i x s s' _. apply Hvisit.
Qed.

Lemma RR_loop_inv (P : RR.State → Prop) :
  (∀ p st st', P st → RR.visit p st = Done st' → P st') →
  ∀ fuel l st st', P st → RR.loop fuel l st = Done st' → P st'.
Proof.
  intros Hvisit fuel l. induction fuel as [|fuel IH]; intros st st' Hst; simpl;
    case_decide; try done; try (by intros [= <-]).
  intros (st1 & H1 & H2)%bind_Done.
  eapply IH; [|exact H2]. by eapply RR_pass_inv.
Qed.

(** *** Round-robin never idles *)

Lemma end_of_snoc t rows r : end_of t (rows ++ [r]) = rowExit r.
Proof. unfold end_of. by rewrite last_snoc. Qed.

Lemma chained_snoc rows : ∀ t r,
  chained t rows → rowWait r = end_of t rows →
  rowExit r = Int64.add (rowWait r) (rowBurst r) →
  chained t (rows ++ [r]).
Proof.
  induction rows as [|r0 rows IH]; intros t r Hc Hw He.
  - simpl in *. unfold end_of in Hw. simpl in Hw. rewrite <- Hw. done.
  - destruct Hc as (H1 & H2 & H3). simpl. split; [done|]. split; [done|].
    apply IH; [done| |done].
    rewrite Hw. unfold end_of. rewrite last_cons.
    by destruct (last rows).
Qed.

Lemma chained_lookup rows : ∀ t i r,
  chained t rows → rows !! i = Some r →
  rowWait r = end_of t (take i rows) ∧
  rowExit r = Int64.add (rowWait r) (rowBurst r).
Proof.
  induction rows as [|r0 rows IH]; intros t i r Hc Hi; [done|].
  destruct Hc as (H1 & H2 & H3). destruct i as [|i]; simpl in Hi.
  - injection Hi as <-. split; [done|]. by rewrite H1.
  - destruct (IH _ _ _ H3 Hi) as [Hw He]. split; [|done].
    rewrite Hw. cbn [take]. unfold end_of. rewrite last_cons.
    by destruct (last (take i rows)).
Qed.

Lemma emit_tiled row v v' :
  tiled v → rowWait row = serviceTime v →
  rowExit row = Int64.add (serviceTime v) (rowBurst row) →
  emit row (serviceTime v) (rowExit row) v = Done v' → tiled v'.
Proof.
  intros (rows & Hf & Hc & Hs & Hg) Hw Hx He.
  exists (rows ++ [row]). split; [by eapply emit_filled|].
  apply emit_Done in He as (_ & Hs' & _ & _ & _ & _ & _ & Hg' & _).
  split; [|split].
  - apply chained_snoc; [done|congruence|]. by rewrite Hw.
  - by rewrite Hs', end_of_snoc.
  - rewrite Hg', Hg, fmap_app. simpl. unfold span_of. by rewrite Hw.
Qed.

Lemma visit_tiled p st st' :
  tiled (RR.rvars st) → RR.visit p st = Done st' → tiled (RR.rvars st').
Proof.
  intros Ht. unfold RR.visit.
  destruct (RR.remProcesses st !! ProcessID p) as [process|];
    [|by intros [= <-]].
  case_decide.
  - intros (v & Hv & [= <-])%bind_Done. simpl.
    by eapply (emit_tiled _ _ _ Ht); [| |exact Hv].
  - intros (v & Hv & Hst)%bind_Done.
    assert (tiled v) by (by eapply (emit_tiled _ _ _ Ht); [| |exact Hv]).
    by case_decide; injection Hst as <-.
Qed.

Lemma tiled_vars0 : tiled vars0.
Proof. exists []. split; [apply filled_vars0|done]. Qed.

(** X10: round-robin never idles and never overlaps.  Each row waits
    until the exit of the row before it (0 for the first row), exits its
    burst later, and its segment of the timeline runs from its wait to
    its exit. *)
Theorem X10_rr_never_idles srt processes res :
  RR.RRSchedule srt processes = Done res →
  ∀ i r, stored (out_rows (report res)) !! i = Some r →
    rowWait r = end_of 0 (take i (stored (out_rows (report res)))) ∧
    rowExit r = Int64.add (rowWait r) (rowBurst r) ∧
    out_gantt (report res) !! i = Some (span_of r).
Proof.
  unfold RR.RRSchedule. intros (st & Hloop & [= <-])%bind_Done i r. simpl.
  apply (RR_loop_inv (λ st, tiled (RR.rvars st))) in Hloop;
    [|apply visit_tiled|apply tiled_vars0].
  destruct Hloop as (rows & Hf & Hc & _ & Hg).
  rewrite (filled_stored _ _ Hf), Hg. intros Hi.
  destruct (chained_lookup _ _ _ _ Hc Hi) as [Hw He].
  split; [done|]. split; [done|]. by rewrite list_lookup_fmap, Hi.
Qed.

(** The third row of [seven_and_two]: process 1 from 5 to 8. *)
Lemma X10_rr_never_idles_witness :
  ∃ res r, RR.RRSchedule sort_stable seven_and_two = Done res ∧
    stored (out_rows (report res)) !! 2%nat = Some r ∧
    rowWait r = 5 ∧ rowExit r = 8 ∧
    out_gantt (report res) !! 2%nat = Some {| PID := 1; Start := 5; Stop := 8 |}.
Proof.
  eassert (RR.RRSchedule sort_stable seven_and_two = Done _) as Hrun
    by (vm_compute; reflexivity).
  eexists _, (R 1 0 3 0 5 8 8). split; [exact Hrun|].
  match goal with
  | |- ?lookup = _ ∧ _ =>
      assert (lookup = Some (R 1 0 3 0 5 8 8)) as Hi by (vm_compute; reflexivity)
  end.
  split; [exact Hi|].
  destruct (X10_rr_never_idles sort_stable seven_and_two _ Hrun 2 _ Hi)
    as (Hw & He & Hg).
  split; [reflexivity|]. split; [reflexivity|]. exact Hg.
Defined.

(** *** Round-robin serves all the work *)

Lemma Zsum_perm l k : l ≡ₚ k → Zsum l = Zsum k.
Proof. induction 1; simpl; lia. Qed.

Lemma backlog_delete m k q :
  m !! k = Some q → backlog m = BurstDuration q + backlog (delete k m).
Proof.
  intros H. unfold backlog.
  by rewrite <- (Zsum_perm _ _ (fmap_Permutation _ _ _ (map_to_list_delete m k q H))).
Qed.

Lemma backlog_insert m k q' :
  backlog (<[k := q']> m) = BurstDuration q' + backlog (delete k m).
Proof.
  unfold backlog. rewrite <- insert_delete_eq.
  by rewrite (Zsum_perm _ _ (fmap_Permutation _ _ _
       (map_to_list_insert (delete k m) k q' (lookup_delete_eq m k)))).
Qed.

Lemma backlog_empty : backlog ∅ = 0.
Proof. unfold backlog. by rewrite map_to_list_empty. Qed.

Lemma wrap_shift x y k : x = y + 2 ^ 64 * k → Int64.wrap x = Int64.wrap y.
Proof.
  intros ->. apply Int64Facts.wrap_congr.
  rewrite Z.mul_comm. apply Z.mod_add. lia.
Qed.

Lemma wrap_witness x : ∃ k, Int64.wrap x = x + 2 ^ 64 * k.
Proof.
  unfold Int64.wrap. exists (- ((x + 2 ^ 63) / 2 ^ 64)).
  pose proof (Z.div_mod (x + 2 ^ 63) (2 ^ 64) ltac:(lia)). lia.
Qed.

Lemma visit_conserved work p st st' :
  conserved work st → RR.visit p st = Done st' → conserved work st'.
Proof.
  intros (Hk & Hr & Hw). unfold RR.visit.
  destruct (RR.remProcesses st !! ProcessID p) as [process|] eqn:E;
    [|by intros [= <-]].
  assert (ProcessID process = ProcessID p) as Hid by (by eapply Hk).
  rewrite (backlog_delete _ _ _ E) in Hw.
  case_decide.
  - intros (v & (_ & Hs & _)%emit_Done & [= <-])%bind_Done.
    unfold conserved. simpl.
    split; [by apply map_Forall_delete|].
    rewrite Hs. split; [apply Int64Facts.wrap_in_range|].
    rewrite Hid, <- Hw. unfold Int64.add.
    rewrite Int64Facts.wrap_add_l. f_equal. lia.
  - intros (v & (_ & Hs & _)%emit_Done & Hst)%bind_Done.
    unfold with_burst in Hst. cbn [BurstDuration ProcessID] in Hst.
    destruct (wrap_witness (BurstDuration process - RR.timeQ)) as [k Hk3].
    unfold conserved. case_decide as Hz; injection Hst as <-; simpl.
    + split; [by apply map_Forall_delete|].
      rewrite Hs. split; [apply Int64Facts.wrap_in_range|].
      rewrite Hid, <- Hw. unfold Int64.add.
      rewrite Int64Facts.wrap_add_l. unfold Int64.sub in Hz.
      apply (wrap_shift _ _ k). lia.
    + split; [by apply map_Forall_insert_2|].
      rewrite Hs. split; [apply Int64Facts.wrap_in_range|].
      rewrite backlog_insert. cbn [BurstDuration]. rewrite Hid, <- Hw.
      unfold Int64.add, Int64.sub.
      rewrite Int64Facts.wrap_add_l.
      apply (wrap_shift _ _ k). lia.
Qed.

Lemma fill_to_list l :
  NoDup (ProcessID <$> l) →
  map_to_list (foldl (λ m p, <[ProcessID p := p]> m) ∅ l)
  ≡ₚ (λ p, (ProcessID p, p)) <$> l.
Proof.
  intros Hnd. apply NoDup_Permutation.
  - apply NoDup_map_to_list.
  - apply NoDup_fmap_2; [by intros p q [= _ ->]|].
    by apply NoDup_fmap_1 in Hnd.
  - intros [k v]. rewrite elem_of_map_to_list. split.
    + intros [[Hin <-]|H]%fill_lookup; [|by rewrite lookup_empty in H].
      by apply (list_elem_of_fmap_2 (λ p, (ProcessID p, p))).
    + intros (p & [= -> ->] & Hp)%list_elem_of_fmap.
      by apply (fill_NoDup ProcessID).
Qed.

Lemma backlog_fill l :
  NoDup (ProcessID <$> l) →
  backlog (foldl (λ m p, <[ProcessID p := p]> m) ∅ l)
  = Zsum (BurstDuration <$> l).
Proof.
  intros Hnd. unfold backlog.
  rewrite (Zsum_perm _ _ (fmap_Permutation _ _ _ (fill_to_list l Hnd))).
  by rewrite <- list_fmap_compose.
Qed.

(** X11: round-robin serves all the work.  When no two processes of the
    input share an id, the exit of the last row is the sum of the bursts
    of the input in int64 arithmetic; it is the sum itself when that is
    an int64. *)
Theorem X11_rr_serves_all srt processes res :
  NoDup (ProcessID <$> processes) →
  RR.RRSchedule srt processes = Done res →
  end_of 0 (stored (out_rows (report res)))
  = Int64.wrap (Zsum (BurstDuration <$> processes)) ∧
  (Int64.in_range (Zsum (BurstDuration <$> processes)) →
   end_of 0 (stored (out_rows (report res)))
   = Zsum (BurstDuration <$> processes)).
Proof.
  intros Hnd Hrun.
  enough (end_of 0 (stored (out_rows (report res)))
          = Int64.wrap (Zsum (BurstDuration <$> processes))) as H.
  { split; [done|]. intros Hr. by rewrite H, Int64Facts.wrap_id. }
  revert Hrun. unfold RR.RRSchedule.
  intros (st & Hloop & [= <-])%bind_Done. simpl.
  pose proof (loop_Done_empty _ _ _ _ Hloop) as Hempty.
  pose proof Hloop as Htiled.
  apply (RR_loop_inv (λ st, tiled (RR.rvars st))) in Htiled;
    [|apply visit_tiled|apply tiled_vars0].
  apply (RR_loop_inv (conserved (Zsum (BurstDuration <$> processes))))
    in Hloop; [|apply visit_conserved|].
  - destruct Hloop as (_ & Hr & Hw).
    destruct Htiled as (rows & Hf & _ & Hs & _).
    rewrite (filled_stored _ _ Hf), <- Hs, <- Hw.
    rewrite Hempty, backlog_empty, Z.add_0_r.
    symmetry. by apply Int64Facts.wrap_id.
  - split; [apply keyed_fill|]. split; [done|].
    cbn [RR.rvars RR.remProcesses]. by rewrite backlog_fill.
Qed.

(** Bursts 7 and 2: the last row exits at 9. *)
Lemma X11_rr_serves_all_witness :
  ∃ res, RR.RRSchedule sort_stable seven_and_two = Done res ∧
    end_of 0 (stored (out_rows (report res))) = 9.
Proof.
  assert (NoDup (ProcessID <$> seven_and_two)) as Hnd
    by (apply (bool_decide_unpack _); vm_compute; exact I).
  eassert (RR.RRSchedule sort_stable seven_and_two = Done _) as Hrun
    by (vm_compute; reflexivity).
  eexists. split; [exact Hrun|].
  rewrite (proj1 (X11_rr_serves_all sort_stable seven_and_two _ Hnd Hrun)).
  reflexivity.
Defined.

(** *** The bound on the passes *)

Lemma RRSchedule_within_passes srt processes :
  RRSchedule_within RR.passes srt processes = RR.RRSchedule srt processes.
Proof. done. Qed.

(** X12: the outer loop of [RRSchedule] ends within 101 passes, by a
    return or by the panic of the full row buffer: every pass that finds
    a process left stores a row.  The bound of the model is never
    reached, and allowing more passes changes nothing. *)
Theorem X12_rr_terminates srt processes (k : nat) :
  sort_ok srt →
  RR.RRSchedule srt processes ≠ OutOfFuel ∧
  RRSchedule_within (RR.passes + k) srt processes = RR.RRSchedule srt processes.
Proof.
  intros Hsrt. split; [by apply RRSchedule_total|].
  unfold RRSchedule_within, RR.RRSchedule. cbv zeta.
  rewrite loop_more_fuel; [done|].
  apply loop_fuel; simpl.
  - apply keyed_fill.
  - intros x [v Hv]%elem_of_dom.
    apply fill_lookup in Hv as [[Hin <-]|H]; [|by rewrite lookup_empty in H].
    apply elem_of_list_to_set, list_elem_of_fmap_2.
    by rewrite (proj1 (Hsrt processes)).
  - lia.
  - unfold RR.passes. lia.
Qed.

(** With 106 passes allowed instead of 101. *)
Lemma X12_rr_terminates_witness :
  RR.RRSchedule sort_stable seven_and_two ≠ OutOfFuel ∧
  RRSchedule_within (RR.passes + 5) sort_stable seven_and_two
  = RR.RRSchedule sort_stable seven_and_two.
Proof. apply X12_rr_terminates, sort_stable_ok. Defined.

(** *** The first pass of round-robin *)

Lemma visit_stable (I : Vars → Prop) p st st' :
  stable (λ _, True) I →
  I (RR.rvars st) → RR.visit p st = Done st' → I (RR.rvars st').
Proof.
  intros HI Hst. unfold RR.visit.
  destruct (RR.remProcesses st !! ProcessID p) as [process|];
    [|by intros [= <-]].
  case_decide.
  - intros (v & Hv & [= <-])%bind_Done. simpl.
    by eapply (stable_emit _ _ HI); [| |exact Hv].
  - intros (v & Hv & Hst')%bind_Done.
    assert (I v) by (by eapply (stable_emit _ _ HI); [| |exact Hv]).
    by case_decide; injection Hst' as <-.
Qed.

Lemma loop_S fuel l st :
  RR.loop (S fuel) l st =
  if decide (0 < size (RR.remProcesses st))%nat
  then st' ← RR.pass l st; RR.loop fuel l st'
  else Done st.
Proof. done. Qed.

(** A pass that finds every process of the slice in the map stores a
    row for each, in the order of the slice. *)
Lemma pass_first l : ∀ st st' rows,
  NoDup (ProcessID <$> l) →
  (∀ p, p ∈ l → is_Some (RR.remProcesses st !! ProcessID p)) →
  keyed (RR.remProcesses st) → filled (RR.rvars st) rows →
  RR.pass l st = Done st' →
  ∃ new, filled (RR.rvars st') (rows ++ new) ∧
         rowID <$> new = ProcessID <$> l.
Proof.
  unfold RR.pass. generalize 0%nat as i.
  induction l as [|p l IH]; intros i st st' rows Hnd Hin Hk Hf; simpl.
  - intros [= <-]. exists []. by rewrite app_nil_r.
  - intros (st1 & H1 & H2)%bind_Done.
    rewrite fmap_cons in Hnd. apply NoDup_cons in Hnd as [Hp Hnd].
    destruct (Hin p ltac:(by left)) as [process Hproc].
    assert (ProcessID process = ProcessID p) as Hid by (by eapply Hk).
    pose proof (visit_progress _ _ _ Hk H1) as (Hk1 & _).
    destruct (visit_spec _ _ _ _ _ Hproc Hf H1)
      as (row & Hf1 & Hrow & _ & Hlt & Hge).
    assert (∀ q, q ∈ l → is_Some (RR.remProcesses st1 !! ProcessID q)) as Hin1.
    { intros q Hq.
      assert (ProcessID process ≠ ProcessID q) as Hne.
      { rewrite Hid. intros Heq. apply Hp. rewrite Heq.
        by apply list_elem_of_fmap_2. }
      pose proof (Hin q ltac:(by right)) as Hsome.
      destruct (decide (BurstDuration process < 3)) as [Hb|Hb].
      - destruct (Hlt Hb) as [_ ->]. by rewrite lookup_delete_ne.
      - destruct (Hge ltac:(lia)) as [_ ->].
        case_decide; [by rewrite lookup_delete_ne|by rewrite lookup_insert_ne]. }
    destruct (IH _ _ _ _ Hnd Hin1 Hk1 Hf1 H2) as (new & Hf' & Hids).
    exists (row :: new). split.
    + by rewrite <- app_assoc in Hf'.
    + rewrite !fmap_cons, Hrow, Hid. by f_equal.
Qed.

(** X13: the first pass of round-robin serves every process once, in
    the order in which [sort.Slice] has left the slice, which is the
    order of arrival and not the order of the input: when no two
    processes share an id, the report begins with one row for each
    process, in that order. *)
Theorem X13_rr_first_pass srt processes res :
  sort_ok srt → NoDup (ProcessID <$> processes) →
  RR.RRSchedule srt processes = Done res →
  ∃ first rest,
    stored (out_rows (report res)) = first ++ rest ∧
    rowID <$> first = ProcessID <$> srt processes.
Proof.
  intros Hsrt Hnd. unfold RR.RRSchedule.
  intros (st & Hloop & [= <-])%bind_Done. cbn [report out_rows finish].
  destruct (Hsrt processes) as [Hperm _].
  change RR.passes with (S 100) in Hloop. rewrite loop_S in Hloop.
  destruct (decide (0 < size _)%nat) as [Hsize|Hsize].
  - apply bind_Done in Hloop as (st1 & Hpass & Hrest).
    assert (NoDup (ProcessID <$> srt processes)) as Hnd'
      by (by rewrite Hperm).
    eapply (pass_first (srt processes) _ _ [] Hnd') in Hpass
      as (new & Hf1 & Hids); [| |apply keyed_fill|apply filled_vars0].
    2:{ intros p Hp. cbn [RR.remProcesses].
        apply fill_is_Some. left. apply list_elem_of_fmap_2.
        by rewrite <- Hperm. }
    apply (RR_loop_inv (λ st, begins new [] (RR.rvars st))) in Hrest.
    + destruct Hrest as (rest & _ & Hf & _).
      exists new, rest. by rewrite (filled_stored _ _ Hf).
    + intros p s s'. apply visit_stable, begins_stable.
    + exists [], (gantt (RR.rvars st1)). by rewrite app_nil_r.
  - injection Hloop as <-. cbn [RR.rvars RR.remProcesses] in *.
    exists [], []. split; [done|].
    destruct processes as [|p processes].
    + apply Permutation_nil_r in Hperm. by rewrite Hperm.
    + exfalso. apply Hsize.
      destruct (fill_is_Some ProcessID (p :: processes) ∅ (ProcessID p))
        as [x Hx]; [left; by left|].
      enough (size (foldl (λ m q, <[ProcessID q := q]> m) (∅ : gmap Z Process)
                      (p :: processes)) ≠ 0%nat) by lia.
      apply map_size_ne_0_lookup. eauto.
Qed.

(** In [late_first] process 2 arrives first: it is served first. *)
Lemma X13_rr_first_pass_witness :
  ∃ res first rest,
    RR.RRSchedule sort_stable late_first = Done res ∧
    stored (out_rows (report res)) = first ++ rest ∧
    rowID <$> first = [2; 1].
Proof.
  assert (NoDup (ProcessID <$> late_first)) as Hnd
    by (apply (bool_decide_unpack _); vm_compute; exact I).
  eassert (RR.RRSchedule sort_stable late_first = Done _) as Hrun
    by (vm_compute; reflexivity).
  destruct (X13_rr_first_pass sort_stable late_first _ sort_stable_ok Hnd Hrun)
    as (first & rest & Hrows & Hids).
  eexists. exists first, rest. split; [exact Hrun|]. split; [exact Hrows|].
  rewrite Hids. vm_compute. reflexivity.
Defined.

(** *** The second loop, row by row *)

Lemma for_range_blocks {A} (Q : A → Row → Prop) (n : A → nat)
    (body : nat → A → Vars → run Vars) l :
  (∀ i x v v' rows, x ∈ l → filled v rows → body i x v = Done v' →
     ∃ new, filled v' (rows ++ new) ∧ length new = n x ∧ Forall (Q x) new) →
  ∀ i v v' rows, filled v rows → for_range body i l v = Done v' →
  ∃ blocks, filled v' (rows ++ concat blocks) ∧
    Forall2 (λ x new, length new = n x ∧ Forall (Q x) new) l blocks.
Proof.
  induction l as [|x l IH]; intros Hbody i v v' rows Hf; simpl.
  - intros [= <-]. exists []. simpl. rewrite app_nil_r. split; [done|constructor].
  - intros (v1 & H1 & H2)%bind_Done.
    destruct (Hbody _ _ _ _ _ ltac:(by left) Hf H1) as (new & Hf1 & Hlen & HQ).
    destruct (IH ltac:(intros; eapply Hbody; eauto; by right) _ _ _ _ Hf1 H2)
      as (blocks & Hf2 & Hall).
    exists (new :: blocks). simpl. rewrite app_assoc. split; [done|].
    by constructor.
Qed.

Lemma emit_row row s svc v v' rows :
  filled v rows → emit row s svc v = Done v' →
  ∃ new, filled v' (rows ++ new) ∧ length new = 1%nat ∧ Forall (eq row) new.
Proof.
  intros Hf He. exists [row]. split; [by eapply emit_filled|].
  split; [done|]. by repeat constructor.
Qed.

Lemma drain_group_rows procs v v' rows :
  filled v rows → drain_group procs v = Done v' →
  ∃ new, filled v' (rows ++ new) ∧ length new = length procs ∧
    Forall (λ r, ∃ q, q ∈ procs ∧ drained q r) new.
Proof.
  intros Hf. unfold drain_group. case_decide as Hlen.
  - intros (p & Hp%index_elem & He)%bind_Done. unfold drain_one in He.
    eexists. split; [eapply emit_filled; [exact Hf|exact He]|].
    split; [done|]. constructor; [|constructor]. exists p. done.
  - intros Hrun.
    eapply (for_range_blocks (λ a r, ∃ q, q ∈ procs ∧ drained q r) (λ _, 1%nat))
      in Hrun as (blocks & Hf' & Hall); [| |exact Hf].
    + exists (concat blocks). split; [done|]. split.
      * rewrite <- (aTimeNums_of_length procs).
        clear Hf'. induction Hall as [|a new l bl [Hn _] _ IH]; [done|].
        simpl. rewrite length_app, Hn, IH. done.
      * clear Hf'. induction Hall as [|a new l bl [_ Hq] _ IH]; [constructor|].
        simpl. by apply Forall_app.
    + intros i a s s' rows' Ha Hs He.
      apply aTimesMap_of_total in Ha as [Ha _]. unfold drain_tied in He.
      eexists. split; [eapply emit_filled; [exact Hs|exact He]|].
      split; [done|].
      constructor; [|constructor]. eexists. split; [exact Ha|]. done.
Qed.

Lemma count_key {A} (key : A → Z) (v : A) ks :
  NoDup ks → key v ∈ ks →
  sum_list_with (λ k, if decide (key v = k) then 1 else 0)%nat ks = 1%nat.
Proof.
  induction 1 as [|k ks Hk Hnd IH]; intros Hin; [by apply elem_of_nil in Hin|].
  simpl. destruct (decide (key v = k)) as [<-|Hne].
  - assert (sum_list_with (λ k, if decide (key v = k) then 1 else 0)%nat ks = 0%nat)
      as ->; [|done].
    clear IH Hnd Hin. induction ks as [|k' ks IH']; [done|]. simpl.
    rewrite decide_False.
    + apply IH'. intros ?. apply Hk. by right.
    + intros <-. apply Hk. by left.
  - apply elem_of_cons in Hin as [?|Hin]; [done|]. by rewrite IH.
Qed.

(** The groups under the keys make up the entries. *)
Lemma classes_sum_eq {A} (key : A → Z) vals ks :
  NoDup ks → (∀ v, v ∈ vals → key v ∈ ks) →
  sum_list_with (λ k, length (filter (λ v, key v = k) vals)) ks = length vals.
Proof.
  intros Hnd. induction vals as [|v vals IH]; intros Hin; simpl.
  - clear. induction ks as [|k ks IHk]; simpl in *; lia.
  - rewrite <- IH by (intros; apply Hin; by right).
    pose proof (count_key key v ks Hnd ltac:(apply Hin; by left)) as Hone.
    assert (sum_list_with (λ k, length (filter (λ v0, key v0 = k) (v :: vals))) ks
            = (sum_list_with (λ k, if decide (key v = k) then 1 else 0) ks
               + sum_list_with (λ k, length (filter (λ v0, key v0 = k) vals)) ks)%nat)
      as ->; [|lia].
    clear. induction ks as [|k ks IHk]; [done|]. simpl.
    rewrite filter_cons. destruct (decide (key v = k)); simpl; lia.
Qed.

#[local] Instance Zle_total : Total Z.le.
Proof. intros x y. lia. Qed.

Lemma sort_Ints_sorted l : StronglySorted Z.le (sort_Ints l).
Proof. unfold sort_Ints. apply StronglySorted_merge_sort; apply _. Qed.

Lemma blocks_sorted (rkey : Row → Z) ks : ∀ blocks,
  StronglySorted Z.le ks →
  Forall2 (λ k new, Forall (λ r, rkey r = k) new) ks blocks →
  StronglySorted (λ r r', rkey r <= rkey r') (concat blocks) ∧
  Forall (λ r, rkey r ∈ ks) (concat blocks).
Proof.
  induction ks as [|k ks IH]; intros blocks Hs Hall.
  - apply Forall2_nil_inv_l in Hall as ->. split; constructor.
  - apply Forall2_cons_inv_l in Hall as (new & blocks' & Hnew & Hall & ->).
    apply StronglySorted_inv in Hs as [Hs Hk].
    destruct (IH _ Hs Hall) as [Hsorted Hin]. simpl. split.
    + apply StronglySorted_app. split; [|split; [|done]].
      * intros r1 r2 H1 H2.
        assert (rkey r1 = k) as ->
          by (rewrite Forall_forall in Hnew; by apply Hnew).
        assert (rkey r2 ∈ ks) as Hr2
          by (rewrite Forall_forall in Hin; by apply Hin).
        exact (proj1 (Forall_forall _ _) Hk _ Hr2).
      * clear -Hnew. induction Hnew as [|r new Hr Hnew IHn]; constructor; [done|].
        eapply Forall_impl; [exact Hnew|]. intros r' Hr'. simpl in *. lia.
    + apply Forall_app. split.
      * eapply Forall_impl; [exact Hnew|]. intros r ->. by left.
      * eapply Forall_impl; [exact Hin|]. intros r ?. by right.
Qed.

Lemma drain_rows rm key (rkey : Row → Z) st v rows :
  (∀ q r, drained q r → rkey r = key q) →
  range_ok rm → filled (vars st) rows → drain rm key st = Done v →
  ∃ rest, filled v (rows ++ rest) ∧
    length rest = size (processesLeft st) ∧
    Forall (λ r, ∃ k q, processesLeft st !! k = Some q ∧ drained q r) rest ∧
    StronglySorted (λ r r', rkey r <= rkey r') rest.
Proof.
  intros Hkey Hrm Hf. unfold drain.
  set (entries := rm _ (processesLeft st)).
  set (groups := group key entries).
  set (keys := sort_Ints (rm _ groups).*1).
  assert (entries ≡ₚ map_to_list (processesLeft st)) as Hperm by apply Hrm.
  intros Hrun.
  eapply (for_range_blocks
            (λ k r, ∃ q, q ∈ entries.*2 ∧ key q = k ∧ drained q r)
            (λ k, length (groups !!! k))) in Hrun as (blocks & Hf' & Hall);
    [| |exact Hf].
  2:{ intros i k s s' rows' _ Hs Hg.
      destruct (drain_group_rows _ _ _ _ Hs Hg) as (new & Hfn & Hlen & Hq).
      exists new. split; [done|]. split; [done|].
      eapply Forall_impl; [exact Hq|]. intros r (q & Hq' & Hd).
      subst groups. rewrite group_total in Hq'.
      apply list_elem_of_filter in Hq' as [Hk Hin]. eauto. }
  exists (concat blocks). split; [done|].
  assert (NoDup keys) as Hnd.
  { subst keys. unfold sort_Ints. rewrite merge_sort_Permutation, (Hrm _ groups).
    apply NoDup_fst_map_to_list. }
  assert (∀ q, q ∈ entries.*2 → key q ∈ keys) as Hkeys.
  { intros q Hq. subst keys. apply elem_of_sort_Ints. rewrite (Hrm _ groups).
    destruct (groups !! key q) as [procs|] eqn:E.
    - apply list_elem_of_fmap. exists (key q, procs). split; [done|].
      by apply elem_of_map_to_list.
    - subst groups. rewrite group_lookup in E.
      destruct (filter _ entries.*2) as [|y l] eqn:Ef; [|done].
      exfalso. eapply filter_nil_not_elem_of; [exact Ef| |exact Hq]. done. }
  split; [|split].
  - transitivity (sum_list_with (λ k, length (groups !!! k)) keys).
    { clear -Hall. induction Hall as [|k new l bl [Hn _] _ IH]; [done|].
      simpl. by rewrite length_app, Hn, IH. }
    rewrite (sum_list_with_eq _
               (λ k, length (filter (λ v, key v = k) entries.*2))).
    2:{ intros k. subst groups. by rewrite group_total. }
    rewrite (classes_sum_eq key) by done.
    subst entries. by rewrite length_fmap, Hperm, length_map_to_list.
  - clear -Hall Hperm. induction Hall as [|k new l bl [_ Hq] _ IH]; [constructor|].
    simpl. apply Forall_app. split; [|done].
    eapply Forall_impl; [exact Hq|]. intros r (q & Hin & _ & Hd).
    rewrite Hperm in Hin.
    apply list_elem_of_fmap in Hin as ([k' q'] & -> & Hin).
    apply elem_of_map_to_list in Hin. eauto.
  - apply (blocks_sorted rkey keys); [apply sort_Ints_sorted|].
    eapply Forall2_impl; [exact Hall|].
    intros k new [_ Hq]. eapply Forall_impl; [exact Hq|].
    intros r (q & _ & <- & Hd). by apply Hkey.
Qed.

(** X14: the second loop of [SJFSchedule] reports the processes that the
    first loop has left in ascending order of remaining burst.  The rows
    stored after those of the first loop are as many as the processes
    left, each is the row of one of them with the whole of its remaining
    burst, and their Burst column is ascending. *)
Theorem X14_sjf_rest_by_burst rm processes res :
  range_ok rm → SJF.SJFSchedule rm processes = Done res →
  ∃ st rows rest,
    SJF.loop processes = Done st ∧ filled (vars st) rows ∧
    stored (out_rows (report res)) = rows ++ rest ∧
    length rest = size (processesLeft st) ∧
    Forall (λ r, ∃ k q, processesLeft st !! k = Some q ∧ drained q r) rest ∧
    StronglySorted (λ r r', rowBurst r <= rowBurst r') rest.
Proof.
  intros Hrm. unfold SJF.SJFSchedule.
  intros (st & Hst & (v & Hv & [= <-])%bind_Done)%bind_Done.
  destruct (SJF_loop_pinv processes has_rows (has_rows_stable _) st
              has_rows_vars0 Hst) as ([rows Hf] & _).
  destruct (drain_rows rm BurstDuration rowBurst st v rows) as
    (rest & Hf' & Hlen & Hq & Hs); try done.
  { by intros q r (_ & _ & ? & _). }
  exists st, rows, rest. simpl. by rewrite (filled_stored _ _ Hf').
Qed.

(** Processes 3 and 2 are left with bursts 3 and 16. *)
Lemma X14_sjf_rest_by_burst_witness :
  ∃ res, SJF.SJFSchedule range_fixed three_processes = Done res ∧
  ∃ st rows rest,
    SJF.loop three_processes = Done st ∧ filled (vars st) rows ∧
    stored (out_rows (report res)) = rows ++ rest ∧
    length rest = size (processesLeft st) ∧
    Forall (λ r, ∃ k q, processesLeft st !! k = Some q ∧ drained q r) rest ∧
    StronglySorted (λ r r', rowBurst r <= rowBurst r') rest.
Proof.
  eassert (SJF.SJFSchedule range_fixed three_processes = Done _) as Hrun
    by (vm_compute; reflexivity).
  eexists. split; [exact Hrun|].
  exact (X14_sjf_rest_by_burst range_fixed three_processes _ range_fixed_ok Hrun).
Defined.

(** X15: the second loop of [SJFPrioritySchedule] reports the processes
    that the first loop has left in ascending order of priority value.
    The rows stored after those of the first loop are as many as the
    processes left, each is the row of one of them with the whole of its
    remaining burst, and their Priority column is ascending. *)
Theorem X15_priority_rest_by_priority rm processes res :
  range_ok rm → Prio.SJFPrioritySchedule rm processes = Done res →
  ∃ st rows rest,
    Prio.loop processes = Done st ∧ filled (vars st) rows ∧
    stored (out_rows (report res)) = rows ++ rest ∧
    length rest = size (processesLeft st) ∧
    Forall (λ r, ∃ k q, processesLeft st !! k = Some q ∧ drained q r) rest ∧
    StronglySorted (λ r r', rowPriority r <= rowPriority r') rest.
Proof.
  intros Hrm. unfold Prio.SJFPrioritySchedule.
  intros (st & Hst & (v & Hv & [= <-])%bind_Done)%bind_Done.
  destruct (Prio_loop_pinv processes has_rows (has_rows_stable _) st
              has_rows_vars0 Hst) as ([rows Hf] & _).
  destruct (drain_rows rm Priority rowPriority st v rows) as
    (rest & Hf' & Hlen & Hq & Hs); try done.
  { by intros q r (_ & ? & _). }
  exists st, rows, rest. simpl. by rewrite (filled_stored _ _ Hf').
Qed.

(** On [shadowed]. *)
Lemma X15_priority_rest_by_priority_witness :
  ∃ res, Prio.SJFPrioritySchedule range_fixed shadowed = Done res ∧
  ∃ st rows rest,
    Prio.loop shadowed = Done st ∧ filled (vars st) rows ∧
    stored (out_rows (report res)) = rows ++ rest ∧
    length rest = size (processesLeft st) ∧
    Forall (λ r, ∃ k q, processesLeft st !! k = Some q ∧ drained q r) rest ∧
    StronglySorted (λ r r', rowPriority r <= rowPriority r') rest.
Proof.
  eassert (Prio.SJFPrioritySchedule range_fixed shadowed = Done _) as Hrun
    by (vm_compute; reflexivity).
  eexists. split; [exact Hrun|].
  exact (X15_priority_rest_by_priority range_fixed shadowed _ range_fixed_ok Hrun).
Defined.

(** *** The row buffer, and the wait as the start of a span *)

Lemma hundred_stable Q : stable Q hundred.
Proof.
  split.
  - intros s v H. exact H.
  - intros row s svc v v' _ H (_ & _ & _ & _ & _ & _ & Hs & _)%emit_Done.
    unfold hundred. by rewrite Hs, length_insert.
Qed.

Lemma hundred_vars0 : hundred vars0.
Proof. done. Qed.

Lemma has_rows_hundred processes v :
  has_rows v → hundred v →
  let rows := stored (out_rows (report (finish processes v))) in
  out_rows (report (finish processes v)) =
    (Some <$> rows) ++ replicate (100 - length rows) None ∧
  length (out_rows (report (finish processes v))) = 100%nat.
Proof.
  intros [rows Hf] Hh. simpl. rewrite (filled_stored _ _ Hf).
  split; [|done]. destruct Hf as [_ [k Hk]]. unfold hundred in Hh.
  rewrite Hk in *. rewrite length_app, length_fmap, length_replicate in Hh.
  do 2 f_equal. lia.
Qed.

Lemma stable_and Q (I J : Vars → Prop) :
  stable Q I → stable Q J → stable Q (λ v, I v ∧ J v).
Proof.
  intros [I1 I2] [J1 J2]. split.
  - intros s v [? ?]. split; auto.
  - intros row s svc v v' HQ [? ?] He. split; eauto.
Qed.

(** **** The wait is the start *)

Lemma int64_add_sub_r s a : Int64.in_range a → Int64.add s (Int64.sub a s) = a.
Proof.
  intros Ha. unfold Int64.add, Int64.sub.
  rewrite Z.add_comm, Int64Facts.wrap_add_l.
  replace (a - s + s) with a by lia. by apply Int64Facts.wrap_id.
Qed.

Lemma int64_add_comm a b : Int64.add a b = Int64.add b a.
Proof. unfold Int64.add. f_equal. lia. Qed.

Lemma starts_vars0 : starts vars0.
Proof. exists []. split; [apply filled_vars0|]. split; [constructor|done]. Qed.

Lemma starts_set_serviceTime s v : starts v → starts (set_serviceTime s v).
Proof. intros (rows & Hf & Hs & Hg). by exists rows. Qed.

Lemma emit_starts row svc v v' :
  starts v → spanning row → emit row (rowWait row) svc v = Done v' → starts v'.
Proof.
  intros (rows & Hf & Hs & Hg) Hrow He.
  exists (rows ++ [row]). split; [by eapply emit_filled|].
  apply emit_Done in He as (_ & _ & _ & _ & _ & _ & _ & Hg' & _).
  split.
  - apply Forall_app. split; [done|]. by repeat constructor.
  - by rewrite Hg', !fmap_app, Hg.
Qed.

Lemma advance_starts aTimeNums i a st st' :
  starts (vars st) → advance aTimeNums i a st = Done st' → starts (vars st').
Proof.
  intros Hs. unfold advance. case_decide.
  - intros (prev & _ & [= <-])%bind_Done. simpl. by apply starts_set_serviceTime.
  - by intros [= <-].
Qed.

Lemma preempt_starts aTimesMap a st st' :
  Int64.in_range a →
  starts (vars st) → preempt aTimesMap a st = Done st' → starts (vars st').
Proof.
  intros Ha Hs. unfold preempt.
  intros (v & Hv & [= <-])%bind_Done. simpl.
  eapply (emit_starts _ _ _ _ Hs); [|exact Hv].
  unfold spanning. simpl. by rewrite int64_add_sub_r.
Qed.

Lemma complete_starts aTimesMap a st st' :
  starts (vars st) → complete aTimesMap a st = Done st' → starts (vars st').
Proof.
  intros Hs. unfold complete.
  intros (v & Hv & [= <-])%bind_Done. simpl.
  eapply (emit_starts _ _ _ _ Hs); [|exact Hv].
  unfold spanning. simpl. rewrite int64_add_sub_r; [done|].
  apply Int64Facts.wrap_in_range.
Qed.

Lemma SJF_body_starts aTimesMap aTimeNums i a st st' :
  Int64.in_range a →
  starts (vars st) → SJF.body aTimesMap aTimeNums i a st = Done st' →
  starts (vars st').
Proof.
  intros Ha Hst. unfold SJF.body.
  intros (st1 & H1 & H2)%bind_Done.
  apply (advance_starts _ _ _ _ _ Hst) in H1.
  repeat case_decide.
  - by injection H2 as <-.
  - by eapply preempt_starts.
  - by eapply complete_starts.
  - by injection H2 as <-.
Qed.

Lemma Prio_body_starts aTimesMap aTimeNums i a st st' :
  Int64.in_range a →
  starts (vars st) → Prio.body aTimesMap aTimeNums i a st = Done st' →
  starts (vars st').
Proof.
  intros Ha Hst. unfold Prio.body.
  intros (st1 & H1 & H2)%bind_Done.
  apply (advance_starts _ _ _ _ _ Hst) in H1.
  case_decide; [by injection H2 as <-|].
  apply bind_Done in H2 as (st2 & H2 & H3).
  assert (starts (vars st2)) as Hst2.
  { destruct (decide (Priority (aTimesMap !!! a) < Priority (currProcess st1)));
      [by eapply preempt_starts|by injection H2 as <-]. }
  clear H2. case_decide; [by eapply complete_starts|by injection H3 as <-].
Qed.

Lemma arrivals_in_range processes a :
  Forall (λ p, Int64.in_range (ArrivalTime p)) processes →
  a ∈ aTimeNums_of processes → Int64.in_range a.
Proof.
  intros Hall (p & _ & Hp & <-)%aTimesMap_of_elem.
  rewrite Forall_forall in Hall. by apply Hall.
Qed.

Lemma drain_one_starts p v v' :
  starts v → drain_one p v = Done v' → starts v'.
Proof.
  intros Hs. unfold drain_one. intros Hv.
  eapply (emit_starts _ _ _ _ Hs); [|exact Hv].
  unfold spanning. simpl. apply int64_add_comm.
Qed.

Lemma drain_tied_starts p v v' :
  starts v → drain_tied p v = Done v' → starts v'.
Proof.
  intros Hs. unfold drain_tied. intros Hv.
  eapply (emit_starts _ _ _ _ Hs); [|exact Hv].
  unfold spanning. simpl. apply int64_add_comm.
Qed.

Lemma drain_starts rm key st v :
  starts (vars st) → drain rm key st = Done v → starts v.
Proof.
  intros Hs. unfold drain. apply (for_range_inv starts); [|done].
  intros i k s s' _ Hss. unfold drain_group. case_decide.
  - intros (p & _ & Hv)%bind_Done. by eapply drain_one_starts.
  - apply (for_range_inv starts); [|done].
    intros j a t t' _. apply drain_tied_starts.
Qed.

Lemma SJF_starts rm processes res :
  Forall (λ p, Int64.in_range (ArrivalTime p)) processes →
  SJF.SJFSchedule rm processes = Done res →
  ∃ v, res = finish processes v ∧ starts v.
Proof.
  intros Hall. unfold SJF.SJFSchedule.
  intros (st & Hst & (v & Hv & [= <-])%bind_Done)%bind_Done.
  exists v. split; [done|]. eapply drain_starts; [|exact Hv].
  unfold SJF.loop in Hst. apply bind_Done in Hst as (a0 & _ & Hrun).
  eapply (for_range_inv (λ st, starts (vars st))); [| |exact Hrun].
  - intros i a s s' Ha. apply SJF_body_starts. by eapply arrivals_in_range.
  - apply starts_vars0.
Qed.

Lemma Prio_starts rm processes res :
  Forall (λ p, Int64.in_range (ArrivalTime p)) processes →
  Prio.SJFPrioritySchedule rm processes = Done res →
  ∃ v, res = finish processes v ∧ starts v.
Proof.
  intros Hall. unfold Prio.SJFPrioritySchedule.
  intros (st & Hst & (v & Hv & [= <-])%bind_Done)%bind_Done.
  exists v. split; [done|]. eapply drain_starts; [|exact Hv].
  unfold Prio.loop in Hst. apply bind_Done in Hst as (a0 & _ & Hrun).
  eapply (for_range_inv (λ st, starts (vars st))); [| |exact Hrun].
  - intros i a s s' Ha. apply Prio_body_starts. by eapply arrivals_in_range.
  - apply starts_vars0.
Qed.

Lemma visit_starts p st st' :
  starts (RR.rvars st) → RR.visit p st = Done st' → starts (RR.rvars st').
Proof.
  intros Hs. unfold RR.visit.
  destruct (RR.remProcesses st !! ProcessID p) as [process|];
    [|by intros [= <-]].
  case_decide.
  - intros (v & Hv & [= <-])%bind_Done. simpl.
    by eapply (emit_starts _ _ _ _ Hs); [|exact Hv].
  - intros (v & Hv & Hst)%bind_Done.
    assert (starts v) by (by eapply (emit_starts _ _ _ _ Hs); [|exact Hv]).
    by case_decide; injection Hst as <-.
Qed.

Lemma RR_starts srt processes res :
  RR.RRSchedule srt processes = Done res →
  ∃ v, res = finish (srt processes) v ∧ starts v.
Proof.
  unfold RR.RRSchedule. intros (st & Hloop & [= <-])%bind_Done.
  exists (RR.rvars st). split; [done|].
  apply (RR_loop_inv (λ st, starts (RR.rvars st))) in Hloop;
    [done|apply visit_starts|apply starts_vars0].
Qed.

Lemma starts_report processes v :
  starts v →
  let rows := stored (out_rows (report (finish processes v))) in
  Forall spanning rows ∧
  Start <$> out_gantt (report (finish processes v)) = rowWait <$> rows.
Proof. intros (rows & Hf & Hs & Hg). simpl. by rewrite (filled_stored _ _ Hf). Qed.

(** X16: [SJFSchedule], [SJFPrioritySchedule] and [RRSchedule] hand 100
    rows to [outputSchedule] whatever the input: the stored rows first,
    and nil rows after them. *)
Theorem X16_row_buffer rm srt processes res :
  range_ok rm →
  SJF.SJFSchedule rm processes = Done res ∨
  Prio.SJFPrioritySchedule rm processes = Done res ∨
  RR.RRSchedule srt processes = Done res →
  let rows := stored (out_rows (report res)) in
  out_rows (report res) = (Some <$> rows) ++ replicate (100 - length rows) None ∧
  length (out_rows (report res)) = 100%nat.
Proof.
  intros Hrm [Hrun|[Hrun|Hrun]].
  - eapply (SJF_vars_ind processes _
              (stable_and _ _ _ (has_rows_stable _) (hundred_stable _)))
      in Hrun as (v & -> & Hv & Hh);
      [|done|split; [apply has_rows_vars0|done]].
    by apply has_rows_hundred.
  - eapply (Prio_vars_ind processes _
              (stable_and _ _ _ (has_rows_stable _) (hundred_stable _)))
      in Hrun as (v & -> & Hv & Hh);
      [|done|split; [apply has_rows_vars0|done]].
    by apply has_rows_hundred.
  - eapply (RR_vars_ind processes _
              (stable_and _ _ _ (has_rows_stable _) (hundred_stable _)))
      in Hrun as (v & -> & Hv & Hh);
      [|split; [apply has_rows_vars0|done]].
    by apply has_rows_hundred.
Qed.

(** Four stored rows, 100 rows handed over. *)
Lemma X16_row_buffer_witness :
  ∃ res, RR.RRSchedule sort_stable seven_and_two = Done res ∧
    length (stored (out_rows (report res))) = 4%nat ∧
    length (out_rows (report res)) = 100%nat.
Proof.
  eassert (RR.RRSchedule sort_stable seven_and_two = Done _) as Hrun
    by (vm_compute; reflexivity).
  eexists. split; [exact Hrun|]. split; [vm_compute; reflexivity|].
  exact (proj2 (X16_row_buffer range_fixed sort_stable seven_and_two _
                  range_fixed_ok (or_intror (or_intror Hrun)))).
Defined.

(** X17: in [SJFSchedule], [SJFPrioritySchedule] and [RRSchedule], on
    processes whose arrival times are int64 values, the Wait column is
    the start of the span that a row reports: the row exits its Burst
    after its Wait, and its segment of the timeline starts at its
    Wait. *)
Theorem X17_wait_is_start rm srt processes res :
  Forall (λ p, Int64.in_range (ArrivalTime p)) processes →
  SJF.SJFSchedule rm processes = Done res ∨
  Prio.SJFPrioritySchedule rm processes = Done res ∨
  RR.RRSchedule srt processes = Done res →
  let rows := stored (out_rows (report res)) in
  Forall (λ r, rowExit r = Int64.add (rowWait r) (rowBurst r)) rows ∧
  Start <$> out_gantt (report res) = rowWait <$> rows.
Proof.
  intros Hall [Hrun|[Hrun|Hrun]].
  - apply SJF_starts in Hrun as (v & -> & Hv); [|done]. by apply starts_report.
  - apply Prio_starts in Hrun as (v & -> & Hv); [|done]. by apply starts_report.
  - apply RR_starts in Hrun as (v & -> & Hv). by apply starts_report.
Qed.

(** The four spans of [three_processes] start at 0, 2, 4 and 7. *)
Lemma X17_wait_is_start_witness :
  ∃ res, SJF.SJFSchedule range_fixed three_processes = Done res ∧
    Forall (λ r, rowExit r = Int64.add (rowWait r) (rowBurst r))
      (stored (out_rows (report res))) ∧
    Start <$> out_gantt (report res) = [0; 2; 4; 7].
Proof.
  assert (Forall (λ p, Int64.in_range (ArrivalTime p)) three_processes) as Hall
    by (repeat constructor; simpl; lia).
  eassert (SJF.SJFSchedule range_fixed three_processes = Done _) as Hrun
    by (vm_compute; reflexivity).
  eexists. split; [exact Hrun|].
  destruct (X17_wait_is_start range_fixed sort_stable three_processes _ Hall
              (or_introl Hrun)) as [Hs Hg].
  split; [exact Hs|]. rewrite Hg. vm_compute. reflexivity.
Defined.

(** *** The program *)

Lemma outputTitle_Ok title w :
  len title < 2 ^ 62 →
  outputTitle title w = (w +:+ banner title, Ok tt).
Proof.
  intros Hlen. unfold outputTitle, strings_Repeat.
  assert (0 <= len title) as H0 by (unfold len; lia).
  rewrite Int64Facts.wrap_id by (unfold Int64.in_range; lia).
  rewrite decide_False by lia.
  rewrite decide_False.
  2:{ pose proof (Z.quot_pos (len title) 2 H0 ltac:(lia)). lia. }
  unfold lift, Fprintln, banner. rewrite !io_bind_unfold. cbn [String.concat].
  by string_norm.
Qed.

Lemma hand_over_not_Done W title r w :
  (∀ res, r ≠ Done res) → ∀ a, (hand_over W title r w).2 ≠ Ok a.
Proof.
  intros Hr a. unfold hand_over. rewrite io_bind_unfold. unfold lift.
  destruct r as [res| |]; simpl; try done. by destruct (Hr res).
Qed.

(** A scheduler that hands over a timeline with an id that does not fit
    ends in the panic of [outputGantt], the table not begun. *)
Lemma hand_over_Panicked W title res w :
  len title < 2 ^ 62 →
  ¬ Forall (λ s, fits_cell (PID s)) (out_gantt (report res)) →
  hand_over W title (Done res) w =
  ((outputGantt (out_gantt (report res)) (w +:+ banner title)).1, Panicked).
Proof.
  intros Hlen Hfits. unfold hand_over.
  rewrite io_bind_unfold. unfold lift, of_run.
  rewrite io_bind_unfold, outputTitle_Ok by done.
  rewrite io_bind_unfold.
  pose proof (outputGantt_Panicked _ (w +:+ banner title) Hfits) as Hp.
  destruct (outputGantt _ _) as [w' r]. simpl in *. by subst r.
Qed.

Lemma hand_over_Ok W title res w a :
  (hand_over W title (Done res) w).2 = Ok a →
  Forall (λ s, fits_cell (PID s)) (out_gantt (report res)) ∧
  a = processes_after res.
Proof.
  unfold hand_over. rewrite io_bind_unfold. unfold lift, of_run.
  rewrite io_bind_unfold.
  destruct (outputTitle title w) as [w1 [[]| | |]]; try done.
  rewrite io_bind_unfold.
  destruct (decide (Forall (λ s, fits_cell (PID s)) (out_gantt (report res))))
    as [Hfits|Hfits].
  2:{ pose proof (outputGantt_Panicked _ w1 Hfits) as Hg.
      destruct (outputGantt _ w1) as [w2 r2]. simpl in Hg. by subst r2. }
  rewrite outputGantt_Ok by done.
  rewrite io_bind_unfold.
  destruct (outputSchedule _ _ _ _ _ _) as [w3 [[]| | |]]; try done.
  simpl. intros [= <-]. done.
Qed.

Lemma hand_over_returns W title res w :
  len title < 2 ^ 62 →
  (∀ header rows footer w,
     ∃ w', table_Render W header rows footer w = (w', Ok tt)) →
  Forall (λ s, fits_cell (PID s)) (out_gantt (report res)) →
  ∃ w', hand_over W title (Done res) w = (w', Ok (processes_after res)).
Proof.
  intros Hlen Htable Hfits. unfold hand_over.
  rewrite io_bind_unfold. unfold lift, of_run.
  rewrite io_bind_unfold, outputTitle_Ok by done.
  rewrite io_bind_unfold, outputGantt_Ok by done.
  rewrite io_bind_unfold. unfold outputSchedule.
  rewrite io_bind_unfold. unfold Fprintln at 1.
  match goal with
  | |- context [table_Render W ?h ?r ?f ?w] =>
      destruct (Htable h r f w) as [w' ->]
  end.
  by eexists.
Qed.

(** **** The ids of the timeline *)

Lemma known_ids_stable processes : stable (span_row processes) (known_ids processes).
Proof.
  split.
  - intros s v H. exact H.
  - intros row s svc v v' (p & Hp & (Hid & _) & _) H
      (_ & _ & _ & _ & _ & _ & _ & Hg & _)%emit_Done.
    unfold known_ids. rewrite Hg. apply Forall_app. split; [done|].
    constructor; [|constructor]. simpl. rewrite Hid.
    by apply list_elem_of_fmap_2.
Qed.

Lemma known_ids_vars0 processes : known_ids processes vars0.
Proof. constructor. Qed.

Lemma known_ids_fit processes v :
  Forall (λ p, fits_cell (ProcessID p)) processes →
  known_ids processes v →
  Forall (λ s, fits_cell (PID s)) (gantt v).
Proof.
  intros Hfit H. eapply Forall_impl; [exact H|].
  intros s (p & -> & Hp)%list_elem_of_fmap.
  rewrite Forall_forall in Hfit. by apply Hfit.
Qed.

Lemma fcfs_slices_fit processes s w :
  Forall (λ p, fits_cell (ProcessID p)) processes ↔
  Forall (λ s, fits_cell (PID s)) (fcfs_slices s w processes).
Proof.
  revert s w. induction processes as [|p l IH]; intros s w; simpl.
  - split; constructor.
  - rewrite !Forall_cons. by rewrite <- IH.
Qed.

Lemma SJFSchedule_empty rm : SJF.SJFSchedule rm [] = Panic.
Proof. done. Qed.

Lemma len_titles :
  len "First-come, first-serve" < 2 ^ 62 ∧ len "Shortest-job-first" < 2 ^ 62 ∧
  len "Priority" < 2 ^ 62 ∧ len "Round-robin" < 2 ^ 62.
Proof. unfold len. simpl. lia. Qed.

(** The timeline that a scheduler hands over has the ids of the input. *)
Lemma timeline_ids rm srt processes res :
  range_ok rm →
  SJF.SJFSchedule rm processes = Done res ∨
  Prio.SJFPrioritySchedule rm processes = Done res ∨
  RR.RRSchedule srt processes = Done res →
  Forall (λ p, fits_cell (ProcessID p)) processes →
  Forall (λ s, fits_cell (PID s)) (out_gantt (report res)).
Proof.
  intros Hrm [Hrun|[Hrun|Hrun]] Hfit.
  - eapply (SJF_vars_ind processes _ (known_ids_stable _)) in Hrun
      as (v & -> & Hv); [|done|apply known_ids_vars0].
    by eapply known_ids_fit.
  - eapply (Prio_vars_ind processes _ (known_ids_stable _)) in Hrun
      as (v & -> & Hv); [|done|apply known_ids_vars0].
    by eapply known_ids_fit.
  - eapply (RR_vars_ind processes (known_ids processes)) in Hrun
      as (v & -> & Hv); [| |apply known_ids_vars0].
    + by eapply known_ids_fit.
    + eapply stable_weaken; [|apply known_ids_stable]. by intros r [? _].
Qed.

Lemma schedule_all_unfit W processes w :
  ¬ Forall (λ p, fits_cell (ProcessID p)) processes →
  schedule_all W processes w =
  ((outputGantt (fcfs_slices 0 0 processes)
      (w +:+ banner "First-come, first-serve")).1, Panicked).
Proof.
  intros Hfit. unfold schedule_all. rewrite io_bind_unfold.
  destruct (FCFSSchedule_rows processes) as (res & Hres & _).
  destruct (FCFSSchedule_more _ _ Hres) as (_ & Hg & _).
  rewrite Hres, hand_over_Panicked, Hg; [done|apply len_titles|].
  rewrite Hg. by rewrite <- fcfs_slices_fit.
Qed.

Lemma schedule_all_Ok W processes w w' :
  schedule_all W processes w = (w', Ok tt) →
  processes ≠ [] ∧ Forall (λ p, fits_cell (ProcessID p)) processes.
Proof.
  intros Hrun.
  destruct (decide (Forall (λ p, fits_cell (ProcessID p)) processes))
    as [Hfit|Hfit]; [|by rewrite schedule_all_unfit in Hrun].
  split; [|done]. intros ->.
  unfold schedule_all in Hrun. rewrite io_bind_unfold in Hrun.
  destruct (FCFSSchedule_rows []) as (res & Hres & Hafter & _).
  rewrite Hres in Hrun.
  pose proof (hand_over_Ok W "First-come, first-serve" res w) as H1.
  destruct (hand_over W _ (Done res) w) as [w1 [p1| | |]]; try done.
  destruct (H1 p1 eq_refl) as [_ ->]. rewrite Hafter in Hrun.
  rewrite io_bind_unfold, SJFSchedule_empty in Hrun.
  pose proof (hand_over_not_Done W "Shortest-job-first" Panic w1
                ltac:(done)) as H2.
  destruct (hand_over W _ Panic w1) as [w2 [p2| | |]]; try done.
  by destruct (H2 p2).
Qed.

(** X6: [FCFSSchedule] never fails in its loop, however long the input:
    its row buffer is made as long as the input, and one row and one
    segment for each process, in the order of the input, reach its
    output calls.  With a title of less than 2^62 bytes and a table
    writer that returns, the call then returns exactly when every id
    fits a cell of the timeline, and leaves the slice as it was; when
    an id does not fit, it panics in [outputGantt]. *)
Theorem X6_fcfs_returns W title processes w :
  len title < 2 ^ 62 →
  (∀ header rows footer w,
     ∃ w', table_Render W header rows footer w = (w', Ok tt)) →
  ∃ res rows,
    FCFS.FCFSSchedule processes = Done res ∧
    out_rows (report res) = Some <$> rows ∧
    rowID <$> rows = ProcessID <$> processes ∧
    PID <$> out_gantt (report res) = ProcessID <$> processes ∧
    (hand_over W title (FCFS.FCFSSchedule processes) w).2 =
      if decide (Forall (λ p, fits_cell (ProcessID p)) processes)
      then Ok processes else Panicked.
Proof.
  intros Hlen Htable.
  destruct (FCFSSchedule_rows processes) as (res & Hres & Hafter & _).
  destruct (FCFSSchedule_more _ _ Hres) as (Hrows & Hg & _).
  exists res, (fcfs_rows 0 0 processes). split; [done|]. split; [done|].
  split; [apply fcfs_rows_ids|]. split; [by rewrite Hg, fcfs_slices_ids|].
  rewrite Hres. case_decide as Hfit.
  - destruct (hand_over_returns W title res w Hlen Htable) as [w' ->].
    + rewrite Hg. by apply fcfs_slices_fit.
    + simpl. by rewrite Hafter.
  - rewrite hand_over_Panicked; [done|done|].
    rewrite Hg. by rewrite <- fcfs_slices_fit.
Qed.

(** The call on [two_processes], under the title that [main] gives. *)
Lemma X6_fcfs_returns_witness :
  ∃ res rows,
    FCFS.FCFSSchedule two_processes = Done res ∧
    out_rows (report res) = Some <$> rows ∧
    rowID <$> rows = [1; 2] ∧
    PID <$> out_gantt (report res) = [1; 2] ∧
    (hand_over (plain_world []) "First-come, first-serve"
       (FCFS.FCFSSchedule two_processes) "").2 = Ok two_processes.
Proof.
  apply (X6_fcfs_returns (plain_world []) "First-come, first-serve"
           two_processes "").
  - vm_compute. reflexivity.
  - intros. by eexists.
Defined.

(** X18: [main] runs to its end only if it is given exactly one
    argument, the file of that name opens and closes, its records load
    to at least one process, and every id fits a cell of the timeline.
    In no other case does it return. *)
Theorem X18_main_completes_only_if W args w w' :
  main W args w = (w', Ok tt) →
  ∃ f processes,
    length args = 2%nat ∧ os_Open W (args !!! 1%nat) = Some f ∧
    loadProcesses (csv_ReadAll W f) = Ok (Some processes) ∧
    Close_ok W f = true ∧ processes ≠ [] ∧
    Forall (λ p, fits_cell (ProcessID p)) processes.
Proof.
  unfold main, openProcessingFile, log_Fatal, lift.
  destruct (decide (length args ≠ 2%nat)) as [Hlen|Hlen]; [done|].
  destruct (os_Open W (args !!! 1%nat)) as [f|] eqn:Hopen; [|done].
  unfold deferred_close. rewrite io_bind_unfold.
  destruct (loadProcesses (csv_ReadAll W f)) as [[processes|]| | |] eqn:Hload;
    try done; [|by destruct (Close_ok W f)].
  destruct (schedule_all W processes w) as [w1 [[]| | |]] eqn:Hrun;
    try done; [|by destruct (Close_ok W f)].
  destruct (Close_ok W f) eqn:Hclose; [|done].
  intros _. apply schedule_all_Ok in Hrun as [Hne Hfit].
  exists f, processes. split; [lia|]. done.
Qed.

(** A run that ends, in the world with the file of [two_records]. *)
Lemma X18_main_completes_only_if_witness :
  ∃ (f : File (plain_world two_records)) processes,
    length ["schedule"; "processes.csv"] = 2%nat ∧
    os_Open (plain_world two_records) (["schedule"; "processes.csv"] !!! 1%nat)
      = Some f ∧
    loadProcesses (csv_ReadAll (plain_world two_records) f)
      = Ok (Some processes) ∧
    Close_ok (plain_world two_records) f = true ∧ processes ≠ [] ∧
    Forall (λ p, fits_cell (ProcessID p)) processes.
Proof.
  eapply (X18_main_completes_only_if (plain_world two_records)
            ["schedule"; "processes.csv"] "").
  vm_compute. reflexivity.
Defined.

(** X19: [main] runs to its end when it is given one argument, the file
    of that name opens and closes, its records load to between 1 and 33
    processes whose ids fit a cell of the timeline and whose bursts are
    int64 values that round-robin serves in at most 100 visits, and the
    table writer returns. *)
Theorem X19_main_completes W args f processes w :
  length args = 2%nat → os_Open W (args !!! 1%nat) = Some f →
  loadProcesses (csv_ReadAll W f) = Ok (Some processes) →
  Close_ok W f = true →
  range_ok (map_order W) → sort_ok (slice_sort W) →
  (∀ header rows footer w,
     ∃ w', table_Render W header rows footer w = (w', Ok tt)) →
  processes ≠ [] → (length processes ≤ 33)%nat →
  Forall (λ p, fits_cell (ProcessID p)) processes →
  Forall (λ p, Int64.in_range (BurstDuration p)) processes →
  (sum_list_with (λ p, visits (BurstDuration p)) processes ≤ 100)%nat →
  ∃ w', main W args w = (w', Ok tt).
Proof.
  intros Hlen Hopen Hload Hclose Hrm Hsrt Htable Hne Hn Hfit Hrange Hsum.
  destruct len_titles as (Ht1 & Ht2 & Ht3 & Ht4).
  unfold main, openProcessingFile.
  rewrite decide_False, Hopen by lia.
  unfold deferred_close. rewrite io_bind_unfold. unfold lift. rewrite Hload.
  enough (∃ w', schedule_all W processes w = (w', Ok tt)) as [w' ->]
    by (rewrite Hclose; by eexists).
  unfold schedule_all.
  (* first-come, first-serve *)
  destruct (FCFSSchedule_rows processes) as (res1 & Hres1 & Hafter1 & _).
  destruct (FCFSSchedule_more _ _ Hres1) as (_ & Hg1 & _).
  destruct (hand_over_returns W _ res1 w Ht1 Htable) as [w1 H1].
  { rewrite Hg1. by rewrite <- fcfs_slices_fit. }
  rewrite io_bind_unfold, Hres1, H1, Hafter1.
  (* shortest-job-first *)
  destruct (SJFSchedule_returns (map_order W) processes Hrm Hne ltac:(lia))
    as [res2 Hres2].
  destruct (hand_over_returns W _ res2 w1 Ht2 Htable) as [w2 H2].
  { eapply (timeline_ids _ (slice_sort W)); eauto. }
  assert (processes_after res2 = processes) as Hafter2.
  { by apply bind_Done in Hres2 as (st & _ & (v & _ & [= <-])%bind_Done). }
  rewrite io_bind_unfold, Hres2, H2, Hafter2.
  (* priority *)
  destruct (SJFPrioritySchedule_returns (map_order W) processes Hrm Hne Hn)
    as [res3 Hres3].
  destruct (hand_over_returns W _ res3 w2 Ht3 Htable) as [w3 H3].
  { eapply (timeline_ids _ (slice_sort W)); eauto. }
  assert (processes_after res3 = processes) as Hafter3.
  { by apply bind_Done in Hres3 as (st & _ & (v & _ & [= <-])%bind_Done). }
  rewrite io_bind_unfold, Hres3, H3, Hafter3.
  (* round-robin *)
  destruct (RRSchedule_returns (slice_sort W) processes Hsrt Hrange Hsum)
    as [res4 Hres4].
  destruct (hand_over_returns W _ res4 w3 Ht4 Htable) as [w4 H4].
  { eapply (timeline_ids (map_order W)); eauto. }
  rewrite io_bind_unfold, Hres4, H4. by eexists.
Qed.

(** The two records load to [two_processes]. *)
Lemma X19_main_completes_witness :
  ∃ w', main (plain_world two_records) ["schedule"; "processes.csv"] ""
        = (w', Ok tt).
Proof.
  apply (X19_main_completes (plain_world two_records) _ tt two_processes).
  - reflexivity.
  - reflexivity.
  - vm_compute. reflexivity.
  - reflexivity.
  - apply range_fixed_ok.
  - apply sort_stable_ok.
  - intros header rows footer w. by eexists.
  - done.
  - simpl. lia.
  - repeat constructor; simpl; lia.
  - repeat constructor; simpl; lia.
  - vm_compute. lia.
Defined.

(** X20: when the id of a process takes ten characters or more, the four
    calls of [main] end in the panic of the first timeline: the title of
    first-come, first-serve and the beginning of its timeline are all
    that is written, and no table is laid out, whatever the world. *)
Theorem X20_unfit_id W processes w :
  ¬ Forall (λ p, fits_cell (ProcessID p)) processes →
  schedule_all W processes w =
  ((outputGantt (fcfs_slices 0 0 processes)
      (w +:+ banner "First-come, first-serve")).1, Panicked).
Proof. apply schedule_all_unfit. Qed.

(** The id 1000000000 does not fit. *)
Lemma X20_unfit_id_witness :
  schedule_all (plain_world []) wide_id "" =
  ((outputGantt (fcfs_slices 0 0 wide_id)
      ("" +:+ banner "First-come, first-serve")).1, Panicked).
Proof.
  apply X20_unfit_id.
  intros H. apply Forall_cons in H as [_ H]. apply Forall_cons in H as [H _].
  unfold fits_cell in H. simpl in H. lia.
Defined.
